(** * appdash: the InfluxDB span store (influxdb_store.go)

    A shallow embedding of the record-merge, schema-manifest,
    trace-tree reconstruction and set-up code of [InfluxDBStore], followed
    by the properties established about it.

    Conventions of the embedding
    - A Go [string] and a Go [[]byte] are both sequences of bytes; they are
      modelled by [string] and the conversions [string(b)] / [[]byte(s)] are
      the identity.
    - An [interface{}] value stored in a point's field map is an [iface].
    - A Go function returning [(T, error)] is a [result T]: [Ok v] for
      [(v, nil)], [Err e] for [(zero, e)], and [Panic p] when the Go code
      would panic at run time.
    - A Go [map] is a [gmap]; a [range] over a map visits its entries in an
      unspecified order, given by the section variable [range_order].
    - A method that changes the store or calls the server returns the
      store it leaves and the calls it made, in order, with its answer. *)

From Stdlib Require Import String Ascii List.
From stdpp Require Import gmap strings list fin_maps.

Local Open Scope string_scope.
Local Open Scope list_scope.

(** ** Errors, panics and results *)

(** [errors.New(msg)] / [fmt.Errorf(...)]: an error is its message. *)
Inductive error : Type :=
  | errors_New (msg : string).

Inductive panic : Type :=
  | nil_dereference
  | index_out_of_range.

Inductive result (A : Type) : Type :=
  | Ok (v : A)
  | Err (e : error)
  | Panic (p : panic).

Arguments Ok {A} v.
Arguments Err {A} e.
Arguments Panic {A} p.

Definition bind {A B} (r : result A) (k : A → result B) : result B :=
  match r with
  | Ok v => k v
  | Err e => Err e
  | Panic p => Panic p
  end.

Notation "'do' x <- r ; k" := (bind r (fun x => k))
  (at level 10, x pattern, r at level 100, k at level 200).

(** ** Constants *)

Definition schemasFieldName : string := "schemas".
Definition sepByte : ascii := ","%char.
Definition schemasFieldSeparator : string := String sepByte "".
Definition spanMeasurementName : string := "spans".

(** ** The fragment of package [strings] used by the store *)

(** [strings.HasPrefix(s, prefix)]. *)
Fixpoint HasPrefix (s prefix : string) : bool :=
  match prefix, s with
  | EmptyString, _ => true
  | String _ _, EmptyString => false
  | String p prefix', String c s' =>
      if Ascii.eqb c p then HasPrefix s' prefix' else false
  end.

(** The slice expression [s[n:]]. It is only used behind a successful
    [HasPrefix] test, where [n <= len(s)]. *)
Fixpoint slice_from (n : nat) (s : string) : string :=
  match n, s with
  | O, _ => s
  | S n', String _ s' => slice_from n' s'
  | S _, EmptyString => EmptyString
  end.

(** [strings.Split(s, sep)] for a one-byte separator, the only kind the
    store uses ([schemasFieldSeparator]). *)
Fixpoint Split (s : string) (sep : ascii) : list string :=
  match s with
  | EmptyString => [EmptyString]
  | String c s' =>
      if Ascii.eqb c sep then EmptyString :: Split s' sep
      else match Split s' sep with
           | x :: r => String c x :: r
           | [] => [String c EmptyString]
           end
  end.

(** [strings.Join(elems, sep)]. *)
Fixpoint Join (elems : list string) (sep : string) : string :=
  match elems with
  | [] => EmptyString
  | [x] => x
  | x :: r => x +:+ sep +:+ Join r sep
  end.

(** ** Data model *)

(** [ID] is a [uint64]; only equality on identifiers is used here. *)
Definition ID : Type := N.

Record SpanID : Type := mkSpanID {
  id_Trace : ID;
  id_Span : ID;
  id_Parent : ID
}.

(** [SpanID.IsRoot]: the parent is the zero identifier. *)
Definition IsRoot (id : SpanID) : bool := N.eqb (id_Parent id) 0%N.

Record Annotation : Type := mkAnnotation {
  Key : string;
  Value : string
}.

Record Span : Type := mkSpan {
  SpanID_of : SpanID;
  Annotations : list Annotation
}.

(** [type Trace struct { Span; Sub []*Trace }]. The tree is a value: this
    is exact as long as no node is reachable along two paths, which holds
    for the freshly allocated nodes [&Trace{Span: *span}] that [Trace] and
    [Traces] build. *)
#[local] Unset Elimination Schemes.
Inductive Trace : Type :=
  | mkTrace (sp : Span) (Sub : list Trace).
#[local] Set Elimination Schemes.

Definition trace_Span (t : Trace) : Span := let 'mkTrace sp _ := t in sp.
Definition Sub (t : Trace) : list Trace := let 'mkTrace _ sub := t in sub.
Definition trace_ID (t : Trace) : SpanID := SpanID_of (trace_Span t).

(** A value of type [interface{}] as found in a field map: [nil], a
    [string], or a value of another dynamic type (named by
    [reflect.TypeOf]). *)
Inductive iface : Type :=
  | INil
  | IString (s : string)
  | IOther (type_name : string).

(** [pointFields], i.e. [map[string]interface{}]. *)
Abbreviation pointFields := (gmap string iface).

(** [time.Time], as a count of nanoseconds; the zero value is [0]. *)
Definition Time : Type := Z.

(** [influxDBClient.Point]. *)
Record Point : Type := mkPoint {
  Measurement : string;
  Tags : gmap string string;
  Fields : pointFields;
  PTime : Time
}.

(** [influxDBModels.Row]: one series of a query result. *)
Record Row : Type := mkRow {
  RowTags : gmap string string;
  Columns : list string;
  Values : list (list iface)
}.

(** A query, by the predicate that its command expresses. *)
Inductive Query : Type :=
  | SelectSpanPoint (id : SpanID)     (* trace_id, span_id and parent_id all given *)
  | SelectTrace (id : ID)             (* every span of one trace *)
  | SelectRootSpans (limit : Z)       (* parent_id = zeroID, LIMIT limit *)
  | SelectChildren (traces : list ID) (* (trace_id = t AND parent_id != zeroID) OR ... *).

Record QueryResult : Type := mkQueryResult {
  Series : list Row
}.

Record Response : Type := mkResponse {
  Results : list QueryResult;
  Response_Error : option error
}.

Record BatchPoints : Type := mkBatchPoints {
  Points : list Point;
  Database : string
}.

Section Store.

#[local] Set Default Proof Using "Type".

(** [schemaPrefix] is a constant of the package declared outside
    influxdb_store.go. *)
Variable schemaPrefix : string.

(** The order in which a [range] statement visits the entries of a map is
    unspecified; [range_order] is any rearrangement of the entries. *)
Variable range_order : ∀ A : Type, list A → list A.
Hypothesis range_order_perm : ∀ A (l : list A), range_order A l ≡ₚ l.

(** ** Schema tracker *)

(** [schemasFromAnnotations]. *)
Definition schemasFromAnnotations (anns : list Annotation) : string :=
  let schemas :=
    foldl (fun schemas ann =>
             if HasPrefix (Key ann) schemaPrefix
             then schemas ++ [slice_from (String.length schemaPrefix) (Key ann)]
             else schemas) [] anns in
  Join schemas schemasFieldSeparator.

(** [schemaExists]. *)
Fixpoint schemaExists (schema : string) (schemas : list string) : bool :=
  match schemas with
  | [] => false
  | s :: schemas' => if String.eqb schema s then true else schemaExists schema schemas'
  end.

(** [findSchemasAnnotation]; [None] is the [nil] pointer. *)
Fixpoint findSchemasAnnotation (anns : list Annotation) : option Annotation :=
  match anns with
  | [] => None
  | a :: anns' =>
      if String.eqb (Key a) schemasFieldName then Some a
      else findSchemasAnnotation anns'
  end.

(** [filterSchemas]. Reading [schemasAnn.Value] through a [nil] pointer
    panics. *)
Definition filterSchemas (anns : list Annotation) : result (list Annotation) :=
  match findSchemasAnnotation anns with
  | None => Panic nil_dereference
  | Some schemasAnn =>
      let schemas := Split (Value schemasAnn) sepByte in
      Ok (foldl (fun annotations a =>
                   if HasPrefix (Key a) schemaPrefix then
                     let schema := slice_from (String.length schemaPrefix) (Key a) in
                     if schemaExists schema schemas
                     then annotations ++ [a]
                     else annotations
                   else annotations ++ [a]) [] anns)
  end.

(** [mergeSchemasField]. *)
Definition mergeSchemasField (new old : iface) : result string :=
  do strFields <-
    foldl (fun acc field =>
             do strFields <- acc;
             match field with
             | IString s => Ok (strFields ++ [s])
             | INil => Ok strFields
             | IOther ty => Err (errors_New ("unexpected schema field type: " +:+ ty))
             end) (Ok []) [new; old];
  let schemas : gmap string string :=
    foldl (fun schemas strField =>
             if String.eqb strField "" then schemas
             else foldl (fun schemas s =>
                           match schemas !! s with
                           | Some _ => schemas
                           | None => <[s := s]> schemas
                           end) schemas (Split strField sepByte))
          ∅ strFields in
  let result := (range_order _ (map_to_list schemas)).*1 in
  Ok (Join result schemasFieldSeparator).

(** [withoutEmptyFields]. *)
Definition withoutEmptyFields (pf : pointFields) : pointFields :=
  foldl (fun (r : pointFields) (kv : string * iface) =>
           let '(k, v) := kv in
           match v with
           | IString s => if String.eqb s "" then r else <[k := v]> r
           | INil => r
           | IOther _ => <[k := v]> r
           end) ∅ (range_order _ (map_to_list pf)).

(** [extendFields]: [dst] is updated in place and returned. *)
Definition extendFields (dst src : pointFields) : pointFields :=
  foldl (fun (dst : pointFields) (kv : string * iface) =>
           let '(k, v) := kv in
           match dst !! k with
           | Some _ => <[k := v]> dst
           | None => dst
           end) dst (range_order _ (map_to_list src)).

(** ** The external store

    What the store answers is an input of every operation: [con_Query] is
    [in.con.Query] (the query string is represented by the predicate it
    expresses) and [con_Write] is [in.con.Write]. *)

Variable con_Query : Query → result Response.
Variable con_Write : BatchPoints → option error.
Variable dbName : string.
Variable tracesPerPage : Z.

(** Functions of the package declared outside influxdb_store.go. *)
Variable ID_String : ID → string.
Variable ParseID : string → result ID.
Variable time_Parse : string → result Time.
Variable Event : Type.
Variable UnmarshalEvents : list Annotation → result (list Event).
Variable MarshalEvent : Event → result (list Annotation).

(** [executeOneQuery]. *)
Definition executeOneQuery (command : Query) : result QueryResult :=
  do response <- con_Query command;
  match Response_Error response with
  | Some err => Err err
  | None =>
      match Results response with
      | [r] => Ok r
      | _ => Err (errors_New "unexpected number of results for an influxdb single query")
      end
  end.

(** The loop of [findSpanPoint] over [r.Values[0]], from index [i] on. *)
Fixpoint findSpanPoint_fields (columns : list string) (i : nat)
    (fields : list iface) (p : Point) : result Point :=
  match fields with
  | [] => Ok p
  | field :: fields' =>
      match columns !! i with
      | None => Panic index_out_of_range
      | Some key =>
          match field with
          | IString s =>
              do p <- (if String.eqb key "time" then
                         do t <- time_Parse s;
                         Ok (mkPoint (Measurement p) (Tags p) (Fields p) t)
                       else Ok p);
              findSpanPoint_fields columns (S i) fields'
                (mkPoint (Measurement p) (Tags p) (<[key := IString s]> (Fields p)) (PTime p))
          | INil => findSpanPoint_fields columns (S i) fields' p
          | IOther ty => Err (errors_New ("unexpected field type: " +:+ ty))
          end
      end
  end.

(** [findSpanPoint]; [Ok None] is the answer [(nil, nil)]. *)
Definition findSpanPoint (id : SpanID) : result (option Point) :=
  do result <- executeOneQuery (SelectSpanPoint id);
  match Series result with
  | [] => Ok None
  | _ :: _ :: _ => Err (errors_New "unexpected multiple series")
  | [r] =>
      match Values r with
      | [] => Err (errors_New "unexpected empty series")
      | fields :: _ =>
          do p <- findSpanPoint_fields (Columns r) 0 fields (mkPoint "" ∅ ∅ 0%Z);
          Ok (Some p)
      end
  end.

(** The value of [m[k]] for a [map[string]interface{}]: [nil] when absent. *)
Definition index_fields (m : pointFields) (k : string) : iface :=
  default INil (m !! k).

(** [Collect] up to the construction of the point [*p] that is handed to
    [in.con.Write]; [now] is [time.Now().UTC()]. *)
Definition Collect_point (id : SpanID) (anns : list Annotation) (now : Time)
    : result Point :=
  do p <- findSpanPoint id;
  let tags : gmap string string :=
    <["parent_id" := ID_String (id_Parent id)]>
      (<["span_id" := ID_String (id_Span id)]>
         (<["trace_id" := ID_String (id_Trace id)]> ∅)) in
  let fields : pointFields :=
    foldl (fun (fields : pointFields) ann =>
             <[Key ann := IString (Value ann)]> fields) ∅ anns in
  match p with
  | Some p =>
      let fields := extendFields fields (withoutEmptyFields (Fields p)) in
      do schemas <- mergeSchemasField (IString (schemasFromAnnotations anns))
                      (index_fields (Fields p) schemasFieldName);
      let fields := <[schemasFieldName := IString schemas]> fields in
      Ok (mkPoint spanMeasurementName tags fields (PTime p))
  | None =>
      let fields := <[schemasFieldName := IString (schemasFromAnnotations anns)]> fields in
      Ok (mkPoint spanMeasurementName tags fields now)
  end.

(** [Collect]: the batches handed to [in.con.Write], and the answer. *)
Definition InfluxDBStore_Collect (id : SpanID) (anns : list Annotation) (now : Time)
    : list BatchPoints * result unit :=
  match Collect_point id anns now with
  | Ok p =>
      let bps := mkBatchPoints [p] dbName in
      ([bps], match con_Write bps with
              | Some writeErr => Err writeErr
              | None => Ok tt
              end)
  | Err e => ([], Err e)
  | Panic p => ([], Panic p)
  end.

(** ** Record codec *)

(** The loop of [annotationsFromRow] over the fields, from index [i] on. *)
Fixpoint annotationsFromRow_fields (columns : list string) (i : nat)
    (fields : list iface) (annotations : list Annotation)
    : result (list Annotation) :=
  match fields with
  | [] => Ok annotations
  | field :: fields' =>
      match columns !! i with
      | None => Panic index_out_of_range
      | Some key =>
          do value <- match field with
                      | IString s => Ok s
                      | INil => Ok ""
                      | IOther ty => Err (errors_New ("unexpected field type: " +:+ ty))
                      end;
          annotationsFromRow_fields columns (S i) fields'
            (annotations ++ [mkAnnotation key value])
      end
  end.

(** [annotationsFromRow]. *)
Definition annotationsFromRow (r : Row) : result (list Annotation) :=
  let fields := match Values r with
                | [fields] => fields
                | _ => []
                end in
  if decide (1 < length (Values r)) then
    Err (errors_New "unexpected multiple row values")
  else annotationsFromRow_fields (Columns r) 0 fields [].

(** [annotationsFromEvents]. *)
Definition annotationsFromEvents (a : list Annotation) : result (list Annotation) :=
  do events <- UnmarshalEvents a;
  foldl (fun acc e =>
           do annotations <- acc;
           do anns <- MarshalEvent e;
           Ok (annotations ++ anns)) (Ok []) events.

(** The value of [r.Tags[k]]: the empty string when absent. *)
Definition index_tags (m : gmap string string) (k : string) : string :=
  default "" (m !! k).

(** [newSpanFromRow]. *)
Definition newSpanFromRow (r : Row) : result Span :=
  do traceID <- ParseID (index_tags (RowTags r) "trace_id");
  do spanID <- ParseID (index_tags (RowTags r) "span_id");
  do parentID <- ParseID (index_tags (RowTags r) "parent_id");
  do annotations <- annotationsFromRow r;
  do filtered <- filterSchemas annotations;
  do anns <- annotationsFromEvents filtered;
  Ok (mkSpan (mkSpanID traceID spanID parentID) anns).

(** ** Trace tree assembler *)

(** [findTraceParent]. The node that the Go function returns by pointer is
    designated by its position: the list of indices into the successive
    [Sub] slices that leads to it from [root]. [None] is [nil]. *)
Fixpoint findTraceParent (root child : Trace) {struct root} : option (list nat) :=
  match root with
  | mkTrace sp subs =>
      if N.eqb (id_Span (SpanID_of sp)) (id_Parent (trace_ID child)) then Some []
      else
        (fix range_Sub (subs : list Trace) (i : nat) {struct subs} : option (list nat) :=
           match subs with
           | [] => None
           | sub :: subs' =>
               if N.eqb (id_Span (trace_ID sub)) (id_Parent (trace_ID child))
               then Some [i]
               else match findTraceParent sub child with
                    | Some r => Some (i :: r)
                    | None => range_Sub subs' (S i)
                    end
           end) subs 0%nat
  end.

(** The assignment [t.Sub = append(t.Sub, child)] (or [[]*Trace{child}] when
    [t.Sub] is [nil]) for the node [t] at position [t_pos] under [root]. *)
Fixpoint appendSub (t_pos : list nat) (child : Trace) (root : Trace) {struct t_pos} : Trace :=
  match root with
  | mkTrace sp subs =>
      match t_pos with
      | [] => mkTrace sp (subs ++ [child])
      | i :: t_pos' => mkTrace sp (alter (appendSub t_pos' child) i subs)
      end
  end.

Definition errMaxRetries : error := errors_New "maximum number of retries".

(** The closure [addFn] of [addChildren]: the iterations [i-1], ..., [0] of
    its loop, on the current tree and the current [children] slice. *)
Fixpoint addFn (i : nat) (root : Trace) (children : list Trace)
    : result (Trace * list Trace) :=
  match i with
  | O => Ok (root, children)
  | S i =>
      match children !! i with
      | None => Panic index_out_of_range
      | Some child =>
          match findTraceParent root child with
          | Some t =>
              addFn i (appendSub t child root) (take i children ++ drop (S i) children)
          | None => addFn i root children
          end
      end
  end.

(** The [for] loop of [addChildren]; [tries_left] is [retries - try]. *)
Fixpoint addChildren_loop (tries_left : nat) (root : Trace) (children : list Trace)
    : result (Trace * option error) :=
  match children with
  | [] => Ok (root, None)
  | _ :: _ =>
      match tries_left with
      | O => Ok (root, Some errMaxRetries)
      | S tries_left =>
          do (root, children) <- addFn (length children) root children;
          addChildren_loop tries_left root children
      end
  end.

(** [addChildren]: the tree under [root] when the call returns, and the
    error returned. *)
Definition addChildren (root : Trace) (children : list Trace)
    : result (Trace * option error) :=
  addChildren_loop (length children) root children.

(** The zero value [Trace{}]. *)
Definition zeroTrace : Trace := mkTrace (mkSpan (mkSpanID 0%N 0%N 0%N) []) [].

Definition errTraceNotFound : error := errors_New "trace not found".
Definition errMultipleRootSpans : error := errors_New "unexpected multiple root spans".

(** The body of the loop of [Trace] over [result.Series]. *)
Definition Trace_step (st : Trace * bool * list Trace) (s : Row)
    : result (Trace * bool * list Trace) :=
  let '(trace, rootSpanSet, children) := st in
  do span <- newSpanFromRow s;
  if IsRoot (SpanID_of span) && rootSpanSet then Err errMultipleRootSpans
  else
    let isRootSpan := IsRoot (SpanID_of span) && negb rootSpanSet in
    if isRootSpan then Ok (mkTrace span (Sub trace), true, children)
    else Ok (trace, rootSpanSet, children ++ [mkTrace span []]).

(** [Trace]. *)
Definition InfluxDBStore_Trace (id : ID) : result Trace :=
  do result <- executeOneQuery (SelectTrace id);
  match Series result with
  | [] => Err errTraceNotFound
  | _ :: _ =>
      do (trace, _, children) <-
        foldl (fun acc s => do st <- acc; Trace_step st s)
              (Ok (zeroTrace, false, [])) (Series result);
      do (trace, err) <- addChildren trace children;
      match err with
      | Some err => Err err
      | None => Ok trace
      end
  end.

(** [Traces]. The slice returned is [None] when it is [nil]. *)
Definition InfluxDBStore_Traces : result (option (list Trace)) :=
  let traces : list Trace := [] in
  do rootSpansResult <- executeOneQuery (SelectRootSpans tracesPerPage);
  match Series rootSpansResult with
  | [] => Ok (Some traces)
  | _ :: _ =>
      do tracesCache <-
        foldl (fun acc s =>
                 do tracesCache <- acc;
                 do span <- newSpanFromRow s;
                 match (tracesCache : gmap ID Trace) !! id_Trace (SpanID_of span) with
                 | None => Ok (<[id_Trace (SpanID_of span) := mkTrace span []]> tracesCache)
                 | Some _ => Err (errors_New "duplicated root span")
                 end) (Ok ∅) (Series rootSpansResult);
      let where_ :=
        map (fun kv : ID * Trace => id_Trace (trace_ID kv.2))
            (range_order _ (map_to_list tracesCache)) in
      do childrenSpansResult <- executeOneQuery (SelectChildren where_);
      do children <-
        foldl (fun acc s =>
                 do children <- acc;
                 do span <- newSpanFromRow s;
                 match tracesCache !! id_Trace (SpanID_of span) with
                 | None => Err (errors_New "parent not found")
                 | Some trace =>
                     let child := mkTrace span [] in
                     match (children : gmap ID (list Trace)) !! id_Trace (trace_ID trace) with
                     | None => Ok (<[id_Trace (trace_ID trace) := [child]]> children)
                     | Some t => Ok (<[id_Trace (trace_ID trace) := t ++ [child]]> children)
                     end
                 end) (Ok ∅) (Series childrenSpansResult);
      do traces <-
        foldl (fun acc (kv : ID * Trace) =>
                 do traces <- acc;
                 let trace := kv.2 in
                 do trace <- match children !! id_Trace (trace_ID trace) with
                             | Some traceChildren =>
                                 do (trace, err) <- addChildren trace traceChildren;
                                 match err with
                                 | Some err => Err err
                                 | None => Ok trace
                                 end
                             | None => Ok trace
                             end;
                 Ok (traces ++ [trace]))
              (Ok traces) (range_order _ (map_to_list tracesCache));
      Ok (Some traces)
  end.

(** ** Set-up *)

Definition defaultTracesPerPage : Z := 10%Z.
Definition releaseDBName : string := "appdash".
Definition testDBName : string := "appdash_test".

(** [type mode int], with its two constants. *)
Definition mode : Type := Z.
Definition releaseMode : mode := 0%Z.
Definition testMode : mode := 1%Z.

Record InfluxDBRetentionPolicy : Type := mkRetentionPolicy {
  RP_Name : string;
  RP_Duration : string
}.

Record InfluxDBAdminUser : Type := mkAdminUser {
  Username : string;
  Password : string
}.

(** The values of the client and server libraries that the store holds
    or passes on without looking into them, each known by a handle: the
    client connection, the server, a parsed URL, the server configuration
    and the build information. *)
Inductive Client : Type := client_handle (n : N).
Inductive Server : Type := server_handle (n : N).
Inductive URL : Type := url_handle (n : N).
Inductive ServerConfig : Type := server_config_handle (n : N).
Inductive BuildInfo : Type := build_info_handle (n : N).

(** The answer of [MetaClient.Authenticate]: the [Admin] flag of the user
    found when the error is [nil], the error [ErrUserNotFound], or another
    error. *)
Inductive authResult : Type :=
  | AuthOk (admin : bool)
  | AuthUserNotFound
  | AuthErr (err : error).

(** What the store asks of the libraries. [parsedURL] is the answer of
    [url.Parse] on the default address of the client library, and
    [client_Query] is [Query] for a command without a database. *)
Variable parsedURL : result URL.
Variable NewClient : URL → string → string → result Client.
Variable client_Query : Client → string → result Response.
Variable Authenticate : Server → string → string → authResult.
Variable CreateUser : Server → string → string → bool → option error.
Variable NewServer : ServerConfig → BuildInfo → result Server.
Variable server_Open : Server → option error.

Record InfluxDBStore : Type := mkInfluxDBStore {
  in_adminUser : InfluxDBAdminUser;
  in_con : option Client;
  in_dbName : string;
  in_defaultRP : InfluxDBRetentionPolicy;
  in_mode : mode;
  in_server : option Server;
  in_tracesPerPage : Z
}.

Record InfluxDBStoreConfig : Type := mkInfluxDBStoreConfig {
  cfg_AdminUser : InfluxDBAdminUser;
  cfg_BuildInfo : BuildInfo;
  cfg_DefaultRP : InfluxDBRetentionPolicy;
  cfg_Mode : mode;
  cfg_Server : ServerConfig
}.

(** The calls made to the server while a method runs, in order. *)
Inductive Call : Type :=
  | Call_Query (con : Client) (command : string)
  | Call_Authenticate (server : Server) (username password : string)
  | Call_CreateUser (server : Server) (username password : string) (admin : bool).

(** A method of [*InfluxDBStore] that returns an error: the store when it
    returns, the calls it made, and its answer. *)
Definition Outcome : Type := InfluxDBStore * list Call * result unit.

Definition andThen (o : Outcome) (k : InfluxDBStore → Outcome) : Outcome :=
  let '(s, calls, r) := o in
  match r with
  | Ok _ => let '(s', calls', r') := k s in (s', calls ++ calls', r')
  | _ => o
  end.

(** [createDBIfNotExists]. *)
Definition createDBIfNotExists (s : InfluxDBStore) : Outcome :=
  let q := "CREATE DATABASE IF NOT EXISTS " +:+ in_dbName s in
  let q :=
    if negb (String.eqb (RP_Duration (in_defaultRP s)) "") then
      let q := q +:+ " WITH DURATION " +:+ RP_Duration (in_defaultRP s) in
      if negb (String.eqb (RP_Name (in_defaultRP s)) "") then
        q +:+ " NAME " +:+ RP_Name (in_defaultRP s)
      else q
    else q in
  match in_con s with
  | None => (s, [], Panic nil_dereference)
  | Some con =>
      (s, [Call_Query con q],
       do response <- client_Query con q;
       match Response_Error response with
       | Some err => Err err
       | None => Ok tt
       end)
  end.

(** [createAdminUserIfNotExists]. The statements after its [if]/[else],
    which both return, are never run. *)
Definition createAdminUserIfNotExists (s : InfluxDBStore) : Outcome :=
  match in_server s with
  | None => (s, [], Panic nil_dereference)
  | Some server =>
      let username := Username (in_adminUser s) in
      let password := Password (in_adminUser s) in
      match Authenticate server username password with
      | AuthUserNotFound =>
          (s, [Call_Authenticate server username password;
               Call_CreateUser server username password true],
           match CreateUser server username password true with
           | Some createUserErr => Err createUserErr
           | None => Ok tt
           end)
      | AuthOk _ => (s, [Call_Authenticate server username password], Ok tt)
      | AuthErr err => (s, [Call_Authenticate server username password], Err err)
      end
  end.

(** [setUpReleaseMode] and [setUpTestMode]. *)
Definition setUpReleaseMode (s : InfluxDBStore) : Outcome :=
  (mkInfluxDBStore (in_adminUser s) (in_con s) releaseDBName (in_defaultRP s)
     (in_mode s) (in_server s) (in_tracesPerPage s), [], Ok tt).

Definition setUpTestMode (s : InfluxDBStore) : Outcome :=
  let s := mkInfluxDBStore (in_adminUser s) (in_con s) testDBName (in_defaultRP s)
             (in_mode s) (in_server s) (in_tracesPerPage s) in
  let q := "DROP DATABASE IF EXISTS " +:+ testDBName in
  match in_con s with
  | None => (s, [], Panic nil_dereference)
  | Some con =>
      (s, [Call_Query con q],
       do response <- client_Query con q;
       match Response_Error response with
       | Some err => Err err
       | None => Ok tt
       end)
  end.

(** [init]. *)
Definition init (s : InfluxDBStore) (server : Server) : Outcome :=
  let s := mkInfluxDBStore (in_adminUser s) (in_con s) (in_dbName s) (in_defaultRP s)
             (in_mode s) (Some server) (in_tracesPerPage s) in
  match parsedURL with
  | Err err => (s, [], Err err)
  | Panic p => (s, [], Panic p)
  | Ok url =>
      match NewClient url (Username (in_adminUser s)) (Password (in_adminUser s)) with
      | Err err => (s, [], Err err)
      | Panic p => (s, [], Panic p)
      | Ok con =>
          let s := mkInfluxDBStore (in_adminUser s) (Some con) (in_dbName s)
                     (in_defaultRP s) (in_mode s) (in_server s) (in_tracesPerPage s) in
          andThen (createAdminUserIfNotExists s) (fun s =>
          andThen (if Z.eqb (in_mode s) testMode then setUpTestMode s
                   else setUpReleaseMode s) (fun s =>
          andThen (createDBIfNotExists s) (fun s =>
          (mkInfluxDBStore (in_adminUser s) (in_con s) (in_dbName s) (in_defaultRP s)
             (in_mode s) (in_server s) defaultTracesPerPage, [], Ok tt))))
      end
  end.

(** [NewInfluxDBStore]: the calls made to the server that it opens, and
    the store returned. *)
Definition NewInfluxDBStore (config : InfluxDBStoreConfig)
    : list Call * result InfluxDBStore :=
  match NewServer (cfg_Server config) (cfg_BuildInfo config) with
  | Err err => ([], Err err)
  | Panic p => ([], Panic p)
  | Ok server =>
      match server_Open server with
      | Some err => ([], Err err)
      | None =>
          let s := mkInfluxDBStore (cfg_AdminUser config) None "" (cfg_DefaultRP config)
                     (cfg_Mode config) None 0%Z in
          let '(s, calls, r) := init s server in
          (calls, match r with
                  | Ok _ => Ok s
                  | Err err => Err err
                  | Panic p => Panic p
                  end)
      end
  end.

(** ** Notions used to state the properties *)

(** The schema names listed by a manifest string, read the way
    [mergeSchemasField] reads it: an empty manifest lists nothing. *)
Definition manifestElems (manifest : string) : list string :=
  if String.eqb manifest "" then [] else Split manifest sepByte.

(** The schema names contributed by a manifest field that is a string or
    absent. *)
Definition fieldElems (field : iface) : list string :=
  match field with
  | IString s => manifestElems s
  | INil | IOther _ => []
  end.

(** A manifest input of [mergeSchemasField] that is a string or [nil]. *)
Definition stringOrNil (field : iface) : Prop :=
  match field with
  | IOther _ => False
  | INil | IString _ => True
  end.

(** The byte [c] occurs in [s]. *)
Fixpoint containsByte (c : ascii) (s : string) : bool :=
  match s with
  | EmptyString => false
  | String d s' => Ascii.eqb d c || containsByte c s'
  end.

(** The annotation carries the schema prefix. *)
Definition hasSchemaPrefix (a : Annotation) : bool :=
  HasPrefix (Key a) schemaPrefix.

(** The key of a schema annotation without its prefix. *)
Definition schemaName (a : Annotation) : string :=
  slice_from (String.length schemaPrefix) (Key a).

(** The schema names of a submission: the stripped keys of its prefixed
    annotations, in order, repetitions included. *)
Definition schemaNames (anns : list Annotation) : list string :=
  schemaName <$> filter (fun a => hasSchemaPrefix a = true) anns.

(** [filterSchemas] lets [a] through, given the manifest annotation. *)
Definition keptBy (manifest a : Annotation) : Prop :=
  hasSchemaPrefix a = true → schemaName a ∈ Split (Value manifest) sepByte.

#[global] Instance keptBy_dec manifest a : Decision (keptBy manifest a).
Proof. unfold keptBy. apply _. Defined.

(** The value submitted for the key [k]: that of the last annotation of
    the submission with this key. *)
Fixpoint submitted (anns : list Annotation) (k : string) : option string :=
  match anns with
  | [] => None
  | a :: anns' =>
      match submitted anns' k with
      | Some v => Some v
      | None => if String.eqb (Key a) k then Some (Value a) else None
      end
  end.

(** What [findSpanPoint] guarantees about the point it decodes: every
    field is a string, and the timestamp is the parsed value of the field
    ["time"] (the zero time when the row has none). *)
Definition decodedPoint (p : Point) : Prop :=
  (∀ k v, Fields p !! k = Some v → ∃ s, v = IString s) ∧
  match Fields p !! "time" with
  | Some (IString s) => time_Parse s = Ok (PTime p)
  | _ => PTime p = 0%Z
  end.

(** The span and parent identifiers of a node. *)
Definition spanID (t : Trace) : ID := id_Span (trace_ID t).
Definition parentID (t : Trace) : ID := id_Parent (trace_ID t).

(** The span identifiers of the nodes of a tree. *)
Fixpoint ids (t : Trace) : list ID :=
  match t with
  | mkTrace sp subs => id_Span (SpanID_of sp) :: (subs ≫= ids)
  end.

(** The parent-child pairs of a tree: the span identifier of a node, with
    the span record of one of its sub-traces. *)
Fixpoint edges (t : Trace) : list (ID * Span) :=
  match t with
  | mkTrace sp subs =>
      ((fun c => (id_Span (SpanID_of sp), trace_Span c)) <$> subs) ++ (subs ≫= edges)
  end.

(** The node at a position. *)
Fixpoint subtree_at (pos : list nat) (t : Trace) : option Trace :=
  match pos with
  | [] => Some t
  | i :: pos' =>
      match Sub t !! i with
      | Some sub => subtree_at pos' sub
      | None => None
      end
  end.

(** [n] is a node of [t]. *)
Inductive isNode (n : Trace) : Trace → Prop :=
  | isNode_here : isNode n n
  | isNode_sub t c : c ∈ Sub t → isNode n c → isNode n t.

(** The loop of [findTraceParent] over [root.Sub], from index [i] on. *)
Definition findTraceParent_Sub (child : Trace)
    : list Trace → nat → option (list nat) :=
  fix range_Sub (subs : list Trace) (i : nat) {struct subs} : option (list nat) :=
    match subs with
    | [] => None
    | sub :: subs' =>
        if N.eqb (id_Span (trace_ID sub)) (id_Parent (trace_ID child))
        then Some [i]
        else match findTraceParent sub child with
             | Some r => Some (i :: r)
             | None => range_Sub subs' (S i)
             end
    end.

(** One iteration of the loop of [addFn], on the tree and the children
    that were kept. *)
Definition attachStep (child : Trace) (st : Trace * list Trace) : Trace * list Trace :=
  match findTraceParent st.1 child with
  | Some t => (appendSub t child st.1, st.2)
  | None => (st.1, child :: st.2)
  end.

(** One call of [addFn]: the children are visited from the last to the
    first. *)
Definition attachPass (root : Trace) (children : list Trace) : Trace * list Trace :=
  foldr attachStep (root, []) children.

(** The children form a tree attachable under [root]: the parent of [c] is
    a node of [root], or a node of another child that is attachable
    itself. For a bare [root] and children without sub-traces, as [Trace]
    and [Traces] build them, the nodes of a trace are the trace alone. *)
Inductive attachable (root : Trace) (children : list Trace) : Trace → Prop :=
  | attachable_root c :
      parentID c ∈ ids root → attachable root children c
  | attachable_child c c' :
      c' ∈ children → attachable root children c' → parentID c ∈ ids c' →
      attachable root children c.

(** [c'] is one of the children and its span identifier is the parent
    identifier of [c]. *)
Definition parentIn (children : list Trace) (c' c : Trace) : Prop :=
  c' ∈ children ∧ spanID c' = parentID c.

(** The children form a valid tree under [root], in the words of the
    specification: the parent of every child is the root or another child,
    and no chain of parents comes back to where it started. *)
Definition validTree (root : Trace) (children : list Trace) : Prop :=
  (∀ c, c ∈ children →
     parentID c = spanID root ∨ ∃ c', c' ∈ children ∧ spanID c' = parentID c) ∧
  (∀ c, c ∈ children → ¬ tc (parentIn children) c c).

(** The parent-child pairs that a child brings once attached: its own pair
    with its parent, and those of its sub-traces. *)
Definition childEdges (c : Trace) : list (ID * Span) :=
  (parentID c, trace_Span c) :: edges c.

(** Every node of the tree [t] under construction is a node of [root] or a
    node of an attachable child. *)
Definition onlyAttachable (root : Trace) (children : list Trace) (t : Trace) : Prop :=
  ∀ x, x ∈ ids t →
    x ∈ ids root ∨ ∃ c, c ∈ children ∧ attachable root children c ∧ x ∈ ids c.

(** The state of [addChildren root children] between two calls of [addFn]:
    the tree [t] built so far and the children [rest] not attached yet. *)
Record assembling (root : Trace) (children : list Trace)
    (t : Trace) (rest : list Trace) : Prop := mkAssembling {
  asm_only : onlyAttachable root children t;
  asm_rest : ∀ c, c ∈ rest → c ∈ children;
  asm_done : ∀ c, c ∈ children →
               c ∈ rest ∨ (attachable root children c ∧ ∀ x, x ∈ ids c → x ∈ ids t);
  asm_root : ∀ x, x ∈ ids root → x ∈ ids t;
  asm_ids : ids t ++ (rest ≫= ids) ≡ₚ ids root ++ (children ≫= ids);
  asm_edges : edges t ++ (rest ≫= childEdges) ≡ₚ edges root ++ (children ≫= childEdges);
  asm_Span : trace_Span t = trace_Span root
}.

(** Two trees are the same up to the order of the sub-traces of each
    node. *)
#[local] Unset Elimination Schemes.
Inductive sameTree : Trace → Trace → Prop :=
  | sameTree_node sp subs1 subs2 subs :
      subs1 ≡ₚ subs → Forall2 sameTree subs subs2 →
      sameTree (mkTrace sp subs1) (mkTrace sp subs2).
#[local] Set Elimination Schemes.

(** The rows of a query result decode into [spans]. *)
Definition decodedRows (rows : list Row) (spans : list Span) : Prop :=
  Forall2 (fun r span => newSpanFromRow r = Ok span) rows spans.

(** The root records (parent equal to the zero identifier) and the other
    records among decoded spans, and the node [&Trace{Span: *span}]. *)
Definition rootSpans (spans : list Span) : list Span :=
  filter (fun span => IsRoot (SpanID_of span) = true) spans.
Definition childSpans (spans : list Span) : list Span :=
  filter (fun span => IsRoot (SpanID_of span) = false) spans.
Definition leaf (span : Span) : Trace := mkTrace span [].

(** The loop of [Trace] over rows that were decoded into [spans]. *)
Fixpoint Trace_spans (st : Trace * bool * list Trace) (spans : list Span)
    : result (Trace * bool * list Trace) :=
  match spans with
  | [] => Ok st
  | span :: spans' =>
      let '(trace, rootSpanSet, children) := st in
      if IsRoot (SpanID_of span) then
        if rootSpanSet then Err errMultipleRootSpans
        else Trace_spans (mkTrace span (Sub trace), true, children) spans'
      else Trace_spans (trace, rootSpanSet, children ++ [mkTrace span []]) spans'
  end.

(** A field value that [withoutEmptyFields] drops: [nil] or the empty
    string. *)
Definition emptyField (v : iface) : bool :=
  match v with
  | INil => true
  | IString s => String.eqb s ""
  | IOther _ => false
  end.

(** The slice [fields] that [annotationsFromRow] ranges over, and the
    annotation value of a field: the string itself, and no bytes for
    [nil]. *)
Definition rowFields (r : Row) : list iface :=
  match Values r with
  | [fields] => fields
  | _ => []
  end.

Definition fieldValue (field : iface) : string :=
  match field with
  | IString s => s
  | _ => ""
  end.

(** The trace identifier and the span identifier of a record, and the
    records of the trace [k] among [spans]. *)
Definition traceOf (span : Span) : ID := id_Trace (SpanID_of span).
Definition spanOf (span : Span) : ID := id_Span (SpanID_of span).
Definition spansOfTrace (k : ID) (spans : list Span) : list Span :=
  filter (fun span => traceOf span = k) spans.

(** The entry of the cache of [Traces] for a root record, and the
    sub-traces collected for it. *)
Definition rootEntry (span : Span) : ID * Trace := (traceOf span, leaf span).
Definition childrenOf (root : Span) (spans : list Span) : list Trace :=
  leaf <$> spansOfTrace (traceOf root) spans.

(** The annotations that [annotationsFromRow] reads off a well-formed
    row: one per field, keyed by the column of the field. *)
Definition rowAnnotations (r : Row) : list Annotation :=
  zip_with mkAnnotation (Columns r) (fieldValue <$> rowFields r).

(** The command of [createDBIfNotExists], case by case. *)
Definition createDBCommand (s : InfluxDBStore) (command : string) : Prop :=
  (RP_Duration (in_defaultRP s) = "" →
   command = "CREATE DATABASE IF NOT EXISTS " +:+ in_dbName s) ∧
  (RP_Duration (in_defaultRP s) ≠ "" → RP_Name (in_defaultRP s) = "" →
   command = ("CREATE DATABASE IF NOT EXISTS " +:+ in_dbName s)
             +:+ " WITH DURATION " +:+ RP_Duration (in_defaultRP s)) ∧
  (RP_Duration (in_defaultRP s) ≠ "" → RP_Name (in_defaultRP s) ≠ "" →
   command = (("CREATE DATABASE IF NOT EXISTS " +:+ in_dbName s)
              +:+ " WITH DURATION " +:+ RP_Duration (in_defaultRP s))
             +:+ " NAME " +:+ RP_Name (in_defaultRP s)).

(** The fields of the store that [init] leaves alone. *)
Definition sameConfig (s s' : InfluxDBStore) : Prop :=
  in_adminUser s' = in_adminUser s ∧ in_defaultRP s' = in_defaultRP s ∧
  in_mode s' = in_mode s.

(** The admin user check of [init] passed: the user was found, or was
    not found and has been created. *)
Definition adminUserReady (server : Server) (user : InfluxDBAdminUser) : Prop :=
  (∃ admin, Authenticate server (Username user) (Password user) = AuthOk admin) ∨
  (Authenticate server (Username user) (Password user) = AuthUserNotFound ∧
   CreateUser server (Username user) (Password user) true = None).

(** ** Sample stores

    Stand-ins for the collaborators, used to run the operations on concrete
    inputs: identifiers and times are written in unary (the identifier of a
    tag is its length), events are the annotations themselves, and a map is
    ranged over in the order of its entries. *)

Definition sampleRange : ∀ A : Type, list A → list A := fun _ l => l.
Definition sampleIDString (id : ID) : string := "id".
Definition sampleParseID (s : string) : result ID := Ok (N.of_nat (String.length s)).
Definition sampleTimeParse (s : string) : result Time := Ok (Z.of_nat (String.length s)).
Definition sampleUnmarshal (a : list Annotation) : result (list Annotation) := Ok a.
Definition sampleMarshal (e : Annotation) : result (list Annotation) := Ok [e].

Definition sampleTags (trace span parent : string) : gmap string string :=
  <["parent_id" := parent]> (<["span_id" := span]> (<["trace_id" := trace]> ∅)).

(** A store without any record. *)
Definition emptyStore (q : Query) : result Response :=
  Ok (mkResponse [mkQueryResult []] None).

(** The stored record of the span (1, 1, 0): a value "v1" under the key
    "k", and the manifest "A". *)
Definition storedRow : Row :=
  mkRow (sampleTags "a" "a" "")
        ["time"; "k"; "schemas"]
        [[IString "2016"; IString "v1"; IString "A"]].

Definition sampleSpanID : SpanID := mkSpanID 1%N 1%N 0%N.

Definition oneSpanStore (q : Query) : result Response :=
  match q with
  | SelectSpanPoint _ => Ok (mkResponse [mkQueryResult [storedRow]] None)
  | _ => Ok (mkResponse [mkQueryResult []] None)
  end.

(** The rows of a trace: a row for the span [span] with parent [parent],
    with an empty manifest. *)
Definition spanRow (span parent : string) : Row :=
  mkRow (sampleTags "a" span parent) ["time"; "schemas"] [[IString "2016"; IString ""]].

Definition spanRecord (span parent : N) : Span :=
  mkSpan (mkSpanID 1%N span parent) [mkAnnotation "time" "2016"; mkAnnotation "schemas" ""].

(** A trace with a root (span 1) and a child (span 2). *)
Definition rootedResult : QueryResult :=
  mkQueryResult [spanRow "aa" "a"; spanRow "a" ""].
Definition rootedStore (q : Query) : result Response :=
  Ok (mkResponse [rootedResult] None).

(** A trace whose only record (span 2) has the parent 1, which is not
    stored. *)
Definition orphanResult : QueryResult := mkQueryResult [spanRow "aa" "a"].
Definition orphanStore (q : Query) : result Response :=
  Ok (mkResponse [orphanResult] None).

(** What [findSpanPoint] decodes from [storedRow]. *)
Definition storedPoint : Point :=
  mkPoint "" ∅
    (<["schemas" := IString "A"]>
       (<["k" := IString "v1"]> (<["time" := IString "2016"]> ∅)))
    4%Z.

(** Decoded annotations of a record whose manifest lists "HTTPClient"
    only. *)
Definition clientAnnotations : list Annotation :=
  [mkAnnotation "schemas" "HTTPClient";
   mkAnnotation "_schema:HTTPClient" "";
   mkAnnotation "_schema:HTTPServer" "";
   mkAnnotation "Server.Request.Method" ""].

(** Nodes of a small tree: 2 and 3 under 1, and 4 under 2. *)
Definition node (span parent : N) : Trace :=
  mkTrace (mkSpan (mkSpanID 1%N span parent) []) [].

(** A stored row without the column "schemas", and a store that answers
    every query with it. *)
Definition bareRow : Row :=
  mkRow (sampleTags "a" "a" "") ["time"; "k"] [[IString "2016"; IString "v1"]].
Definition bareResult : QueryResult := mkQueryResult [bareRow].
Definition bareStore (q : Query) : result Response :=
  Ok (mkResponse [bareResult] None).

(** A store that accepts every write. *)
Definition acceptWrite (bps : BatchPoints) : option error := None.

(** Field maps: a submission and a stored record that share the key "k". *)
Definition submittedFields : pointFields :=
  <["k" := IString "v2"]> (<["n" := IString "v3"]> ∅).
Definition storedFields : pointFields :=
  <["k" := IString "v1"]> (<["e" := IString ""]> (<["z" := INil]> ∅)).

(** The record of the sample span as a [Collect] of the value "v1" under
    the key "k" and of the schema "A" leaves it. *)
Definition collectedRow : Row :=
  mkRow (sampleTags "a" "a" "")
        ["time"; "_schema:A"; "k"; "schemas"]
        [[IString "2016"; IString ""; IString "v1"; IString "A"]].
Definition collectedStore (q : Query) : result Response :=
  match q with
  | SelectSpanPoint _ => Ok (mkResponse [mkQueryResult [collectedRow]] None)
  | _ => Ok (mkResponse [mkQueryResult []] None)
  end.
Definition collectedPoint : Point :=
  mkPoint "" ∅
    (<["schemas" := IString "A"]>
       (<["k" := IString "v1"]>
          (<["_schema:A" := IString ""]> (<["time" := IString "2016"]> ∅))))
    4%Z.

(** A page of two traces: the roots 1 (trace 1) and 3 (trace 2), with the
    children 2 (under 1) and 4 (under 3); and a page whose two root records
    are of the same trace. *)
Definition pageRow (trace span parent : string) : Row :=
  mkRow (sampleTags trace span parent) ["time"; "schemas"] [[IString "2016"; IString ""]].
Definition pageRecord (trace span parent : N) : Span :=
  mkSpan (mkSpanID trace span parent)
         [mkAnnotation "time" "2016"; mkAnnotation "schemas" ""].
Definition pageRoots : QueryResult :=
  mkQueryResult [pageRow "a" "a" ""; pageRow "aa" "aaa" ""].
Definition pageChildren : QueryResult :=
  mkQueryResult [pageRow "a" "aa" "a"; pageRow "aa" "aaaa" "aaa"].
Definition pageStore (q : Query) : result Response :=
  match q with
  | SelectRootSpans _ => Ok (mkResponse [pageRoots] None)
  | SelectChildren _ => Ok (mkResponse [pageChildren] None)
  | _ => Ok (mkResponse [mkQueryResult []] None)
  end.
Definition twinRoots : QueryResult :=
  mkQueryResult [pageRow "a" "a" ""; pageRow "a" "aa" ""].
Definition twinStore (q : Query) : result Response :=
  Ok (mkResponse [twinRoots] None).

(** A server on which the admin user does not exist yet and every call
    succeeds, and a configuration for the test mode with a retention
    policy of one day. *)
Definition sampleServer : Server := server_handle 1.
Definition sampleClient : Client := client_handle 1.
Definition freshAuthenticate (server : Server) (username password : string)
    : authResult := AuthUserNotFound.
Definition grantCreateUser (server : Server) (username password : string) (admin : bool)
    : option error := None.
Definition sampleNewClient (url : URL) (username password : string) : result Client :=
  Ok sampleClient.
Definition sampleClientQuery (con : Client) (command : string) : result Response :=
  Ok (mkResponse [] None).
Definition sampleNewServer (config : ServerConfig) (buildInfo : BuildInfo)
    : result Server := Ok sampleServer.
Definition sampleOpen (server : Server) : option error := None.
Definition testConfig : InfluxDBStoreConfig :=
  mkInfluxDBStoreConfig (mkAdminUser "admin" "secret") (build_info_handle 1)
    (mkRetentionPolicy "one_day" "1d") testMode (server_config_handle 1).
Definition blankStore : InfluxDBStore :=
  mkInfluxDBStore (mkAdminUser "admin" "secret") None ""
    (mkRetentionPolicy "one_day" "") releaseMode None 0%Z.

(** * Properties *)

(** ** Strings *)

Lemma Split_not_nil s c : Split s c ≠ [].
Proof.
  destruct s as [|d s]; simpl; [done|].
  destruct (Ascii.eqb d c); [done|]. by destruct (Split s c).
Qed.

Lemma Split_append s1 s2 c :
  Split (s1 +:+ String c s2) c = Split s1 c ++ Split s2 c.
Proof.
  induction s1 as [|d s1 IH]; simpl.
  - by rewrite Ascii.eqb_refl.
  - destruct (Ascii.eqb d c); [by rewrite IH|].
    rewrite IH. pose proof (Split_not_nil s1 c).
    by destruct (Split s1 c).
Qed.

Lemma Split_no_separator s c : containsByte c s = false → Split s c = [s].
Proof.
  induction s as [|d s IH]; simpl; [done|].
  intros [Hd Hs]%orb_false_iff. rewrite Hd, IH; done.
Qed.

Lemma Join_cons2 x y r sep :
  Join (x :: y :: r) sep = x +:+ sep +:+ Join (y :: r) sep.
Proof. done. Qed.

Lemma Split_Join elems :
  elems ≠ [] →
  Split (Join elems schemasFieldSeparator) sepByte
  = concat ((fun s => Split s sepByte) <$> elems).
Proof.
  induction elems as [|x [|y r] IH]; intros Hne; [done| |].
  - simpl. by rewrite app_nil_r.
  - rewrite Join_cons2. change (schemasFieldSeparator +:+ ?t) with (String sepByte t).
    rewrite Split_append, IH by done. done.
Qed.

Lemma append_eq_empty (s1 s2 : string) : s1 +:+ s2 = "" → s1 = "" ∧ s2 = "".
Proof. destruct s1; simpl; [done|discriminate]. Qed.

Lemma Join_empty elems sep :
  sep ≠ "" → Join elems sep = "" → elems = [] ∨ elems = [""].
Proof.
  intros Hsep. destruct elems as [|x [|y r]]; [by left| |].
  - simpl. intros ->. by right.
  - rewrite Join_cons2. intros H. apply append_eq_empty in H as [_ H].
    apply append_eq_empty in H as [H _]. done.
Qed.

Lemma String_eqb_true (a b : string) : String.eqb a b = true ↔ a = b.
Proof. apply String.eqb_eq. Qed.

Lemma String_eqb_false (a b : string) : String.eqb a b = false ↔ a ≠ b.
Proof. apply String.eqb_neq. Qed.

Lemma Split_separator_free s c :
  Forall (fun x => containsByte c x = false) (Split s c).
Proof.
  induction s as [|d s IH]; simpl; [by constructor|].
  destruct (Ascii.eqb d c) eqn:E; [by constructor|].
  pose proof (Split_not_nil s c). destruct (Split s c) as [|x r]; [done|].
  apply Forall_cons in IH as [Hx Hr]. constructor; [|done]. simpl. by rewrite E, Hx.
Qed.

Lemma manifestElems_separator_free manifest :
  Forall (fun x => containsByte sepByte x = false) (manifestElems manifest).
Proof.
  unfold manifestElems. destruct (String.eqb manifest ""); [constructor|].
  apply Split_separator_free.
Qed.

(** Reading back a manifest joined from separator-free names gives the
    names, unless the only name is the empty one (the manifest is then the
    empty string, which lists nothing). *)
Lemma manifestElems_Join_all elems :
  Forall (fun x => containsByte sepByte x = false) elems →
  elems ≠ [""] →
  manifestElems (Join elems schemasFieldSeparator) = elems.
Proof.
  intros Hfree Hne. unfold manifestElems.
  destruct (String.eqb _ "") eqn:He.
  - apply String_eqb_true, Join_empty in He as [He|He]; done.
  - assert (elems ≠ []) as Hnil by (by intros ->).
    rewrite Split_Join by done. clear He Hne Hnil.
    induction Hfree as [|x elems Hx _ IH]; [done|].
    rewrite fmap_cons. simpl. by rewrite Split_no_separator, IH.
Qed.

(** A separator-free, non-empty name that was joined into a manifest is
    listed by that manifest. *)
Lemma manifestElems_Join elems n :
  n ∈ elems → n ≠ "" → containsByte sepByte n = false →
  n ∈ manifestElems (Join elems schemasFieldSeparator).
Proof.
  intros Hin Hn Hsep. unfold manifestElems.
  destruct (String.eqb _ "") eqn:He.
  - apply String_eqb_true, Join_empty in He as [He|He]; [| |done]; subst elems.
    + by apply elem_of_nil in Hin.
    + by apply list_elem_of_singleton in Hin.
  - rewrite Split_Join by (by intros ->; apply elem_of_nil in Hin).
    apply list_elem_of_In, in_concat. exists [n]. split; [|by left].
    apply list_elem_of_In, list_elem_of_fmap. exists n. by rewrite Split_no_separator.
Qed.

(** ** Schema tracker *)

Lemma schemaExists_elem_of schema schemas :
  schemaExists schema schemas = true ↔ schema ∈ schemas.
Proof.
  induction schemas as [|s schemas IH]; simpl.
  - split; [done|]. by intros ?%elem_of_nil.
  - rewrite elem_of_cons. destruct (String.eqb schema s) eqn:E.
    + apply String_eqb_true in E. split; [by left|done].
    + apply String_eqb_false in E. rewrite IH. split; [by right|by intros [?|?]].
Qed.

Lemma schemasFromAnnotations_loop anns (schemas : list string) :
  foldl (fun schemas ann =>
           if HasPrefix (Key ann) schemaPrefix
           then schemas ++ [slice_from (String.length schemaPrefix) (Key ann)]
           else schemas) schemas anns
  = schemas ++ schemaNames anns.
Proof.
  revert schemas. induction anns as [|a anns IH]; intros schemas; simpl.
  - by rewrite app_nil_r.
  - rewrite IH. unfold schemaNames. rewrite filter_cons.
    case_decide as Hd; unfold hasSchemaPrefix in Hd.
    + rewrite Hd. by rewrite <- app_assoc.
    + destruct (HasPrefix (Key a) schemaPrefix); done.
Qed.

Lemma schemasFromAnnotations_Join anns :
  schemasFromAnnotations anns = Join (schemaNames anns) schemasFieldSeparator.
Proof. unfold schemasFromAnnotations. by rewrite schemasFromAnnotations_loop. Qed.

Lemma findSchemasAnnotation_Some anns m :
  findSchemasAnnotation anns = Some m → m ∈ anns ∧ Key m = schemasFieldName.
Proof.
  induction anns as [|a anns IH]; simpl; [done|].
  destruct (String.eqb (Key a) schemasFieldName) eqn:E.
  - intros [= <-]. apply String_eqb_true in E. split; [by left|done].
  - intros [? ?]%IH. split; [by right|done].
Qed.

Lemma findSchemasAnnotation_None anns :
  findSchemasAnnotation anns = None ↔ ∀ a, a ∈ anns → Key a ≠ schemasFieldName.
Proof.
  induction anns as [|a anns IH]; simpl.
  - split; [|done]. by intros _ a ?%elem_of_nil.
  - destruct (String.eqb (Key a) schemasFieldName) eqn:E.
    + apply String_eqb_true in E. split; [done|]. intros H.
      destruct (H a); [by left|done].
    + apply String_eqb_false in E. rewrite IH. split.
      * intros H b [->|?]%elem_of_cons; auto.
      * intros H b ?. apply H. by right.
Qed.

Lemma filterSchemas_loop manifest anns (annotations : list Annotation) :
  foldl (fun annotations a =>
           if HasPrefix (Key a) schemaPrefix then
             let schema := slice_from (String.length schemaPrefix) (Key a) in
             if schemaExists schema (Split (Value manifest) sepByte)
             then annotations ++ [a]
             else annotations
           else annotations ++ [a]) annotations anns
  = annotations ++ filter (keptBy manifest) anns.
Proof.
  revert annotations. induction anns as [|a anns IH]; intros annotations; simpl.
  - by rewrite app_nil_r.
  - rewrite IH, filter_cons.
    case_decide as Hd; unfold keptBy, hasSchemaPrefix, schemaName in Hd.
    + destruct (HasPrefix (Key a) schemaPrefix); [|by rewrite <- app_assoc].
      rewrite (proj2 (schemaExists_elem_of _ _) (Hd eq_refl)).
      by rewrite <- app_assoc.
    + destruct (HasPrefix (Key a) schemaPrefix); [|by destruct Hd].
      destruct (schemaExists _ _) eqn:Ex; [|done].
      apply schemaExists_elem_of in Ex. by destruct Hd.
Qed.

(** C8. When the decoded annotations contain a manifest annotation (key
    ["schemas"]), [filterSchemas] returns, in their order, exactly the
    annotations that either do not carry the schema prefix, or carry it and
    have their stripped key among the separator-split elements of the value
    of the (first) manifest annotation. *)
Theorem filterSchemas_keeps_listed_schemas (anns : list Annotation) :
  (∃ a, a ∈ anns ∧ Key a = schemasFieldName) →
  ∃ manifest,
    findSchemasAnnotation anns = Some manifest ∧
    manifest ∈ anns ∧ Key manifest = schemasFieldName ∧
    filterSchemas anns = Ok (filter (keptBy manifest) anns) ∧
    ∀ a, a ∈ anns →
      (hasSchemaPrefix a = false → a ∈ filter (keptBy manifest) anns) ∧
      (hasSchemaPrefix a = true →
         (a ∈ filter (keptBy manifest) anns ↔
          schemaName a ∈ Split (Value manifest) sepByte)).
Proof.
  intros (a0 & Hin0 & Hkey0).
  destruct (findSchemasAnnotation anns) as [manifest|] eqn:Hfind.
  2: { rewrite findSchemasAnnotation_None in Hfind. by destruct (Hfind a0). }
  exists manifest. destruct (findSchemasAnnotation_Some _ _ Hfind) as [Hin Hkey].
  split_and!; try done.
  - unfold filterSchemas. rewrite Hfind. f_equal. apply filterSchemas_loop.
  - intros a Ha. split.
    + intros Hp. apply list_elem_of_filter. split; [|done].
      intros ?. congruence.
    + intros Hp. rewrite list_elem_of_filter. unfold keptBy.
      split; [intros [Hkept _]; by apply Hkept|by intros ?].
Qed.

(** C9. [filterSchemas] panics on a nil-pointer dereference exactly when no
    annotation of its input has the key ["schemas"] (the empty input
    included), and returns normally exactly when one has. *)
Theorem filterSchemas_panics_without_manifest (anns : list Annotation) :
  (filterSchemas anns = Panic nil_dereference ↔
     ∀ a, a ∈ anns → Key a ≠ schemasFieldName) ∧
  ((∃ kept, filterSchemas anns = Ok kept) ↔
     ∃ a, a ∈ anns ∧ Key a = schemasFieldName).
Proof.
  unfold filterSchemas.
  destruct (findSchemasAnnotation anns) as [manifest|] eqn:Hfind.
  - destruct (findSchemasAnnotation_Some _ _ Hfind) as [Hin Hkey]. split.
    + split; [done|]. intros H. by destruct (H manifest).
    + split; [eauto|]. eauto.
  - pose proof (proj1 (findSchemasAnnotation_None _) Hfind) as Hnone. split.
    + done.
    + split; [by intros [? ?]|]. intros (a & ? & ?). by destruct (Hnone a).
Qed.

(** The inner loops of [mergeSchemasField]: the keys of the cache are those
    it had, and the names added. *)
Lemma mergeSchemas_add_names (names : list string) (schemas : gmap string string) k :
  is_Some (foldl (fun (schemas : gmap string string) s =>
                    match schemas !! s with
                    | Some _ => schemas
                    | None => <[s := s]> schemas
                    end) schemas names !! k)
  ↔ is_Some (schemas !! k) ∨ k ∈ names.
Proof.
  revert schemas. induction names as [|n names IH]; intros schemas; simpl.
  - rewrite elem_of_nil. split; [by left|by intros [?|[]]].
  - rewrite IH, elem_of_cons. destruct (schemas !! n) eqn:E.
    + split; [intros [?|?]; auto|]. intros [?|[->|?]]; eauto.
    + rewrite lookup_insert_is_Some. split.
      * intros [[?|[_ ?]]|?]; [right; by left|by left|right; by right].
      * intros [?|[?|?]]; [|left; by left|by right].
        destruct (decide (n = k)); [left; by left|left; by right].
Qed.

Lemma mergeSchemas_add_fields (strFields : list string) (schemas : gmap string string) k :
  is_Some (foldl (fun (schemas : gmap string string) strField =>
                    if String.eqb strField "" then schemas
                    else foldl (fun (schemas : gmap string string) s =>
                                  match schemas !! s with
                                  | Some _ => schemas
                                  | None => <[s := s]> schemas
                                  end) schemas (Split strField sepByte))
                 schemas strFields !! k)
  ↔ is_Some (schemas !! k) ∨ ∃ f, f ∈ strFields ∧ k ∈ manifestElems f.
Proof.
  revert schemas. induction strFields as [|f fs IH]; intros schemas; simpl.
  - split; [by left|]. intros [?|(f & ?%elem_of_nil & _)]; done.
  - rewrite IH. unfold manifestElems at 2.
    destruct (String.eqb f "") eqn:E.
    + split.
      * intros [?|(g & ? & ?)]; [by left|]. right. exists g. split; [by right|done].
      * intros [?|(g & [->|?]%elem_of_cons & Hg)]; [by left| |right; eauto].
        unfold manifestElems in Hg. rewrite E in Hg. by apply elem_of_nil in Hg.
    + rewrite mergeSchemas_add_names. split.
      * intros [[?|?]|(g & ? & ?)]; [by left| |].
        -- right. exists f. split; [by left|]. unfold manifestElems. by rewrite E.
        -- right. exists g. split; [by right|done].
      * intros [?|(g & [->|?]%elem_of_cons & Hg)]; [by left;left| |right; eauto].
        unfold manifestElems in Hg. rewrite E in Hg. by left; right.
Qed.

Lemma elem_of_range_keys {V} (m : gmap string V) k :
  k ∈ (range_order _ (map_to_list m)).*1 ↔ is_Some (m !! k).
Proof using range_order_perm.
  rewrite range_order_perm, list_elem_of_fmap. split.
  - intros ([k' v] & -> & Hin). apply elem_of_map_to_list in Hin. eauto.
  - intros [v Hv]. exists (k, v). split; [done|]. by apply elem_of_map_to_list.
Qed.

Lemma NoDup_range_keys {V} (m : gmap string V) :
  NoDup (range_order _ (map_to_list m)).*1.
Proof using range_order_perm. rewrite range_order_perm. apply NoDup_fst_map_to_list. Qed.

(** [mergeSchemasField] on two inputs that are strings or absent: the
    names joined are, without repetition, those of the two manifests. *)
Lemma mergeSchemasField_names (new old : iface) :
  stringOrNil new → stringOrNil old →
  ∃ names,
    mergeSchemasField new old = Ok (Join names schemasFieldSeparator) ∧
    NoDup names ∧
    ∀ s, s ∈ names ↔ s ∈ fieldElems new ∨ s ∈ fieldElems old.
Proof using range_order_perm.
  intros Hnew Hold. unfold mergeSchemasField.
  destruct new as [|n|]; [| |done]; destruct old as [|o|]; [| |done| | |done]; simpl;
    (eexists; split; [reflexivity|]; split; [apply NoDup_range_keys|]);
    intros s; rewrite elem_of_range_keys;
    [ pose proof (mergeSchemas_add_fields [] ∅ s) as H
    | pose proof (mergeSchemas_add_fields [o] ∅ s) as H
    | pose proof (mergeSchemas_add_fields [n] ∅ s) as H
    | pose proof (mergeSchemas_add_fields [n; o] ∅ s) as H ];
    simpl in H; rewrite H, lookup_empty; clear H; split.
  all: try (intros [[? [=]]|(f & Hf & Hs)]).
  all: try (intros [Hs|Hs]).
  all: repeat match goal with
         | H : _ ∈ [] |- _ => by apply elem_of_nil in H
         | H : _ ∈ _ :: _ |- _ => apply elem_of_cons in H as [->|H]
         end.
  all: try (by left); try (by right).
  all: right; eexists; (split; [|exact Hs]); repeat constructor.
Qed.

(** The manifest returned lists the names joined when it is read back. *)
Lemma mergeSchemasField_union (new old : iface) :
  stringOrNil new → stringOrNil old →
  ∃ names,
    mergeSchemasField new old = Ok (Join names schemasFieldSeparator) ∧
    NoDup names ∧
    (∀ s, s ∈ names ↔ s ∈ fieldElems new ∨ s ∈ fieldElems old) ∧
    (names ≠ [""] → manifestElems (Join names schemasFieldSeparator) = names).
Proof using range_order_perm.
  intros Hnew Hold.
  destruct (mergeSchemasField_names new old Hnew Hold) as (names & Hmerge & Hnd & Hnames).
  exists names. split_and!; [done..|].
  apply manifestElems_Join_all. apply Forall_forall. intros s Hs.
  assert (∀ f, s ∈ fieldElems f → containsByte sepByte s = false) as Hfree.
  { intros [|m|] Hm; [by apply elem_of_nil in Hm| |by apply elem_of_nil in Hm].
    pose proof (manifestElems_separator_free m) as HF.
    rewrite Forall_forall in HF. by apply HF. }
  apply Hnames in Hs as [Hs|Hs]; eauto.
Qed.

(** ** Upsert merger *)

Lemma withoutEmptyFields_loop (l : list (string * iface)) (r : pointFields) k :
  NoDup l.*1 →
  foldl (fun (r : pointFields) (kv : string * iface) =>
           let '(k, v) := kv in
           match v with
           | IString s => if String.eqb s "" then r else <[k := v]> r
           | INil => r
           | IOther _ => <[k := v]> r
           end) r l !! k
  = match (list_to_map l : pointFields) !! k with
    | Some (IString s) => if String.eqb s "" then r !! k else Some (IString s)
    | Some (IOther ty) => Some (IOther ty)
    | Some INil | None => r !! k
    end.
Proof.
  revert r. induction l as [|[k0 v0] l IH]; intros r Hnd; simpl.
  - by rewrite lookup_empty.
  - apply NoDup_cons in Hnd as [Hk0 Hnd]. rewrite IH by done.
    destruct (decide (k0 = k)) as [->|Hne].
    + rewrite lookup_insert_eq.
      rewrite (not_elem_of_list_to_map_1 l k) by done.
      destruct v0 as [|s|ty]; [done| |by rewrite lookup_insert_eq].
      destruct (String.eqb s ""); [done|by rewrite lookup_insert_eq].
    + rewrite lookup_insert_ne by done.
      assert (∀ v, (<[k0:=v]> r : pointFields) !! k = r !! k) as Hr
        by (intros; by rewrite lookup_insert_ne).
      destruct v0 as [|s|ty]; [done| |by rewrite Hr].
      destruct (String.eqb s ""); [done|by rewrite Hr].
Qed.

Lemma range_list_to_map {V} (m : gmap string V) :
  list_to_map (range_order _ (map_to_list m)) = m.
Proof using range_order_perm.
  rewrite <- (list_to_map_to_list m) at 2.
  apply list_to_map_proper; [apply NoDup_range_keys|apply range_order_perm].
Qed.

(** [withoutEmptyFields] keeps the entries that are neither [nil] nor the
    empty string. *)
Lemma withoutEmptyFields_lookup (pf : pointFields) k :
  withoutEmptyFields pf !! k
  = match pf !! k with
    | Some (IString s) => if String.eqb s "" then None else Some (IString s)
    | Some (IOther ty) => Some (IOther ty)
    | Some INil | None => None
    end.
Proof using range_order_perm.
  unfold withoutEmptyFields.
  rewrite withoutEmptyFields_loop by apply NoDup_range_keys.
  rewrite range_list_to_map, lookup_empty. done.
Qed.

Lemma extendFields_loop (l : list (string * iface)) (dst : pointFields) k :
  NoDup l.*1 →
  foldl (fun (dst : pointFields) (kv : string * iface) =>
           let '(k, v) := kv in
           match dst !! k with
           | Some _ => <[k := v]> dst
           | None => dst
           end) dst l !! k
  = match dst !! k with
    | Some v => Some (default v ((list_to_map l : pointFields) !! k))
    | None => None
    end.
Proof.
  revert dst. induction l as [|[k0 v0] l IH]; intros dst Hnd; simpl.
  - rewrite lookup_empty. by destruct (dst !! k).
  - apply NoDup_cons in Hnd as [Hk0 Hnd]. rewrite IH by done.
    destruct (decide (k0 = k)) as [->|Hne].
    + rewrite lookup_insert_eq.
      rewrite (not_elem_of_list_to_map_1 l k) by done.
      destruct (dst !! k) eqn:E; [by rewrite lookup_insert_eq|by rewrite E].
    + rewrite (lookup_insert_ne _ k0 k) by done.
      destruct (dst !! k0); [by rewrite lookup_insert_ne|done].
Qed.

(** [extendFields] replaces the value of every key of [dst] that [src] has,
    and adds no key. *)
Lemma extendFields_lookup (dst src : pointFields) k :
  extendFields dst src !! k
  = match dst !! k with
    | Some v => Some (default v (src !! k))
    | None => None
    end.
Proof using range_order_perm.
  unfold extendFields. rewrite extendFields_loop by apply NoDup_range_keys.
  by rewrite range_list_to_map.
Qed.

Lemma Collect_fields_lookup anns (fields : pointFields) k :
  foldl (fun (fields : pointFields) ann =>
           <[Key ann := IString (Value ann)]> fields) fields anns !! k
  = match submitted anns k with
    | Some v => Some (IString v)
    | None => fields !! k
    end.
Proof.
  revert fields. induction anns as [|a anns IH]; intros fields; simpl; [done|].
  rewrite IH. destruct (submitted anns k); [done|].
  destruct (String.eqb (Key a) k) eqn:E.
  - apply String_eqb_true in E as <-. by rewrite lookup_insert_eq.
  - apply String_eqb_false in E. by rewrite lookup_insert_ne.
Qed.

Lemma bind_Ok {A B} (r : result A) (k : A → result B) v :
  bind r k = Ok v → ∃ a, r = Ok a ∧ k a = Ok v.
Proof. destruct r; simpl; [eauto|done|done]. Qed.

Lemma findSpanPoint_fields_decoded columns fields i p p' :
  decodedPoint p →
  findSpanPoint_fields columns i fields p = Ok p' →
  decodedPoint p'.
Proof.
  revert i p. induction fields as [|field fields IH]; intros i p Hp; simpl.
  - by intros [= <-].
  - destruct (columns !! i) as [key|]; [|done].
    destruct field as [|s|ty]; [by apply IH| |done].
    intros (q & Hq & Hrest)%bind_Ok. apply IH in Hrest; [done|].
    destruct Hp as [Hstr Htime]. split; simpl.
    + intros k v. rewrite lookup_insert. case_decide; [intros [= <-]; eauto|].
      destruct (String.eqb key "time"); [|injection Hq as <-; by apply Hstr].
      apply bind_Ok in Hq as (t & _ & [= <-]). by apply Hstr.
    + destruct (String.eqb key "time") eqn:E.
      * apply String_eqb_true in E as ->. rewrite lookup_insert_eq.
        apply bind_Ok in Hq as (t & Ht & [= <-]). done.
      * apply String_eqb_false in E. rewrite lookup_insert_ne by done.
        by injection Hq as <-.
Qed.

Lemma findSpanPoint_decoded id p :
  findSpanPoint id = Ok (Some p) → decodedPoint p.
Proof.
  unfold findSpanPoint. intros (result & _ & H)%bind_Ok.
  destruct (Series result) as [|r [|? ?]]; [done| |done].
  destruct (Values r) as [|fields ?]; [done|].
  apply bind_Ok in H as (q & Hq & [= <-]).
  eapply findSpanPoint_fields_decoded; [|exact Hq].
  split; simpl; [by intros k v; rewrite lookup_empty|by rewrite lookup_empty].
Qed.

Lemma decodedPoint_manifest p :
  decodedPoint p → stringOrNil (index_fields (Fields p) schemasFieldName).
Proof.
  intros [Hstr _]. unfold index_fields.
  destruct (Fields p !! schemasFieldName) as [v|] eqn:E; [|done].
  by destruct (Hstr _ _ E) as [s ->].
Qed.

(** The point written by a [Collect] that finds an existing record. *)
Lemma Collect_point_existing id anns now p :
  findSpanPoint id = Ok (Some p) →
  ∃ pt names,
    Collect_point id anns now = Ok pt ∧
    PTime pt = PTime p ∧
    mergeSchemasField (IString (schemasFromAnnotations anns))
      (index_fields (Fields p) schemasFieldName)
    = Ok (Join names schemasFieldSeparator) ∧
    Fields pt !! schemasFieldName = Some (IString (Join names schemasFieldSeparator)) ∧
    NoDup names ∧
    (∀ s, s ∈ names ↔
          s ∈ manifestElems (schemasFromAnnotations anns) ∨
          s ∈ fieldElems (index_fields (Fields p) schemasFieldName)) ∧
    (names ≠ [""] → manifestElems (Join names schemasFieldSeparator) = names) ∧
    ∀ k, k ≠ schemasFieldName →
      Fields pt !! k
      = match submitted anns k with
        | Some new =>
            Some (default (IString new) (withoutEmptyFields (Fields p) !! k))
        | None => None
        end.
Proof using range_order_perm.
  intros Hfind. pose proof (findSpanPoint_decoded _ _ Hfind) as Hdec.
  destruct (mergeSchemasField_union (IString (schemasFromAnnotations anns))
              (index_fields (Fields p) schemasFieldName))
    as (names & Hmerge & Hnd & Hnames & Hread); [done|by apply decodedPoint_manifest|].
  unfold Collect_point. rewrite Hfind. simpl. rewrite Hmerge. simpl.
  eexists _, names. split; [reflexivity|]. simpl.
  split_and!; try done.
  - by rewrite lookup_insert_eq.
  - intros k Hk. rewrite lookup_insert_ne by done.
    rewrite extendFields_lookup, Collect_fields_lookup, lookup_empty.
    by destruct (submitted anns k).
Qed.

(** C1 (amended). When [Collect] finds an existing record [p] for the
    span, the point it writes has, for every key [k] other than the manifest
    key ["schemas"]: the stored value when [k] is submitted and stored with
    a non-empty value; the (last) submitted value when [k] is submitted and
    is not stored, or is stored empty; and no field when [k] is not
    submitted (stored values are always strings, so the cases are all
    there are). The key ["schemas"] is always written, with the merged
    manifest and not with the stored or the submitted value. *)
Theorem Collect_rewrite_old_value_wins id anns now p :
  findSpanPoint id = Ok (Some p) →
  ∃ pt merged,
    Collect_point id anns now = Ok pt ∧
    mergeSchemasField (IString (schemasFromAnnotations anns))
      (index_fields (Fields p) schemasFieldName) = Ok merged ∧
    Fields pt !! schemasFieldName = Some (IString merged) ∧
    ∀ k, k ≠ schemasFieldName →
      (∀ new old, submitted anns k = Some new →
                  Fields p !! k = Some (IString old) → old ≠ "" →
                  Fields pt !! k = Some (IString old)) ∧
      (∀ new, submitted anns k = Some new →
              Fields p !! k = None ∨ Fields p !! k = Some (IString "") →
              Fields pt !! k = Some (IString new)) ∧
      (submitted anns k = None → Fields pt !! k = None) ∧
      (∀ v, Fields p !! k = Some v → ∃ old, v = IString old).
Proof using range_order_perm.
  intros Hfind.
  destruct (Collect_point_existing id anns now p Hfind)
    as (pt & names & Hpt & _ & Hmerge & Hschemas & _ & _ & _ & Hfields).
  exists pt, (Join names schemasFieldSeparator). split_and!; try done.
  intros k Hk. rewrite (Hfields k Hk), withoutEmptyFields_lookup. split_and!.
  - intros new old -> -> Hold. apply String_eqb_false in Hold. by rewrite Hold.
  - by intros new -> [-> | ->].
  - by intros ->.
  - apply (proj1 (findSpanPoint_decoded _ _ Hfind)).
Qed.

(** C3. On two inputs that are each a string or absent, [mergeSchemasField]
    returns the separator-join of a list of names without repetition whose
    elements are exactly the separator-split elements of the two inputs, an
    absent or empty input contributing none; splitting the string returned
    gives these names back (unless the only name is the empty one, whose
    join is the empty manifest). Consequently the manifest written by a
    [Collect] that finds an existing record lists every name of the stored
    manifest and every name of the submission's manifest, in particular
    every non-empty, separator-free schema name submitted. *)
Theorem mergeSchemasField_accumulates :
  (∀ new old, stringOrNil new → stringOrNil old →
     ∃ names,
       mergeSchemasField new old = Ok (Join names schemasFieldSeparator) ∧
       NoDup names ∧
       (∀ s, s ∈ names ↔ s ∈ fieldElems new ∨ s ∈ fieldElems old) ∧
       (names ≠ [""] → manifestElems (Join names schemasFieldSeparator) = names)) ∧
  (∀ id anns now p, findSpanPoint id = Ok (Some p) →
     ∃ pt names,
       Collect_point id anns now = Ok pt ∧
       Fields pt !! schemasFieldName = Some (IString (Join names schemasFieldSeparator)) ∧
       NoDup names ∧
       (names ≠ [""] → manifestElems (Join names schemasFieldSeparator) = names) ∧
       (∀ s, s ∈ fieldElems (index_fields (Fields p) schemasFieldName) → s ∈ names) ∧
       (∀ s, s ∈ manifestElems (schemasFromAnnotations anns) → s ∈ names) ∧
       (∀ a, a ∈ anns → hasSchemaPrefix a = true →
             schemaName a ≠ "" → containsByte sepByte (schemaName a) = false →
             schemaName a ∈ names)).
Proof using range_order_perm.
  split; [apply mergeSchemasField_union|].
  intros id anns now p Hfind.
  destruct (Collect_point_existing id anns now p Hfind)
    as (pt & names & Hpt & _ & _ & Hschemas & Hnd & Hnames & Hread & _).
  exists pt, names. split_and!; try done.
  - intros s ?. apply Hnames. by right.
  - intros s ?. apply Hnames. by left.
  - intros a Ha Hprefix Hne Hsep. apply Hnames. left.
    rewrite schemasFromAnnotations_Join. apply manifestElems_Join; [|done..].
    unfold schemaNames. apply list_elem_of_fmap. exists a. split; [done|].
    by apply list_elem_of_filter.
Qed.

(** C6 (amended). When [Collect] finds no record for the span, the manifest
    field it writes is the separator-join of the prefix-stripped keys of the
    submitted annotations that carry the schema prefix, in submission order
    and one per such annotation: repeated keys are repeated in the
    manifest. *)
Theorem Collect_fresh_manifest_raw id anns now :
  findSpanPoint id = Ok None →
  ∃ pt,
    Collect_point id anns now = Ok pt ∧
    Fields pt !! schemasFieldName
    = Some (IString (Join (schemaNames anns) schemasFieldSeparator)) ∧
    schemaNames anns = schemaName <$> filter (fun a => hasSchemaPrefix a = true) anns ∧
    length (schemaNames anns)
    = length (filter (fun a => hasSchemaPrefix a = true) anns).
Proof.
  intros Hfind. unfold Collect_point. rewrite Hfind. simpl.
  eexists. split; [reflexivity|]. simpl. split_and!.
  - by rewrite lookup_insert_eq, schemasFromAnnotations_Join.
  - done.
  - unfold schemaNames. by rewrite length_fmap.
Qed.

(** C7 (amended). When [Collect] finds an existing record [p] for the span,
    the point it writes carries the timestamp decoded from that record (the
    parsed value of its ["time"] field, the zero time if it has none),
    whatever the current time of the call. *)
Theorem Collect_rewrite_keeps_stored_time id anns now p :
  findSpanPoint id = Ok (Some p) →
  (∃ pt, Collect_point id anns now = Ok pt ∧ PTime pt = PTime p) ∧
  (∀ now', Collect_point id anns now' = Collect_point id anns now) ∧
  match Fields p !! "time" with
  | Some (IString s) => time_Parse s = Ok (PTime p)
  | _ => PTime p = 0%Z
  end.
Proof using range_order_perm.
  intros Hfind. split_and!.
  - destruct (Collect_point_existing id anns now p Hfind) as (pt & ? & ? & ? & _).
    eauto.
  - intros now'. unfold Collect_point. by rewrite Hfind.
  - by destruct (findSpanPoint_decoded _ _ Hfind) as [_ ?].
Qed.

(** ** Trace tree assembler *)

(** Induction on a tree, with the property available for the sub-traces. *)
Lemma Trace_subs_ind (P : Trace → Prop) :
  (∀ sp subs, Forall P subs → P (mkTrace sp subs)) → ∀ t, P t.
Proof.
  intros Hnode. fix IH 1. intros [sp subs]. apply Hnode.
  induction subs as [|sub subs IHsubs]; constructor; [apply IH|apply IHsubs].
Qed.

Lemma findTraceParent_unfold sp subs child :
  findTraceParent (mkTrace sp subs) child
  = if N.eqb (id_Span (SpanID_of sp)) (parentID child) then Some []
    else findTraceParent_Sub child subs 0.
Proof. reflexivity. Qed.

Lemma ids_head t : spanID t ∈ ids t.
Proof. destruct t. by left. Qed.

(** [findTraceParent] fails exactly when no node of the tree has the span
    identifier that the child names as its parent. *)
Lemma findTraceParent_None t child :
  findTraceParent t child = None ↔ parentID child ∉ ids t.
Proof.
  induction t as [sp subs IH] using Trace_subs_ind.
  rewrite findTraceParent_unfold. simpl ids. rewrite not_elem_of_cons.
  destruct (N.eqb_spec (id_Span (SpanID_of sp)) (parentID child)) as [Heq|Hne].
  { split; [done|]. by intros [? _]. }
  assert (∀ i, findTraceParent_Sub child subs i = None
               ↔ parentID child ∉ subs ≫= ids) as Hsubs.
  { induction subs as [|sub subs IHsubs]; intros i.
    - split; [|done]. by intros _ ?%elem_of_nil.
    - apply Forall_cons in IH as [IHsub IH]. rewrite bind_cons, not_elem_of_app.
      simpl (findTraceParent_Sub _ _ _).
      destruct (N.eqb_spec (id_Span (trace_ID sub)) (id_Parent (trace_ID child)))
        as [Heq|Hne'].
      + split; [done|]. intros [Hsub _]. destruct Hsub.
        unfold parentID. rewrite <- Heq. apply ids_head.
      + destruct (findTraceParent sub child) eqn:E.
        * split; [done|]. intros [Hsub _]. by apply IHsub in Hsub.
        * rewrite (IHsubs IH). pose proof (proj1 IHsub eq_refl).
          split; [by split|by intros [_ ?]]. }
  rewrite Hsubs. split; [intros ?; split; [congruence|done]|by intros [_ ?]].
Qed.

(** The position returned by [findTraceParent] is that of a node whose span
    identifier is the parent identifier of the child. *)
Lemma findTraceParent_Some t child pos :
  findTraceParent t child = Some pos →
  ∃ n, subtree_at pos t = Some n ∧ spanID n = parentID child.
Proof.
  revert pos. induction t as [sp subs IH] using Trace_subs_ind. intros pos.
  rewrite findTraceParent_unfold.
  destruct (N.eqb_spec (id_Span (SpanID_of sp)) (parentID child)) as [Heq|Hne].
  { intros [= <-]. by eexists. }
  assert (∀ i pos, findTraceParent_Sub child subs i = Some pos →
            ∃ j pos' n, pos = (i + j)%nat :: pos' ∧ subs !! j = Some n ∧
                        ∃ m, subtree_at pos' n = Some m ∧ spanID m = parentID child)
    as Hsubs.
  { clear pos. induction subs as [|sub subs IHsubs]; intros i pos; simpl; [done|].
    apply Forall_cons in IH as [IHsub IH].
    destruct (N.eqb_spec (id_Span (trace_ID sub)) (id_Parent (trace_ID child)))
      as [Heq|Hne'].
    - intros [= <-]. exists 0%nat, [], sub. rewrite Nat.add_0_r. eauto.
    - destruct (findTraceParent sub child) as [r|] eqn:E.
      + intros [= <-]. exists 0%nat, r, sub. rewrite Nat.add_0_r. eauto.
      + intros (j & pos' & n & -> & Hj & Hm)%(IHsubs IH).
        exists (S j), pos', n. split; [f_equal; lia|]. done. }
  intros (j & pos' & n & -> & Hj & m & Hm & Hid)%Hsubs.
  exists m. simpl. by rewrite Hj.
Qed.

Lemma appendSub_Span pos child t :
  trace_Span (appendSub pos child t) = trace_Span t.
Proof. destruct t, pos; done. Qed.

Lemma alter_middle {A} (f : A → A) (l : list A) i x :
  l !! i = Some x →
  ∃ l1 l2, l = l1 ++ x :: l2 ∧ alter f i l = l1 ++ f x :: l2.
Proof.
  revert i. induction l as [|y l IH]; intros [|i] Hi; simplify_eq/=.
  - by exists [], l.
  - destruct (IH _ Hi) as (l1 & l2 & -> & ->). by exists (y :: l1), l2.
Qed.

(** Appending a child under a node adds the nodes of the child to the
    tree. *)
Lemma appendSub_ids pos child t n :
  subtree_at pos t = Some n →
  ids (appendSub pos child t) ≡ₚ ids t ++ ids child.
Proof.
  revert t. induction pos as [|i pos IH]; intros [sp subs] Hn; simpl.
  - by rewrite bind_app, bind_singleton.
  - simpl in Hn. destruct (subs !! i) as [sub|] eqn:Hi; [|done].
    destruct (alter_middle (appendSub pos child) _ _ _ Hi) as (l1 & l2 & -> & ->).
    rewrite !bind_app, !bind_cons, (IH _ Hn).
    f_equiv. rewrite <- !app_assoc. do 2 f_equiv. apply Permutation_app_comm.
Qed.

(** It adds the pair of the child with that node, and the pairs of the
    child. *)
Lemma appendSub_edges pos child t n :
  subtree_at pos t = Some n →
  edges (appendSub pos child t)
  ≡ₚ edges t ++ (spanID n, trace_Span child) :: edges child.
Proof.
  revert t. induction pos as [|i pos IH]; intros [sp subs] Hn; simpl.
  - injection Hn as <-. rewrite fmap_app, bind_app, bind_singleton. simpl.
    rewrite <- !app_assoc. f_equiv. exact (Permutation_middle _ _ _).
  - simpl in Hn. destruct (subs !! i) as [sub|] eqn:Hi; [|done].
    destruct (alter_middle (appendSub pos child) _ _ _ Hi) as (l1 & l2 & -> & ->).
    rewrite !fmap_app, !fmap_cons, !bind_app, !bind_cons, (IH _ Hn), appendSub_Span.
    rewrite <- !app_assoc. do 4 f_equiv. apply Permutation_app_comm.
Qed.

Lemma attachPass_cons root c children :
  attachPass root (c :: children) = attachStep c (attachPass root children).
Proof. done. Qed.

Lemma attachPass_acc root children acc :
  foldr attachStep (root, acc) children
  = ((attachPass root children).1, (attachPass root children).2 ++ acc).
Proof.
  induction children as [|c cs IH]; [done|].
  rewrite attachPass_cons. simpl. rewrite IH. unfold attachStep. simpl.
  by destruct (findTraceParent _ c).
Qed.

(** [addFn] never indexes [children] out of range, and is one pass from the
    last child to the first. *)
Lemma addFn_attachPass pre root suf :
  addFn (length pre) root (pre ++ suf)
  = Ok ((attachPass root pre).1, (attachPass root pre).2 ++ suf).
Proof.
  revert root suf. induction pre as [|c pre IH] using rev_ind; intros root suf; [done|].
  rewrite length_app, Nat.add_1_r. simpl.
  rewrite <- app_assoc. simpl. rewrite list_lookup_middle by done.
  rewrite take_app_length, (cons_middle c pre suf), app_assoc, drop_app_length'
    by (rewrite length_app; simpl; lia).
  unfold attachPass at 1 2. rewrite foldr_app. simpl. unfold attachStep at 2 4. simpl.
  destruct (findTraceParent root c) as [t|].
  - by rewrite IH.
  - rewrite <- app_assoc. simpl. rewrite IH, attachPass_acc. simpl.
    by rewrite <- app_assoc.
Qed.

Lemma addFn_length root children :
  addFn (length children) root children = Ok (attachPass root children).
Proof.
  rewrite <- (app_nil_r children) at 2. rewrite addFn_attachPass, app_nil_r.
  by destruct (attachPass root children).
Qed.

Lemma attachPass_kept root children c :
  c ∈ (attachPass root children).2 → c ∈ children.
Proof.
  induction children as [|c0 cs IH]; [done|].
  rewrite attachPass_cons. unfold attachStep.
  destruct (findTraceParent _ c0); cbn [snd].
  - intros ?. right. by apply IH.
  - intros [->|?]%elem_of_cons; [by left|right; by apply IH].
Qed.

Lemma attachPass_kept_length root children :
  (length (attachPass root children).2 ≤ length children)%nat.
Proof.
  induction children as [|c0 cs IH]; [done|].
  rewrite attachPass_cons. unfold attachStep.
  destruct (findTraceParent _ c0); cbn [snd length]; lia.
Qed.

Lemma attachStep_ids c t rest :
  ids (attachStep c (t, rest)).1 ++ ((attachStep c (t, rest)).2 ≫= ids)
  ≡ₚ ids t ++ ((c :: rest) ≫= ids).
Proof.
  unfold attachStep. cbn [fst snd].
  destruct (findTraceParent t c) as [pos|] eqn:E; cbn [fst snd].
  - apply findTraceParent_Some in E as (n & Hn & _).
    rewrite (appendSub_ids _ _ _ _ Hn), bind_cons. by rewrite <- app_assoc.
  - done.
Qed.

Lemma attachStep_edges c t rest :
  edges (attachStep c (t, rest)).1 ++ ((attachStep c (t, rest)).2 ≫= childEdges)
  ≡ₚ edges t ++ ((c :: rest) ≫= childEdges).
Proof.
  unfold attachStep. cbn [fst snd].
  destruct (findTraceParent t c) as [pos|] eqn:E; cbn [fst snd].
  - apply findTraceParent_Some in E as (n & Hn & Hid).
    rewrite (appendSub_edges _ _ _ _ Hn), bind_cons, Hid. by rewrite <- app_assoc.
  - done.
Qed.

Lemma attachStep_Span c st : trace_Span (attachStep c st).1 = trace_Span st.1.
Proof.
  unfold attachStep. destruct (findTraceParent _ c); [apply appendSub_Span|done].
Qed.

Lemma attachStep_ids_mono c st x : x ∈ ids st.1 → x ∈ ids (attachStep c st).1.
Proof.
  unfold attachStep. destruct (findTraceParent _ c) as [pos|] eqn:E; [|done].
  apply findTraceParent_Some in E as (n & Hn & _). cbn [fst].
  rewrite (appendSub_ids _ _ _ _ Hn), elem_of_app. by left.
Qed.

Lemma attachPass_ids root children :
  ids (attachPass root children).1 ++ ((attachPass root children).2 ≫= ids)
  ≡ₚ ids root ++ (children ≫= ids).
Proof.
  induction children as [|c cs IH]; [done|].
  rewrite attachPass_cons. destruct (attachPass root cs) as [t rest].
  rewrite attachStep_ids, !bind_cons. cbn [fst snd] in IH.
  rewrite !(Permutation_app_swap_app _ (ids c)). by rewrite IH.
Qed.

Lemma attachPass_edges root children :
  edges (attachPass root children).1 ++ ((attachPass root children).2 ≫= childEdges)
  ≡ₚ edges root ++ (children ≫= childEdges).
Proof.
  induction children as [|c cs IH]; [done|].
  rewrite attachPass_cons. destruct (attachPass root cs) as [t rest].
  rewrite attachStep_edges, !bind_cons. cbn [fst snd] in IH.
  rewrite !(Permutation_app_swap_app _ (childEdges c)). by rewrite IH.
Qed.

Lemma attachPass_Span root children :
  trace_Span (attachPass root children).1 = trace_Span root.
Proof.
  induction children as [|c cs IH]; [done|].
  by rewrite attachPass_cons, attachStep_Span.
Qed.

Lemma attachPass_ids_mono root children x :
  x ∈ ids root → x ∈ ids (attachPass root children).1.
Proof.
  intros Hx. induction children as [|c cs IH]; [done|].
  rewrite attachPass_cons. by apply attachStep_ids_mono.
Qed.

(** A child is attached by a pass only under a node that is already
    there: children that are attached are attachable. *)
Lemma attachPass_attachable root children t rest :
  onlyAttachable root children t →
  (∀ c, c ∈ rest → c ∈ children) →
  onlyAttachable root children (attachPass t rest).1 ∧
  ∀ c, c ∈ rest →
    c ∈ (attachPass t rest).2 ∨
    (attachable root children c ∧ ∀ x, x ∈ ids c → x ∈ ids (attachPass t rest).1).
Proof.
  intros Ht. induction rest as [|c rest IH]; intros Hrest.
  { split; [done|]. by intros c ?%elem_of_nil. }
  destruct IH as [IHonly IHrest]; [intros c' ?; apply Hrest; by right|].
  rewrite attachPass_cons. unfold attachStep.
  destruct (findTraceParent _ c) as [pos|] eqn:E; cbn [fst snd].
  - assert (attachable root children c) as Hc.
    { assert (parentID c ∈ ids (attachPass t rest).1) as Hin.
      { destruct (decide (parentID c ∈ ids (attachPass t rest).1)); [done|].
        apply findTraceParent_None in n. congruence. }
      apply IHonly in Hin as [?|(c' & ? & ? & ?)].
      - by apply attachable_root.
      - by apply attachable_child with c'. }
    apply findTraceParent_Some in E as (n & Hn & _).
    split.
    + intros x. rewrite (appendSub_ids _ _ _ _ Hn), elem_of_app.
      intros [?|?]; [by apply IHonly|]. right. exists c.
      split; [apply Hrest; by left|done].
    + intros c' [->|Hc']%elem_of_cons.
      * right. split; [done|]. intros x ?.
        rewrite (appendSub_ids _ _ _ _ Hn), elem_of_app. by right.
      * destruct (IHrest c' Hc') as [?|[? Hids]]; [by left|right].
        split; [done|]. intros x ?.
        rewrite (appendSub_ids _ _ _ _ Hn), elem_of_app. left. by apply Hids.
  - split; [done|]. intros c' [->|Hc']%elem_of_cons; [left; by left|].
    destruct (IHrest c' Hc') as [?|?]; [left; by right|by right].
Qed.

(** A pass attaches at least one child when one has its parent in the
    tree. *)
Lemma attachPass_progress t rest :
  (∃ c, c ∈ rest ∧ parentID c ∈ ids t) →
  (length (attachPass t rest).2 < length rest)%nat.
Proof.
  induction rest as [|c rest IH]; intros (c0 & Hc0 & Hparent).
  { by apply elem_of_nil in Hc0. }
  rewrite attachPass_cons. unfold attachStep.
  pose proof (attachPass_kept_length t rest) as Hle.
  destruct (findTraceParent _ c) as [pos|] eqn:E; cbn [fst snd length]; [lia|].
  apply elem_of_cons in Hc0 as [->|Hc0].
  - apply findTraceParent_None in E. destruct E. by apply attachPass_ids_mono.
  - assert (length (attachPass t rest).2 < length rest)%nat by (apply IH; eauto).
    lia.
Qed.

Lemma assembling_start root children : assembling root children root children.
Proof. split; try done. - by left. - by left. Qed.

Lemma assembling_attachPass root children t rest :
  assembling root children t rest →
  assembling root children (attachPass t rest).1 (attachPass t rest).2.
Proof.
  intros [Honly Hrest Hdone Hroot Hids Hedges HSpan].
  destruct (attachPass_attachable root children t rest Honly Hrest) as [Honly' Hrest'].
  split.
  - done.
  - intros c ?. by eapply Hrest, attachPass_kept.
  - intros c Hc. destruct (Hdone c Hc) as [?|[? Hin]]; [by apply Hrest'|].
    right. split; [done|]. intros x ?. by apply attachPass_ids_mono, Hin.
  - intros x ?. by apply attachPass_ids_mono, Hroot.
  - by rewrite attachPass_ids.
  - by rewrite attachPass_edges.
  - by rewrite attachPass_Span.
Qed.

(** While every remaining child is attachable, one of them has its parent
    in the tree. *)
Lemma assembling_next root children t rest c :
  assembling root children t rest →
  attachable root children c → c ∈ rest →
  ∃ c', c' ∈ rest ∧ parentID c' ∈ ids t.
Proof.
  intros Hasm Hc. induction Hc as [c Hc|c c' Hc' _ IH Hparent]; intros Hin.
  - exists c. split; [done|]. by apply (asm_root _ _ _ _ Hasm).
  - destruct (asm_done _ _ _ _ Hasm c' Hc') as [?|[_ Hids]]; [by apply IH|].
    exists c. split; [done|]. by apply Hids.
Qed.

Lemma addChildren_loop_cons tries_left root c children :
  addChildren_loop (S tries_left) root (c :: children)
  = addChildren_loop tries_left (attachPass root (c :: children)).1
      (attachPass root (c :: children)).2.
Proof.
  cbn [addChildren_loop]. rewrite addFn_length. cbn [bind].
  by destruct (attachPass root (c :: children)).
Qed.

(** A child that is not attachable keeps [addChildren] from succeeding,
    whatever the number of tries. *)
Lemma addChildren_loop_fails root children tries_left t rest :
  onlyAttachable root children t →
  (∀ c, c ∈ rest → c ∈ children) →
  (∃ c, c ∈ rest ∧ ¬ attachable root children c) →
  ∃ t', addChildren_loop tries_left t rest = Ok (t', Some errMaxRetries).
Proof.
  revert t rest. induction tries_left as [|k IH]; intros t rest Honly Hrest (c & Hc & Hnot).
  { destruct rest; [by apply elem_of_nil in Hc|]. by eexists. }
  destruct rest as [|c0 rest]; [by apply elem_of_nil in Hc|].
  rewrite addChildren_loop_cons.
  destruct (attachPass_attachable root children t (c0 :: rest) Honly Hrest)
    as [Honly' Hrest'].
  apply IH; [done| |].
  - intros c' ?. by eapply Hrest, attachPass_kept.
  - exists c. split; [|done]. by destruct (Hrest' c Hc) as [?|[? _]].
Qed.

(** With as many tries as there are children left, [addChildren] attaches
    them all, unless one of them is not attachable. *)
Lemma addChildren_loop_succeeds root children tries_left t rest :
  assembling root children t rest →
  (length rest ≤ tries_left)%nat →
  (∃ t', addChildren_loop tries_left t rest = Ok (t', None) ∧
         assembling root children t' []) ∨
  (∃ c, c ∈ rest ∧ ¬ attachable root children c).
Proof.
  revert t rest. induction tries_left as [|k IH]; intros t rest Hasm Hlen.
  { destruct rest; [|simpl in Hlen; lia]. left. by exists t. }
  destruct rest as [|c0 rest]; [left; by exists t|].
  destruct (decide (Exists (fun c => parentID c ∈ ids t) (c0 :: rest))) as [Hex|Hno].
  - apply Exists_exists in Hex.
    pose proof (attachPass_progress t (c0 :: rest) Hex) as Hlt.
    rewrite addChildren_loop_cons.
    destruct (IH _ _ (assembling_attachPass _ _ _ _ Hasm)) as [?|(c & Hc & ?)].
    + change (length (c0 :: rest)) with (S (length rest)) in *. lia.
    + by left.
    + right. exists c. split; [|done]. by eapply attachPass_kept.
  - right. exists c0. split; [by left|]. intros Hc0.
    apply Hno, Exists_exists.
    apply (assembling_next _ _ _ _ c0 Hasm Hc0). by left.
Qed.

(** [addChildren] either attaches every child and returns no error, which
    happens exactly when every child is attachable, or returns
    [errMaxRetries]. *)
Lemma addChildren_outcome root children :
  (∃ t, addChildren root children = Ok (t, None) ∧
        assembling root children t [] ∧
        ∀ c, c ∈ children → attachable root children c) ∨
  (∃ t, addChildren root children = Ok (t, Some errMaxRetries) ∧
        ∃ c, c ∈ children ∧ ¬ attachable root children c).
Proof.
  unfold addChildren.
  destruct (addChildren_loop_succeeds root children (length children) root children)
    as [(t & Ht & Hasm)|Hnot]; [apply assembling_start|done| |].
  - left. exists t. split_and!; [done..|].
    intros c Hc. destruct (asm_done _ _ _ _ Hasm c Hc) as [?%elem_of_nil|[? _]]; done.
  - right.
    destruct (addChildren_loop_fails root children (length children) root children)
      as [t Ht]; [by left|done|done|].
    by exists t.
Qed.

Lemma attachable_Permutation root children children' c :
  children ≡ₚ children' →
  attachable root children c → attachable root children' c.
Proof.
  intros Hperm Hc. induction Hc as [c Hc|c c' Hc' _ IH Hparent].
  - by apply attachable_root.
  - apply attachable_child with c'; [by rewrite <- Hperm|done..].
Qed.

(** *** Attachable children and valid trees *)

Lemma ids_leaf t : Sub t = [] → ids t = [spanID t].
Proof. destruct t as [sp subs]. simpl. by intros ->. Qed.

Lemma tc_inv_last {A} (R : relation A) x z :
  tc R x z → ∃ y, rtc R x y ∧ R y z.
Proof.
  induction 1 as [x z HR|x y z HR _ (y' & Hrtc & HR')].
  - by exists x.
  - exists y'. split; [by apply rtc_l with y|done].
Qed.

Lemma Acc_no_cycle {A} (R : relation A) x : Acc R x → ¬ tc R x x.
Proof.
  intros Hacc.
  assert (∀ y, rtc R x y → R y x → False) as Hno.
  { induction Hacc as [x _ IH]. intros y Hxy Hyx.
    apply rtc_inv_r in Hxy as [<-|(y' & Hxy' & Hy'y)].
    - by apply (IH x Hyx x).
    - apply (IH y Hyx y'); [|done]. by apply rtc_l with x. }
  intros (y & Hxy & Hyx)%tc_inv_last. by apply (Hno y).
Qed.

Lemma spanID_inj children c1 c2 :
  NoDup (spanID <$> children) → c1 ∈ children → c2 ∈ children →
  spanID c1 = spanID c2 → c1 = c2.
Proof.
  induction children as [|c children IH]; [by intros _ ?%elem_of_nil|].
  rewrite fmap_cons, NoDup_cons. intros [Hc Hnd] H1 H2 Heq.
  apply elem_of_cons in H1 as [->|H1]; apply elem_of_cons in H2 as [->|H2].
  - done.
  - destruct Hc. rewrite Heq. by apply list_elem_of_fmap_2.
  - destruct Hc. rewrite <- Heq. by apply list_elem_of_fmap_2.
  - by apply IH.
Qed.

Section ValidTree.

Variables (root : Trace) (children : list Trace).
Hypothesis root_bare : Sub root = [].
Hypothesis children_bare : ∀ c, c ∈ children → Sub c = [].
Hypothesis ids_distinct : NoDup (spanID root :: (spanID <$> children)).

Lemma attachable_Acc c :
  attachable root children c → Acc (parentIn children) c.
Proof using root_bare children_bare ids_distinct.
  apply NoDup_cons in ids_distinct as [Hroot Hnd].
  induction 1 as [c Hc|c c' Hc' _ IH Hparent]; constructor; intros y [Hy Hid].
  - rewrite (ids_leaf _ root_bare) in Hc. apply list_elem_of_singleton in Hc.
    destruct Hroot. rewrite <- Hc, <- Hid. by apply list_elem_of_fmap_2.
  - rewrite (ids_leaf _ (children_bare _ Hc')) in Hparent.
    apply list_elem_of_singleton in Hparent.
    assert (y = c') as -> by (apply (spanID_inj children); congruence).
    done.
Qed.

(** Following the parents of a child of a valid tree leads to the root:
    [path] holds the children met so far, all of them below [c]. *)
Lemma validTree_climb (m : nat) path c :
  validTree root children →
  c ∈ children →
  NoDup (spanID <$> path) →
  (∀ d, d ∈ path → d ∈ children ∧ (d = c ∨ tc (parentIn children) c d)) →
  (length children ≤ m + length path)%nat →
  attachable root children c.
Proof using root_bare children_bare ids_distinct.
  intros [Hparents Hcycle]. apply NoDup_cons in ids_distinct as [_ Hnd].
  revert path c. induction m as [|m IH]; intros path c Hc Hpath Hbelow Hlen.
  all: destruct (Hparents c Hc) as [Hroot|(c' & Hc' & Hid)].
  all: try (apply attachable_root; rewrite (ids_leaf _ root_bare), Hroot; by left).
  all: assert (parentIn children c' c) as Hstep by done.
  all: destruct (decide (spanID c' ∈ spanID <$> path)) as [Hin|Hout].
  all: try (apply list_elem_of_fmap in Hin as (d & Heq & Hd);
            destruct (Hbelow d Hd) as [Hdc Hd'];
            assert (c' = d) as -> by (by apply (spanID_inj children));
            destruct (Hcycle d Hdc);
            destruct Hd' as [->|Hd']; [by apply tc_once|by apply tc_l with c]).
  all: assert (NoDup (spanID <$> c' :: path)) as Hpath'
         by (rewrite fmap_cons; by apply NoDup_cons).
  all: assert (∀ d, d ∈ c' :: path →
                 d ∈ children ∧ (d = c' ∨ tc (parentIn children) c' d)) as Hbelow'
         by (intros d [->|Hd]%elem_of_cons; [by split; [|left]|];
             destruct (Hbelow d Hd) as [? [->|?]];
             (split; [done|right]); [by apply tc_once|by apply tc_l with c]).
  - assert (length (c' :: path) ≤ length children)%nat as Hle.
    { rewrite <- (length_fmap spanID (c' :: path)), <- (length_fmap spanID children).
      apply submseteq_length, NoDup_submseteq; [done|].
      intros x (d & -> & Hd)%list_elem_of_fmap.
      apply list_elem_of_fmap_2. by apply Hbelow'. }
    simpl in Hle, Hlen. lia.
  - apply attachable_child with c'; [done| |].
    + apply (IH (c' :: path)); [done..|]. simpl. lia.
    + rewrite (ids_leaf _ (children_bare _ Hc')), Hid. by left.
Qed.

(** For a bare root and children without sub-traces, with distinct span
    identifiers, the attachable children are those of a valid tree. *)
Lemma attachable_validTree :
  (∀ c, c ∈ children → attachable root children c) ↔ validTree root children.
Proof using root_bare children_bare ids_distinct.
  split.
  - intros Hall. split.
    + intros c Hc. destruct (Hall c Hc) as [c Hroot|c c' Hc' _ Hparent].
      * left. rewrite (ids_leaf _ root_bare) in Hroot.
        by apply list_elem_of_singleton in Hroot.
      * right. exists c'. split; [done|].
        rewrite (ids_leaf _ (children_bare _ Hc')) in Hparent.
        by apply list_elem_of_singleton in Hparent.
    + intros c Hc. by apply Acc_no_cycle, attachable_Acc, Hall.
  - intros Hvalid c Hc.
    apply (validTree_climb (length children) [] c); [done..|constructor| |simpl; lia].
    by intros d ?%elem_of_nil.
Qed.

End ValidTree.

(** C2. [addChildren] returns either no error or [errMaxRetries]. It
    returns no error exactly when the children form a tree attachable under
    [root] (each child's parent is a node of [root] or of another attachable
    child, so no chain of parents runs in a circle or leaves the tree), and
    then also for every permutation of the children; it returns
    [errMaxRetries] exactly when some child is not attachable. For a bare
    root and children without sub-traces whose span identifiers are
    distinct, as records of one trace are, the children are all attachable
    exactly when every child's parent is the root or another child and the
    parent links have no cycle. *)
Theorem addChildren_succeeds_iff_attachable root children :
  ((∃ t, addChildren root children = Ok (t, None)) ∨
   (∃ t, addChildren root children = Ok (t, Some errMaxRetries))) ∧
  ((∃ t, addChildren root children = Ok (t, None)) ↔
   ∀ c, c ∈ children → attachable root children c) ∧
  ((∃ t, addChildren root children = Ok (t, Some errMaxRetries)) ↔
   ∃ c, c ∈ children ∧ ¬ attachable root children c) ∧
  (∀ children', children' ≡ₚ children →
     (∀ c, c ∈ children → attachable root children c) →
     ∃ t, addChildren root children' = Ok (t, None)) ∧
  (Sub root = [] → (∀ c, c ∈ children → Sub c = []) →
   NoDup (spanID root :: (spanID <$> children)) →
     ((∃ t, addChildren root children = Ok (t, None)) ↔ validTree root children) ∧
     ((∃ t, addChildren root children = Ok (t, Some errMaxRetries)) ↔
      ¬ validTree root children)).
Proof.
  split_and!.
  5: { intros Hroot Hleaves Hnd.
       pose proof (attachable_validTree root children Hroot Hleaves Hnd) as Hvalid.
       destruct (addChildren_outcome root children)
         as [(t & Ht & _ & Hall)|(t & Ht & c & Hc & Hnot)].
       - apply (proj1 Hvalid) in Hall. split; [split; eauto|].
         split; [|done]. intros [t' Ht']. congruence.
       - assert (¬ validTree root children) as Hinvalid.
         { intros Hall. by apply Hnot, (proj2 Hvalid Hall). }
         split; [|split; eauto]. split; [|done]. intros [t' Ht']. congruence. }
  - destruct (addChildren_outcome root children) as [(t & Ht & _)|(t & Ht & _)]; eauto.
  - split.
    + intros [t Ht].
      destruct (addChildren_outcome root children) as [(? & _ & _ & ?)|(? & Ht' & _)];
        [done|congruence].
    + intros Hall.
      destruct (addChildren_outcome root children) as [(t & Ht & _)|(? & _ & c & Hc & Hnot)];
        [eauto|]. destruct Hnot. by apply Hall.
  - split.
    + intros [t Ht].
      destruct (addChildren_outcome root children) as [(? & Ht' & _)|(? & _ & ?)];
        [congruence|done].
    + intros (c & Hc & Hnot).
      destruct (addChildren_outcome root children) as [(? & _ & _ & Hall)|(t & Ht & _)];
        [|eauto]. destruct Hnot. by apply Hall.
  - intros children' Hperm Hall.
    destruct (addChildren_outcome root children') as [(t & Ht & _)|(? & _ & c & Hc & Hnot)];
      [eauto|]. destruct Hnot.
    apply attachable_Permutation with children; [done|].
    apply Hall. by rewrite <- Hperm.
Qed.

(** *** A tree is determined, up to the order of sub-traces, by its
    parent-child pairs *)

Lemma isNode_trans n m t : isNode n m → isNode m t → isNode n t.
Proof.
  intros Hnm Hmt. induction Hmt as [|t c Hc _ IH]; [done|].
  by apply isNode_sub with c.
Qed.

Lemma ids_sub t c x : c ∈ Sub t → x ∈ ids c → x ∈ ids t.
Proof.
  destruct t as [sp subs]. cbn [Sub ids]. intros Hc Hx.
  right. apply list_elem_of_bind. eauto.
Qed.

Lemma isNode_ids n t x : isNode n t → x ∈ ids n → x ∈ ids t.
Proof.
  intros Hn. induction Hn as [|t c Hc _ IH]; [done|].
  intros Hx. eapply ids_sub; eauto.
Qed.

Lemma isNode_edge n t c :
  isNode n t → c ∈ Sub n → (spanID n, trace_Span c) ∈ edges t.
Proof.
  intros Hn Hc. induction Hn as [|t c' Hc' _ IH].
  - destruct n as [sp subs]. cbn [edges]. apply elem_of_app. left.
    apply list_elem_of_fmap. by exists c.
  - destruct t as [sp subs]. cbn [edges]. apply elem_of_app. right.
    apply list_elem_of_bind. eauto.
Qed.

Lemma edges_isNode t e :
  e ∈ edges t → ∃ n c, isNode n t ∧ c ∈ Sub n ∧ e = (spanID n, trace_Span c).
Proof.
  induction t as [sp subs IH] using Trace_subs_ind. cbn [edges].
  intros [Hhere|Hsub]%elem_of_app.
  - apply list_elem_of_fmap in Hhere as (c & -> & Hc).
    exists (mkTrace sp subs), c. split_and!; [apply isNode_here|done..].
  - apply list_elem_of_bind in Hsub as (sub & He & Hsub).
    rewrite Forall_forall in IH.
    destruct (IH sub Hsub He) as (n & c & Hn & Hc & ->).
    exists n, c. split_and!; [|done..]. by apply isNode_sub with sub.
Qed.

Lemma NoDup_bind_ids_elem subs sub :
  NoDup (subs ≫= ids) → sub ∈ subs → NoDup (ids sub).
Proof.
  induction subs as [|s subs IH]; [by intros _ ?%elem_of_nil|].
  rewrite bind_cons, NoDup_app. intros (Hs & _ & Hsubs) [->|?]%elem_of_cons; auto.
Qed.

Lemma NoDup_bind_ids_inj subs sub1 sub2 x :
  NoDup (subs ≫= ids) → sub1 ∈ subs → sub2 ∈ subs →
  x ∈ ids sub1 → x ∈ ids sub2 → sub1 = sub2.
Proof.
  induction subs as [|s subs IH]; [by intros _ ?%elem_of_nil|].
  rewrite bind_cons, NoDup_app. intros (_ & Hdisj & Hsubs) H1 H2 Hx1 Hx2.
  apply elem_of_cons in H1 as [->|H1]; apply elem_of_cons in H2 as [->|H2].
  - done.
  - destruct (Hdisj x Hx1). apply list_elem_of_bind. eauto.
  - destruct (Hdisj x Hx2). apply list_elem_of_bind. eauto.
  - by apply IH.
Qed.

Lemma isNode_NoDup n t : NoDup (ids t) → isNode n t → NoDup (ids n).
Proof.
  intros Hnd Hn. induction Hn as [|t c Hc _ IH]; [done|].
  apply IH. destruct t as [sp subs]. cbn [ids Sub] in *.
  apply NoDup_cons in Hnd as [_ Hnd]. by apply NoDup_bind_ids_elem with subs.
Qed.

(** In a tree whose span identifiers are distinct, a node is determined by
    its span identifier. *)
Lemma isNode_unique t n m :
  NoDup (ids t) → isNode n t → isNode m t → spanID n = spanID m → n = m.
Proof.
  induction t as [sp subs IH] using Trace_subs_ind. rewrite Forall_forall in IH.
  intros Hnd Hn Hm Heq. cbn [ids] in Hnd. apply NoDup_cons in Hnd as [Hroot Hnd].
  assert (∀ k c, c ∈ subs → isNode k c → spanID k ∈ subs ≫= ids) as Hbelow.
  { intros k c Hc Hk. apply list_elem_of_bind. exists c. split; [|done].
    apply (isNode_ids k c); [done|apply ids_head]. }
  inversion Hn as [Hn0|t1 c1 Hc1 Hn1]; inversion Hm as [Hm0|t2 c2 Hc2 Hm2]; subst.
  - done.
  - destruct Hroot. cbn [Sub] in Hc2.
    change (id_Span (SpanID_of sp)) with (spanID (mkTrace sp subs)).
    rewrite Heq. by apply Hbelow with c2.
  - destruct Hroot. cbn [Sub] in Hc1.
    change (id_Span (SpanID_of sp)) with (spanID (mkTrace sp subs)).
    rewrite <- Heq. by apply Hbelow with c1.
  - cbn [Sub] in Hc1, Hc2.
    assert (c1 = c2) as ->.
    { apply (NoDup_bind_ids_inj subs c1 c2 (spanID n)); [done..| |].
      - apply (isNode_ids n c1); [done|apply ids_head].
      - rewrite Heq. apply (isNode_ids m c2); [done|apply ids_head]. }
    apply (IH c2); [done| |done..]. by apply NoDup_bind_ids_elem with subs.
Qed.

Lemma NoDup_Sub_Span subs :
  NoDup (subs ≫= ids) → NoDup (trace_Span <$> subs).
Proof.
  induction subs as [|s subs IH]; [constructor|].
  rewrite bind_cons, NoDup_app, fmap_cons, NoDup_cons.
  intros (_ & Hdisj & Hsubs). split; [|by apply IH].
  intros (s' & Heq & Hs')%list_elem_of_fmap.
  apply (Hdisj (spanID s)); [apply ids_head|].
  apply list_elem_of_bind. exists s'. split; [|done].
  unfold spanID, trace_ID. rewrite Heq. apply ids_head.
Qed.

Lemma Forall2_of_fmap_Permutation {A B} (f : A → B) (R : A → A → Prop)
    (l1 l2 : list A) :
  f <$> l1 ≡ₚ f <$> l2 →
  (∀ x y, x ∈ l1 → y ∈ l2 → f x = f y → R x y) →
  ∃ l, l1 ≡ₚ l ∧ Forall2 R l l2.
Proof.
  revert l1. induction l2 as [|y l2 IH]; intros l1 Hperm HR.
  - apply Permutation_nil_r, fmap_nil_inv in Hperm as ->. by exists [].
  - rewrite fmap_cons in Hperm.
    apply Permutation_cons_inv_r in Hperm as (k1 & k2 & Hsplit & Hperm).
    apply fmap_app_inv in Hsplit as (a1 & a2' & -> & Hcons & ->).
    symmetry in Hcons. apply fmap_cons_inv in Hcons as (x & a2 & Hxy & -> & ->).
    destruct (IH (a1 ++ a2)) as (l & Hl & HF).
    + by rewrite fmap_app.
    + intros x' y' Hx' Hy'. apply HR; [|by right].
      apply elem_of_app in Hx' as [?|?]; apply elem_of_app; [by left|right; by right].
    + exists (x :: l). split.
      * by rewrite <- Permutation_middle, Hl.
      * constructor; [|done]. apply HR; [|by left|done].
        apply elem_of_app. right. by left.
Qed.

(** Two trees with the same root record, distinct span identifiers and the
    same parent-child pairs are the same up to the order of sub-traces. *)
Lemma sameTree_of_edges t1 t2 :
  NoDup (ids t1) → NoDup (ids t2) →
  (∀ e, e ∈ edges t1 ↔ e ∈ edges t2) →
  ∀ n1, isNode n1 t1 → ∀ n2, isNode n2 t2 →
    trace_Span n1 = trace_Span n2 → sameTree n1 n2.
Proof.
  intros Hnd1 Hnd2 Hedges.
  induction n1 as [sp subs1 IH] using Trace_subs_ind. rewrite Forall_forall in IH.
  intros Hn1 [sp2 subs2] Hn2 HSpan. cbn [trace_Span] in HSpan. subst sp2.
  pose proof (isNode_NoDup _ _ Hnd1 Hn1) as Hnd1'.
  pose proof (isNode_NoDup _ _ Hnd2 Hn2) as Hnd2'.
  cbn [ids] in Hnd1', Hnd2'.
  apply NoDup_cons in Hnd1' as [_ Hnd1']. apply NoDup_cons in Hnd2' as [_ Hnd2'].
  destruct (Forall2_of_fmap_Permutation trace_Span sameTree subs1 subs2)
    as (subs & Hperm & HF).
  - apply NoDup_Permutation; [by apply NoDup_Sub_Span..|].
    intros s. rewrite !list_elem_of_fmap. split.
    + intros (c & -> & Hc).
      pose proof (isNode_edge _ _ c Hn1 Hc) as He. apply Hedges in He.
      apply edges_isNode in He as (m & c' & Hm & Hc' & [= Hid HSpan]).
      assert (m = mkTrace sp subs2) as -> by (by apply (isNode_unique t2)).
      by exists c'.
    + intros (c & -> & Hc).
      pose proof (isNode_edge _ _ c Hn2 Hc) as He. apply Hedges in He.
      apply edges_isNode in He as (m & c' & Hm & Hc' & [= Hid HSpan]).
      assert (m = mkTrace sp subs1) as -> by (by apply (isNode_unique t1)).
      by exists c'.
  - intros c1 c2 Hc1 Hc2 HSpan. apply IH; [done| | |done].
    + apply isNode_trans with (mkTrace sp subs1); [|done].
      apply isNode_sub with c1; [done|apply isNode_here].
    + apply isNode_trans with (mkTrace sp subs2); [|done].
      apply isNode_sub with c2; [done|apply isNode_here].
  - by apply sameTree_node with subs.
Qed.

(** C5 (amended). For children that form a tree attachable under [root]
    with pairwise distinct span identifiers, [addChildren] succeeds on every
    permutation of the children, and the trees produced have the same nodes
    and the same parent-child pairs: they are the same tree up to the order
    of the sub-traces of each node (that order follows the input order). *)
Theorem addChildren_order_independent root children children' :
  children' ≡ₚ children →
  (∀ c, c ∈ children → attachable root children c) →
  NoDup (ids root ++ (children ≫= ids)) →
  ∃ t t',
    addChildren root children = Ok (t, None) ∧
    addChildren root children' = Ok (t', None) ∧
    sameTree t t' ∧
    ids t ≡ₚ ids t' ∧
    edges t ≡ₚ edges t'.
Proof.
  intros Hperm Hall Hnd.
  destruct (addChildren_outcome root children)
    as [(t & Ht & Hasm & _)|(? & _ & c & Hc & Hnot)]; [|destruct Hnot; by apply Hall].
  destruct (addChildren_outcome root children')
    as [(t' & Ht' & Hasm' & _)|(? & _ & c & Hc & Hnot)].
  2: { destruct Hnot. apply attachable_Permutation with children; [done|].
       apply Hall. by rewrite <- Hperm. }
  pose proof (asm_ids _ _ _ _ Hasm) as Hids.
  pose proof (asm_ids _ _ _ _ Hasm') as Hids'.
  pose proof (asm_edges _ _ _ _ Hasm) as Hedges.
  pose proof (asm_edges _ _ _ _ Hasm') as Hedges'.
  rewrite app_nil_r in Hids, Hids', Hedges, Hedges'.
  rewrite Hperm in Hids', Hedges'.
  exists t, t'. split_and!; [done..| | |].
  - apply (sameTree_of_edges t t').
    + by rewrite Hids.
    + by rewrite Hids'.
    + intros e. by rewrite Hedges, Hedges'.
    + apply isNode_here.
    + apply isNode_here.
    + by rewrite (asm_Span _ _ _ _ Hasm), (asm_Span _ _ _ _ Hasm').
  - by rewrite Hids, Hids'.
  - by rewrite Hedges, Hedges'.
Qed.

(** ** Single-trace and page retrieval *)

Lemma Trace_loop_error (rows : list Row) e :
  foldl (fun acc s => do st <- acc; Trace_step st s) (Err e) rows = Err e.
Proof. induction rows as [|r rows IH]; [done|]. simpl. apply IH. Qed.

Lemma Trace_loop_decoded rows spans st :
  decodedRows rows spans →
  foldl (fun acc s => do st <- acc; Trace_step st s) (Ok st) rows
  = Trace_spans st spans.
Proof.
  intros Hdec. revert st.
  induction Hdec as [|r span rows spans Hr _ IH]; intros [[trace set] children]; [done|].
  cbn [foldl bind Trace_spans]. unfold Trace_step. rewrite Hr. cbn [bind].
  destruct (IsRoot (SpanID_of span)), set; cbn [andb negb];
    [apply Trace_loop_error|apply IH..].
Qed.

Lemma Trace_spans_root_set trace children spans :
  Trace_spans (trace, true, children) spans
  = match rootSpans spans with
    | [] => Ok (trace, true, children ++ (leaf <$> spans))
    | _ :: _ => Err errMultipleRootSpans
    end.
Proof.
  revert children. induction spans as [|span spans IH]; intros children.
  { cbn. by rewrite app_nil_r. }
  cbn [Trace_spans]. unfold rootSpans. rewrite filter_cons.
  destruct (IsRoot (SpanID_of span)) eqn:E.
  - by rewrite decide_True.
  - rewrite decide_False by done. rewrite IH. fold (rootSpans spans).
    destruct (rootSpans spans); [|done].
    by rewrite fmap_cons, <- app_assoc.
Qed.

Lemma rootSpans_nil_childSpans spans :
  rootSpans spans = [] → childSpans spans = spans.
Proof.
  unfold rootSpans, childSpans. induction spans as [|span spans IH]; [done|].
  rewrite !filter_cons. destruct (IsRoot (SpanID_of span)).
  - by rewrite decide_True.
  - rewrite decide_False, decide_True by done. intros ?. f_equal. by apply IH.
Qed.

Lemma Trace_spans_root_unset trace children spans :
  Trace_spans (trace, false, children) spans
  = match rootSpans spans with
    | [] => Ok (trace, false, children ++ (leaf <$> spans))
    | [root] => Ok (mkTrace root (Sub trace), true,
                    children ++ (leaf <$> childSpans spans))
    | _ :: _ :: _ => Err errMultipleRootSpans
    end.
Proof.
  revert children. induction spans as [|span spans IH]; intros children.
  { cbn. by rewrite app_nil_r. }
  cbn [Trace_spans]. unfold rootSpans, childSpans. rewrite !filter_cons.
  destruct (IsRoot (SpanID_of span)) eqn:E.
  - rewrite decide_True, decide_False by done.
    rewrite Trace_spans_root_set. fold (rootSpans spans) (childSpans spans).
    destruct (rootSpans spans) eqn:Hroots; [|done].
    by rewrite rootSpans_nil_childSpans.
  - rewrite decide_False, decide_True by done.
    rewrite IH. fold (rootSpans spans) (childSpans spans).
    destruct (rootSpans spans) as [|? [|? ?]]; [|by rewrite fmap_cons, <- app_assoc|done].
    by rewrite fmap_cons, <- app_assoc.
Qed.

(** No record with a non-zero parent can be attached under the zero
    value of [Trace]. *)
Lemma zeroTrace_not_attachable children c :
  (∀ c', c' ∈ children → parentID c' ≠ 0%N) →
  attachable zeroTrace children c → c ∈ children → False.
Proof.
  intros Hchildren Hc. induction Hc as [c Hc|c c' Hc' _ IH _]; intros Hin.
  - apply list_elem_of_singleton in Hc. by apply (Hchildren c).
  - by apply IH.
Qed.

Lemma childSpans_parent spans c :
  c ∈ leaf <$> childSpans spans → parentID c ≠ 0%N.
Proof.
  intros (span & -> & Hspan)%list_elem_of_fmap.
  apply list_elem_of_filter in Hspan as [Hroot _].
  unfold IsRoot in Hroot. by apply N.eqb_neq in Hroot.
Qed.

(** [Trace] on a non-empty result whose rows all decode. *)
Lemma Trace_decoded id result spans :
  executeOneQuery (SelectTrace id) = Ok result →
  Series result ≠ [] →
  decodedRows (Series result) spans →
  InfluxDBStore_Trace id
  = do st <- Trace_spans (zeroTrace, false, []) spans;
    do r <- addChildren st.1.1 st.2;
    match r.2 with
    | Some err => Err err
    | None => Ok r.1
    end.
Proof.
  intros Hquery Hne Hdec. unfold InfluxDBStore_Trace. rewrite Hquery. cbn [bind].
  destruct (Series result) as [|r rows] eqn:Hrows; [done|].
  rewrite (Trace_loop_decoded _ _ _ Hdec).
  destruct (Trace_spans _ spans) as [[[trace set] children]| |]; [|done..].
  cbn [bind fst snd]. by destruct (addChildren trace children) as [[? [?|]]| |].
Qed.

(** C4 (amended). When the query of [Trace] returns at least one record
    and every record decodes: with no root record (parent equal to the zero
    identifier) [Trace] fails with [errMaxRetries], not with the error
    "trace not found"; with more than one root record it fails with
    "unexpected multiple root spans"; and it returns a tree only when there
    is exactly one root record, which is then the root of the tree. With
    exactly one root record it returns a tree as soon as the other records
    are attachable under it. *)
Theorem Trace_requires_one_root id result spans :
  executeOneQuery (SelectTrace id) = Ok result →
  Series result ≠ [] →
  decodedRows (Series result) spans →
  (rootSpans spans = [] → InfluxDBStore_Trace id = Err errMaxRetries) ∧
  ((1 < length (rootSpans spans))%nat →
     InfluxDBStore_Trace id = Err errMultipleRootSpans) ∧
  (∀ t, InfluxDBStore_Trace id = Ok t →
     ∃ root, rootSpans spans = [root] ∧ trace_Span t = root) ∧
  (∀ root, rootSpans spans = [root] →
     (∀ c, c ∈ leaf <$> childSpans spans →
           attachable (leaf root) (leaf <$> childSpans spans) c) →
     ∃ t, InfluxDBStore_Trace id = Ok t).
Proof.
  intros Hquery Hne Hdec. rewrite (Trace_decoded _ _ _ Hquery Hne Hdec).
  rewrite Trace_spans_root_unset.
  assert (rootSpans spans = [] →
          ∃ t, addChildren zeroTrace (leaf <$> spans) = Ok (t, Some errMaxRetries))
    as Hzero.
  { intros Hroots.
    destruct (addChildren_outcome zeroTrace (leaf <$> spans))
      as [(t & _ & _ & Hall)|(t & Ht & _)]; [|eauto].
    destruct spans as [|span spans'].
    { apply Forall2_nil_inv_r in Hdec. done. }
    destruct (zeroTrace_not_attachable (leaf <$> span :: spans') (leaf span)).
    - intros c Hc. apply childSpans_parent with (span :: spans').
      by rewrite rootSpans_nil_childSpans.
    - apply Hall. by left.
    - by left. }
  split_and!.
  - intros Hroots. rewrite Hroots. cbn [bind fst snd app].
    destruct (Hzero Hroots) as [t ->]. done.
  - intros Hlen. by destruct (rootSpans spans) as [|? [|? ?]]; [simpl in Hlen; lia..|].
  - intros t. destruct (rootSpans spans) as [|root [|? ?]] eqn:Hroots.
    + cbn [bind fst snd app]. by destruct (Hzero eq_refl) as [t' ->].
    + cbn [bind fst snd app]. intros Ht. exists root. split; [done|].
      destruct (addChildren_outcome (mkTrace root (Sub zeroTrace))
                  (leaf <$> childSpans spans))
        as [(t' & Ht' & Hasm & _)|(t' & Ht' & _)]; rewrite Ht' in Ht; [|done].
      cbn in Ht. injection Ht as <-. by rewrite (asm_Span _ _ _ _ Hasm).
    + done.
  - intros root Hroots Hall. rewrite Hroots. cbn [bind fst snd app].
    destruct (addChildren_outcome (mkTrace root (Sub zeroTrace))
                (leaf <$> childSpans spans))
      as [(t' & Ht' & _)|(t' & _ & c & Hc & Hnot)].
    + rewrite Ht'. by exists t'.
    + destruct Hnot. by apply Hall.
Qed.

(** C10. When the root-page query of [Traces] returns no record,
    [Traces] returns an empty slice that is not [nil], and no error. *)
Theorem Traces_no_roots_empty result :
  executeOneQuery (SelectRootSpans tracesPerPage) = Ok result →
  Series result = [] →
  InfluxDBStore_Traces = Ok (Some []).
Proof.
  intros Hquery Hseries. unfold InfluxDBStore_Traces.
  rewrite Hquery. cbn [bind]. by rewrite Hseries.
Qed.

(** What [Collect] hands to [in.con.Write] is the single point built. *)
Lemma Collect_writes_point id anns now pt :
  Collect_point id anns now = Ok pt →
  (InfluxDBStore_Collect id anns now).1 = [mkBatchPoints [pt] dbName].
Proof. unfold InfluxDBStore_Collect. by intros ->. Qed.

(** * Further properties of the code *)

(** ** Trace tree assembler *)

(** X1. [findTraceParent] returns [nil] exactly when no node of the tree
    has the span identifier that the child names as its parent; otherwise
    it returns a node with that span identifier, and the root itself when
    the root has it. *)
Theorem findTraceParent_finds_parent root child :
  (findTraceParent root child = None ↔ parentID child ∉ ids root) ∧
  (∀ pos, findTraceParent root child = Some pos →
          ∃ n, subtree_at pos root = Some n ∧ isNode n root ∧
               spanID n = parentID child) ∧
  (spanID root = parentID child → findTraceParent root child = Some []).
Proof.
  split_and!.
  - apply findTraceParent_None.
  - intros pos Hpos. destruct (findTraceParent_Some _ _ _ Hpos) as (n & Hn & Hid).
    exists n. split_and!; [done| |done]. clear Hpos Hid.
    revert root Hn. induction pos as [|i pos IH]; intros root Hn.
    + injection Hn as ->. apply isNode_here.
    + simpl in Hn. destruct (Sub root !! i) as [sub|] eqn:Hi; [|done].
      apply isNode_sub with sub; [by apply list_elem_of_lookup_2 with i|by apply IH].
  - intros Heq. destruct root as [sp subs]. rewrite findTraceParent_unfold.
    unfold spanID, trace_ID in Heq. simpl in Heq. rewrite Heq.
    by rewrite N.eqb_refl.
Qed.

(** The state in which the loop of [addChildren] ends. *)
Lemma addChildren_loop_stuck root children tries_left t rest t' e :
  assembling root children t rest →
  (∀ c, c ∈ rest → ¬ attachable root children c) →
  addChildren_loop tries_left t rest = Ok (t', e) →
  ∃ rest', assembling root children t' rest' ∧
           (e = None ↔ rest' = []) ∧
           (∀ c, c ∈ rest' → ¬ attachable root children c).
Proof.
  revert t rest. induction tries_left as [|k IH]; intros t rest Hasm Hnot.
  { destruct rest; intros [= <- <-]; eexists; split_and!; done. }
  destruct rest as [|c0 rest].
  { intros [= <- <-]. exists []. split_and!; [done..|by intros c ?%elem_of_nil]. }
  rewrite addChildren_loop_cons. apply IH; [by apply assembling_attachPass|].
  intros c Hc. eapply Hnot, attachPass_kept, Hc.
Qed.

Lemma addChildren_loop_final root children tries_left t rest t' e :
  assembling root children t rest →
  (length rest ≤ tries_left)%nat →
  addChildren_loop tries_left t rest = Ok (t', e) →
  ∃ rest', assembling root children t' rest' ∧
           (e = None ↔ rest' = []) ∧
           (∀ c, c ∈ rest' → ¬ attachable root children c).
Proof.
  revert t rest. induction tries_left as [|k IH]; intros t rest Hasm Hlen.
  { destruct rest; [|simpl in Hlen; lia]. intros [= <- <-].
    exists []. split_and!; [done..|by intros c ?%elem_of_nil]. }
  destruct rest as [|c0 rest].
  { intros [= <- <-]. exists []. split_and!; [done..|by intros c ?%elem_of_nil]. }
  destruct (decide (Exists (fun c => parentID c ∈ ids t) (c0 :: rest))) as [Hex|Hno].
  - apply Exists_exists in Hex.
    pose proof (attachPass_progress t (c0 :: rest) Hex) as Hlt.
    rewrite addChildren_loop_cons. apply IH; [by apply assembling_attachPass|].
    change (length (c0 :: rest)) with (S (length rest)) in *. lia.
  - apply addChildren_loop_stuck; [done|]. intros c Hc Hattachable.
    apply Hno, Exists_exists. by apply (assembling_next _ _ _ _ c Hasm).
Qed.

(** X2. When [addChildren] returns no error, the tree has the record of
    [root] at its root, its nodes are those of [root] and of the children,
    each once, and every child sits under a node whose span identifier is
    the parent identifier of the child. *)
Theorem addChildren_attaches_every_child root children t :
  addChildren root children = Ok (t, None) →
  trace_Span t = trace_Span root ∧
  ids t ≡ₚ ids root ++ (children ≫= ids) ∧
  edges t ≡ₚ edges root ++ (children ≫= childEdges) ∧
  ∀ c, c ∈ children →
    ∃ n c', isNode n t ∧ spanID n = parentID c ∧
            c' ∈ Sub n ∧ trace_Span c' = trace_Span c.
Proof.
  intros Ht.
  destruct (addChildren_loop_final root children (length children) root children t None)
    as (rest & Hasm & Hrest & _); [apply assembling_start|done|done|].
  rewrite (proj1 Hrest eq_refl) in Hasm.
  pose proof (asm_ids _ _ _ _ Hasm) as Hids.
  pose proof (asm_edges _ _ _ _ Hasm) as Hedges.
  rewrite app_nil_r in Hids, Hedges.
  split_and!; [by apply (asm_Span _ _ _ _ Hasm)|done..|].
  intros c Hc.
  assert ((parentID c, trace_Span c) ∈ edges t) as He.
  { rewrite Hedges, elem_of_app. right. apply list_elem_of_bind.
    exists c. split; [by left|done]. }
  apply edges_isNode in He as (n & c' & Hn & Hc' & [= Hid HSpan]).
  by exists n, c'.
Qed.

(** X3. [addChildren] is not atomic: when it returns [errMaxRetries], the
    tree handed in has been extended all the same. It then holds the nodes
    of [root] and of every attachable child, and nothing else; the children
    left over are those that are not attachable. *)
Theorem addChildren_failure_keeps_partial_tree root children t :
  addChildren root children = Ok (t, Some errMaxRetries) →
  trace_Span t = trace_Span root ∧
  (∀ c x, c ∈ children → attachable root children c → x ∈ ids c → x ∈ ids t) ∧
  onlyAttachable root children t ∧
  ∃ rest,
    rest ≠ [] ∧
    (∀ c, c ∈ rest → c ∈ children ∧ ¬ attachable root children c) ∧
    ids t ++ (rest ≫= ids) ≡ₚ ids root ++ (children ≫= ids).
Proof.
  intros Ht.
  destruct (addChildren_loop_final root children (length children) root children
              t (Some errMaxRetries))
    as (rest & Hasm & Hrest & Hnot); [apply assembling_start|done|done|].
  split_and!.
  - by apply (asm_Span _ _ _ _ Hasm).
  - intros c x Hc Hattachable Hx.
    destruct (asm_done _ _ _ _ Hasm c Hc) as [Hin|[_ Hids]]; [|by apply Hids].
    by destruct (Hnot c Hin).
  - by apply (asm_only _ _ _ _ Hasm).
  - exists rest. split_and!.
    + intros Hnil. by apply Hrest in Hnil.
    + intros c Hc. split; [by apply (asm_rest _ _ _ _ Hasm)|by apply Hnot].
    + by apply (asm_ids _ _ _ _ Hasm).
Qed.

(** ** Field maps *)

(** X4. Whatever the order in which the map [src] is ranged over,
    [extendFields dst src] has the keys of [dst] and no other; a key that
    [src] has too takes the value of [src], the others keep theirs. *)
Theorem extendFields_replaces_only (dst src : pointFields) :
  extendFields dst src = map_imap (fun k v => Some (default v (src !! k))) dst ∧
  dom (extendFields dst src) = dom dst ∧
  (∀ k v, src !! k = Some v → is_Some (dst !! k) → extendFields dst src !! k = Some v) ∧
  (∀ k, src !! k = None → extendFields dst src !! k = dst !! k).
Proof using range_order_perm.
  split_and!.
  - apply map_eq. intros k. rewrite extendFields_lookup, map_lookup_imap.
    by destruct (dst !! k).
  - apply set_eq. intros k. rewrite !elem_of_dom, extendFields_lookup.
    destruct (dst !! k); [split; eauto|done].
  - intros k v Hsrc [w Hdst]. by rewrite extendFields_lookup, Hdst, Hsrc.
  - intros k Hsrc. rewrite extendFields_lookup, Hsrc. by destruct (dst !! k).
Qed.

(** X5. Whatever the order in which the map is ranged over,
    [withoutEmptyFields] keeps exactly the entries whose value is neither
    [nil] nor the empty string; applying it twice changes nothing more. *)
Theorem withoutEmptyFields_filters (pf : pointFields) :
  withoutEmptyFields pf = filter (fun kv => emptyField kv.2 = false) pf ∧
  (∀ k v, withoutEmptyFields pf !! k = Some v ↔ pf !! k = Some v ∧ emptyField v = false) ∧
  withoutEmptyFields (withoutEmptyFields pf) = withoutEmptyFields pf.
Proof using range_order_perm.
  assert (∀ pf k v, withoutEmptyFields pf !! k = Some v
                    ↔ pf !! k = Some v ∧ emptyField v = false) as Hlookup.
  { intros pf' k v. rewrite withoutEmptyFields_lookup.
    destruct (pf' !! k) as [[|s|ty]|]; simpl.
    - split; [done|]. by intros [[= <-] ?].
    - destruct (String.eqb s "") eqn:E.
      + split; [done|]. intros [[= <-] Hv]. simpl in Hv. congruence.
      + split; [intros [= <-]; by simpl|]. by intros [[= <-] _].
    - split; [by intros [= <-]|]. by intros [[= <-] _].
    - split; [done|]. by intros [? _]. }
  split_and!.
  - apply map_eq. intros k. apply option_eq. intros v.
    rewrite Hlookup, map_lookup_filter_Some. done.
  - apply Hlookup.
  - apply map_eq. intros k. apply option_eq. intros v.
    rewrite !Hlookup. split; [by intros [[? _] ?]|by intros [? ?]].
Qed.

(** ** Schema manifests *)

(** X6. [mergeSchemasField] fails exactly when one of its inputs is
    neither a string nor [nil]; the error names the type of the first such
    input, [new] before [old]. *)
Theorem mergeSchemasField_type_error (new old : iface) :
  (∀ ty, new = IOther ty →
     mergeSchemasField new old
     = Err (errors_New ("unexpected schema field type: " +:+ ty))) ∧
  (∀ ty, stringOrNil new → old = IOther ty →
     mergeSchemasField new old
     = Err (errors_New ("unexpected schema field type: " +:+ ty))) ∧
  ((∃ merged, mergeSchemasField new old = Ok merged) ↔
   stringOrNil new ∧ stringOrNil old).
Proof.
  split_and!.
  - intros ty ->. by destruct old.
  - intros ty Hnew ->. by destruct new.
  - split.
    + intros [merged Hmerged]. by destruct new, old.
    + intros [Hnew Hold]. destruct new, old; try done; by eexists.
Qed.

(** X7. Merging manifests does not depend on the side a manifest is
    given on, up to the order of the names; and merging a manifest again
    with the result of a merge it took part in adds nothing. *)
Theorem mergeSchemasField_algebra (new old : iface) :
  stringOrNil new → stringOrNil old →
  ∃ names swapped again,
    mergeSchemasField new old = Ok (Join names schemasFieldSeparator) ∧
    mergeSchemasField old new = Ok (Join swapped schemasFieldSeparator) ∧
    names ≡ₚ swapped ∧
    mergeSchemasField new (IString (Join names schemasFieldSeparator))
    = Ok (Join again schemasFieldSeparator) ∧
    (names ≠ [""] → again ≡ₚ names).
Proof using range_order_perm.
  intros Hnew Hold.
  destruct (mergeSchemasField_union new old Hnew Hold)
    as (names & Hmerge & Hnd & Hnames & Hread).
  destruct (mergeSchemasField_union old new Hold Hnew)
    as (swapped & Hmerge' & Hnd' & Hnames' & _).
  destruct (mergeSchemasField_union new (IString (Join names schemasFieldSeparator)) Hnew I)
    as (again & Hmerge'' & Hnd'' & Hnames'' & _).
  exists names, swapped, again. split_and!; [done..| |done|].
  - apply NoDup_Permutation; [done..|]. intros s. rewrite Hnames, Hnames'.
    split; (intros [?|?]; [by right|by left]).
  - intros Hne. apply NoDup_Permutation; [done..|]. intros s.
    rewrite Hnames''. cbn [fieldElems]. rewrite (Hread Hne), Hnames.
    split; [intros [?|?]; [by left|done]|intros ?; by right].
Qed.

(** X8. What [schemasFromAnnotations] writes, [filterSchemas] reads: when
    the manifest annotation of a decoded record holds the manifest of the
    submission [anns], a prefixed annotation of the record is kept exactly
    when its schema name is a separator-split part of a schema name of the
    submission (or is empty, when the submission has no schema at all). In
    particular every separator-free schema name submitted is kept. *)
Theorem filterSchemas_keeps_collected (anns decoded : list Annotation) manifest :
  findSchemasAnnotation decoded = Some manifest →
  Value manifest = schemasFromAnnotations anns →
  ∃ kept,
    filterSchemas decoded = Ok kept ∧
    ∀ a, a ∈ decoded → hasSchemaPrefix a = true →
      (a ∈ kept ↔
         (schemaNames anns = [] ∧ schemaName a = "") ∨
         (∃ n, n ∈ schemaNames anns ∧ schemaName a ∈ Split n sepByte)) ∧
      (schemaName a ∈ schemaNames anns →
       containsByte sepByte (schemaName a) = false → a ∈ kept).
Proof.
  intros Hfind Hvalue. exists (filter (keptBy manifest) decoded).
  split. { unfold filterSchemas. rewrite Hfind. f_equal. apply filterSchemas_loop. }
  intros a Ha Hprefix.
  assert (a ∈ filter (keptBy manifest) decoded
          ↔ schemaName a ∈ Split (Join (schemaNames anns) schemasFieldSeparator) sepByte)
    as Hkept.
  { rewrite list_elem_of_filter. unfold keptBy.
    rewrite Hvalue, schemasFromAnnotations_Join.
    split; [intros [H _]; by apply H|by intros ?]. }
  assert (schemaNames anns ≠ [] →
          ∀ s, s ∈ Split (Join (schemaNames anns) schemasFieldSeparator) sepByte
               ↔ ∃ n, n ∈ schemaNames anns ∧ s ∈ Split n sepByte) as Hsplit.
  { intros Hne s. rewrite Split_Join by done.
    rewrite list_elem_of_In, in_concat. split.
    - intros (l & Hl & Hs). apply list_elem_of_In, list_elem_of_fmap in Hl as (n & -> & Hn).
      exists n. split; [done|]. by apply list_elem_of_In.
    - intros (n & Hn & Hs). exists (Split n sepByte).
      split; [|by apply list_elem_of_In].
      apply list_elem_of_In, list_elem_of_fmap. by exists n. }
  split.
  - rewrite Hkept. destruct (schemaNames anns) as [|n0 names] eqn:Hnames.
    + simpl. rewrite list_elem_of_singleton. split.
      * intros ->. by left.
      * intros [[_ ->]|(n & Hn & _)]; [done|by apply elem_of_nil in Hn].
    + rewrite <- Hnames in *. rewrite Hsplit by (by rewrite Hnames). split.
      * intros ?. by right.
      * intros [[Hnil _]|?]; [by rewrite Hnames in Hnil|done].
  - intros Hin Hfree. apply Hkept, Hsplit.
    + intros Hnil. rewrite Hnil in Hin. by apply elem_of_nil in Hin.
    + exists (schemaName a). split; [done|]. rewrite Split_no_separator by done. by left.
Qed.

(** ** Record codec *)

Lemma annotationsFromRow_fields_Ok columns fields i acc anns :
  (i ≤ length columns)%nat →
  annotationsFromRow_fields columns i fields acc = Ok anns ↔
  (i + length fields ≤ length columns)%nat ∧
  Forall stringOrNil fields ∧
  anns = acc ++ zip_with mkAnnotation (drop i columns) (fieldValue <$> fields).
Proof.
  revert i acc. induction fields as [|field fields IH]; intros i acc Hi; simpl.
  - rewrite zip_with_nil_r, app_nil_r. split.
    + intros [= <-]. split_and!; [lia|done..].
    + by intros (_ & _ & ->).
  - destruct (columns !! i) as [key|] eqn:Hkey.
    + pose proof (lookup_lt_Some _ _ _ Hkey) as Hlt.
      rewrite (drop_S _ _ _ Hkey). simpl.
      assert (∀ value,
                annotationsFromRow_fields columns (S i) fields
                  (acc ++ [mkAnnotation key value]) = Ok anns ↔
                (i + S (length fields) ≤ length columns)%nat ∧
                Forall stringOrNil fields ∧
                anns = acc ++ mkAnnotation key value
                         :: zip_with mkAnnotation (drop (S i) columns) (fieldValue <$> fields))
        as Hrest.
      { intros value. rewrite IH by lia. rewrite <- app_assoc. simpl.
        by rewrite Nat.add_succ_r. }
      destruct field as [|s|ty]; simpl.
      * rewrite Hrest, Forall_cons. split; [intros (? & ? & ?)|intros (? & [_ ?] & ?)]; done.
      * rewrite Hrest, Forall_cons. split; [intros (? & ? & ?)|intros (? & [_ ?] & ?)]; done.
      * split; [done|]. intros (_ & Hall & _). by apply Forall_cons in Hall as [[] _].
    + apply lookup_ge_None in Hkey. split; [done|]. intros (? & _). lia.
Qed.

Lemma annotationsFromRow_fields_Panic columns fields i acc p :
  (i ≤ length columns)%nat →
  annotationsFromRow_fields columns i fields acc = Panic p ↔
  p = index_out_of_range ∧
  (length columns < i + length fields)%nat ∧
  Forall stringOrNil (take (length columns - i) fields).
Proof.
  revert i acc. induction fields as [|field fields IH]; intros i acc Hi; simpl.
  - split; [done|]. intros (_ & ? & _). lia.
  - destruct (columns !! i) as [key|] eqn:Hkey.
    + pose proof (lookup_lt_Some _ _ _ Hkey) as Hlt.
      replace (length columns - i)%nat with (S (length columns - S i)) by lia.
      rewrite firstn_cons, Forall_cons.
      destruct field as [|s|ty]; simpl.
      * rewrite IH by lia. split.
        -- intros (? & ? & ?). split_and!; [done|lia|done..].
        -- intros (? & ? & _ & ?). split_and!; [done|lia|done].
      * rewrite IH by lia. split.
        -- intros (? & ? & ?). split_and!; [done|lia|done..].
        -- intros (? & ? & _ & ?). split_and!; [done|lia|done].
      * split; [done|]. by intros (_ & _ & [] & _).
    + apply lookup_ge_None in Hkey.
      replace (length columns - i)%nat with 0%nat by lia. simpl. split.
      * intros [= <-]. split_and!; [done|lia|done].
      * by intros (-> & _).
Qed.

Lemma annotationsFromRow_fields_Err columns fields i acc e :
  (i ≤ length columns)%nat →
  annotationsFromRow_fields columns i fields acc = Err e ↔
  ∃ j ty, fields !! j = Some (IOther ty) ∧
          (i + j < length columns)%nat ∧
          Forall stringOrNil (take j fields) ∧
          e = errors_New ("unexpected field type: " +:+ ty).
Proof.
  revert i acc. induction fields as [|field fields IH]; intros i acc Hi; simpl.
  - split; [done|]. by intros (j & ty & ? & _).
  - assert (∀ acc',
              annotationsFromRow_fields columns (S i) fields acc' = Err e →
              stringOrNil field → (i < length columns)%nat →
              ∃ j ty, (field :: fields) !! j = Some (IOther ty) ∧
                      (i + j < length columns)%nat ∧
                      Forall stringOrNil (take j (field :: fields)) ∧
                      e = errors_New ("unexpected field type: " +:+ ty)) as Hfwd.
    { intros acc' H Hfield ?. apply IH in H as (j & ty & Hj & ? & ? & ->); [|lia].
      exists (S j), ty. simpl. split_and!; [done|lia| |done]. by apply Forall_cons. }
    assert (∀ acc',
              (∃ j ty, (field :: fields) !! j = Some (IOther ty) ∧
                       (i + j < length columns)%nat ∧
                       Forall stringOrNil (take j (field :: fields)) ∧
                       e = errors_New ("unexpected field type: " +:+ ty)) →
              stringOrNil field → (i < length columns)%nat →
              annotationsFromRow_fields columns (S i) fields acc' = Err e) as Hbwd.
    { intros acc' (j & ty & Hj & ? & Hall & ->) Hfield ?. apply IH; [lia|].
      destruct j as [|j]; [simpl in Hj; injection Hj as ->; done|].
      simpl in Hj, Hall. apply Forall_cons in Hall as [_ Hall].
      exists j, ty. split_and!; [done|lia|done..]. }
    destruct (columns !! i) as [key|] eqn:Hkey.
    + pose proof (lookup_lt_Some _ _ _ Hkey) as Hlt.
      destruct field as [|s|ty]; simpl.
      * split; [intros ?; by eapply Hfwd|intros ?; by apply Hbwd].
      * split; [intros ?; by eapply Hfwd|intros ?; by apply Hbwd].
      * split.
        -- intros [= <-]. exists 0%nat, ty. simpl. split_and!; [done|lia|done..].
        -- intros (j & ty' & Hj & _ & Hall & ->).
           destruct j as [|j]; [simpl in Hj; by injection Hj as ->|].
           simpl in Hall. by apply Forall_cons in Hall as [[] _].
    + apply lookup_ge_None in Hkey. split; [done|].
      intros (j & ty & _ & ? & _). lia.
Qed.

(** X9. What [annotationsFromRow] does with a row. A row with more than one
    value slice is refused. Otherwise the row is decoded exactly when it has
    a column for every field and every field is a string or [nil], into one
    annotation per field, in column order, keyed by the column, [nil]
    giving the empty value; it panics (index out of range) exactly when the
    fields outnumber the columns and every field that has a column is a
    string or [nil]; and it returns the type error of the first field of
    another type when that field has a column. *)
Theorem annotationsFromRow_decodes (r : Row) :
  ((1 < length (Values r))%nat →
   annotationsFromRow r = Err (errors_New "unexpected multiple row values")) ∧
  ((length (Values r) ≤ 1)%nat →
   (∀ anns,
      annotationsFromRow r = Ok anns ↔
      (length (rowFields r) ≤ length (Columns r))%nat ∧
      Forall stringOrNil (rowFields r) ∧
      anns = zip_with mkAnnotation (Columns r) (fieldValue <$> rowFields r)) ∧
   (∀ p,
      annotationsFromRow r = Panic p ↔
      p = index_out_of_range ∧
      (length (Columns r) < length (rowFields r))%nat ∧
      Forall stringOrNil (take (length (Columns r)) (rowFields r))) ∧
   (∀ e,
      annotationsFromRow r = Err e ↔
      ∃ j ty, rowFields r !! j = Some (IOther ty) ∧
              (j < length (Columns r))%nat ∧
              Forall stringOrNil (take j (rowFields r)) ∧
              e = errors_New ("unexpected field type: " +:+ ty))).
Proof.
  unfold annotationsFromRow. fold (rowFields r). split.
  - intros Hlen. by rewrite decide_True.
  - intros Hlen. rewrite decide_False by lia. split_and!.
    + intros anns. rewrite annotationsFromRow_fields_Ok by lia. done.
    + intros p. rewrite annotationsFromRow_fields_Panic by lia.
      by rewrite Nat.sub_0_r.
    + intros e. rewrite annotationsFromRow_fields_Err by lia. done.
Qed.

Lemma findSpanPoint_fields_lookup columns (all : list iface) fields i q p :
  NoDup columns →
  fields = drop i all →
  (∀ k v, Fields q !! k = Some v ↔
          ∃ j s, (j < i)%nat ∧ columns !! j = Some k ∧
                 all !! j = Some (IString s) ∧ v = IString s) →
  findSpanPoint_fields columns i fields q = Ok p →
  Measurement p = Measurement q ∧ Tags p = Tags q ∧
  ∀ k v, Fields p !! k = Some v ↔
         ∃ j s, columns !! j = Some k ∧ all !! j = Some (IString s) ∧ v = IString s.
Proof.
  intros Hnd. revert i q.
  induction fields as [|field fields IH]; intros i q Hfields Hq; simpl.
  - intros [= <-]. split_and!; [done..|]. intros k v. rewrite Hq.
    symmetry in Hfields. apply drop_nil_inv in Hfields.
    split.
    + intros (j & s & _ & ? & ? & ?). by exists j, s.
    + intros (j & s & ? & Hj & ?). exists j, s. split_and!; [|done..].
      apply lookup_lt_Some in Hj. lia.
  - assert (all !! i = Some field ∧ fields = drop (S i) all) as [Hi Hrest].
    { split.
      - pose proof (lookup_drop all i 0) as H.
        rewrite <- Hfields, Nat.add_0_r in H. by symmetry.
      - pose proof (drop_drop all 1 i) as H.
        rewrite <- Hfields, Nat.add_1_r in H. exact H. }
    destruct (columns !! i) as [key|] eqn:Hkey; [|done].
    destruct field as [|s|ty]; [| |done].
    + apply IH; [done|]. intros k v. rewrite Hq. split.
      * intros (j & s & ? & ? & ? & ?). exists j, s. split_and!; [lia|done..].
      * intros (j & s & Hj & ? & Hs & ?). exists j, s. split_and!; [|done..].
        destruct (decide (j = i)) as [->|]; [|lia]. by rewrite Hi in Hs.
    + intros (q' & Hq' & Hp)%bind_Ok.
      assert (Measurement q' = Measurement q ∧ Tags q' = Tags q ∧ Fields q' = Fields q)
        as (Hm & Ht & Hf).
      { destruct (String.eqb key "time"); [|by injection Hq' as <-].
        by apply bind_Ok in Hq' as (t & _ & [= <-]). }
      apply IH in Hp as (Hm' & Ht' & Hlookup); [|done|].
      { simpl in Hm', Ht'. split_and!; [congruence..|done]. }
      simpl. intros k v. rewrite Hf. destruct (decide (k = key)) as [->|Hne].
      * rewrite lookup_insert_eq. split.
        -- intros [= <-]. exists i, s. split_and!; [lia|done..].
        -- intros (j & s' & _ & Hj & Hs & ->).
           rewrite (NoDup_lookup _ _ _ _ Hnd Hj Hkey), Hi in Hs. by injection Hs as ->.
      * rewrite lookup_insert_ne by done. rewrite Hq. split.
        -- intros (j & s' & ? & ? & ? & ?). exists j, s'. split_and!; [lia|done..].
        -- intros (j & s' & Hj & Hk & ? & ?). exists j, s'. split_and!; [|done..].
           destruct (decide (j = i)) as [->|]; [|lia]. rewrite Hkey in Hk. by injection Hk.
Qed.

(** X10. The point that [findSpanPoint] decodes from the only row of the
    answer, when the columns of the row are distinct: its fields are exactly
    the string values of the first value slice, keyed by their columns
    ([nil] values give no field); it carries no tag and no measurement
    name; and its timestamp is the parsed value of the field ["time"]. *)
Theorem findSpanPoint_reads_first_values id result r fields more p :
  executeOneQuery (SelectSpanPoint id) = Ok result →
  Series result = [r] →
  Values r = fields :: more →
  NoDup (Columns r) →
  findSpanPoint id = Ok (Some p) →
  (∀ k v, Fields p !! k = Some v ↔
          ∃ j s, Columns r !! j = Some k ∧ fields !! j = Some (IString s) ∧
                 v = IString s) ∧
  Tags p = ∅ ∧ Measurement p = "" ∧
  match Fields p !! "time" with
  | Some (IString s) => time_Parse s = Ok (PTime p)
  | _ => PTime p = 0%Z
  end.
Proof.
  intros Hquery Hseries Hvalues Hnd Hfind.
  pose proof (findSpanPoint_decoded _ _ Hfind) as [_ Htime].
  unfold findSpanPoint in Hfind. rewrite Hquery in Hfind. simpl in Hfind.
  rewrite Hseries, Hvalues in Hfind.
  apply bind_Ok in Hfind as (p' & Hp' & [= ->]).
  eapply (findSpanPoint_fields_lookup _ fields) in Hp' as (Hm & Ht & Hlookup);
    [|done|done|].
  - done.
  - intros k v. simpl. rewrite lookup_empty. split; [done|].
    intros (j & s & ? & _). lia.
Qed.

Lemma findSpanPoint_fields_Ok columns fields i p :
  (i ≤ length columns)%nat →
  (∃ p', findSpanPoint_fields columns i fields p = Ok p') ↔
  (i + length fields ≤ length columns)%nat ∧
  Forall stringOrNil fields ∧
  ∀ j s, columns !! (i + j)%nat = Some "time" → fields !! j = Some (IString s) →
         ∃ t, time_Parse s = Ok t.
Proof.
  revert i p. induction fields as [|field fields IH]; intros i p Hi; simpl.
  - split.
    + intros _. split_and!; [lia|done|]. by intros j s _ ?.
    + intros _. by exists p.
  - destruct (columns !! i) as [key|] eqn:Hkey.
    2: { apply lookup_ge_None in Hkey. split; [by intros [? ?]|]. intros (? & _). lia. }
    pose proof (lookup_lt_Some _ _ _ Hkey) as Hlt.
    assert (∀ q,
              (∀ s, key = "time" → field = IString s → ∃ t, time_Parse s = Ok t) →
              stringOrNil field →
              (∃ p', findSpanPoint_fields columns (S i) fields q = Ok p') ↔
              (i + S (length fields) ≤ length columns)%nat ∧
              Forall stringOrNil (field :: fields) ∧
              ∀ j s, columns !! (i + j)%nat = Some "time" →
                     (field :: fields) !! j = Some (IString s) →
                     ∃ t, time_Parse s = Ok t) as Hrest.
    { intros q Hhead Hfield. rewrite IH by lia. rewrite Forall_cons. split.
      - intros (Hlen & Hall & Htimes). split_and!; [lia|done|done|].
        intros [|j] s Hcol Hj.
        + rewrite Nat.add_0_r, Hkey in Hcol. injection Hcol as ->.
          injection Hj as ->. by apply Hhead.
        + rewrite Nat.add_succ_r in Hcol. by apply (Htimes j).
      - intros (Hlen & [_ Hall] & Htimes). split_and!; [lia|done|].
        intros j s Hcol Hj. apply (Htimes (S j)); [by rewrite Nat.add_succ_r|done]. }
    destruct field as [|s|ty].
    + apply Hrest; [by intros s _ ?|done].
    + destruct (String.eqb key "time") eqn:Etime.
      * apply String_eqb_true in Etime as ->.
        destruct (time_Parse s) as [t| |] eqn:Ht; cbn [bind].
        -- apply Hrest; [|done]. intros s' _ [= <-]. by exists t.
        -- split; [by intros [? ?]|]. intros (_ & _ & Htimes).
           destruct (Htimes 0%nat s) as [t ?]; [by rewrite Nat.add_0_r|done|congruence].
        -- split; [by intros [? ?]|]. intros (_ & _ & Htimes).
           destruct (Htimes 0%nat s) as [t ?]; [by rewrite Nat.add_0_r|done|congruence].
      * apply String_eqb_false in Etime. cbn [bind].
        apply Hrest; [by intros s' ? _|done].
    + split; [by intros [? ?]|]. intros (_ & Hall & _).
      by apply Forall_cons in Hall as [[] _].
Qed.

(** X21. The outcomes of [findSpanPoint] once its query is answered. No
    series: no record, and no error. Several series, or a series without
    values: an error. One series with values: only the first value slice
    is read, and a record is returned exactly when the row has a column for
    each of its fields, every field is a string or [nil], and every string
    under the column ["time"] parses as a time; the answer is then never
    "no record". *)
Theorem findSpanPoint_outcomes id result :
  executeOneQuery (SelectSpanPoint id) = Ok result →
  (Series result = [] → findSpanPoint id = Ok None) ∧
  ((1 < length (Series result))%nat →
   findSpanPoint id = Err (errors_New "unexpected multiple series")) ∧
  (∀ r, Series result = [r] → Values r = [] →
        findSpanPoint id = Err (errors_New "unexpected empty series")) ∧
  (∀ r fields more, Series result = [r] → Values r = fields :: more →
     findSpanPoint id ≠ Ok None ∧
     ((∃ p, findSpanPoint id = Ok (Some p)) ↔
      (length fields ≤ length (Columns r))%nat ∧
      Forall stringOrNil fields ∧
      ∀ j s, Columns r !! j = Some "time" → fields !! j = Some (IString s) →
             ∃ t, time_Parse s = Ok t)).
Proof.
  intros Hquery. unfold findSpanPoint. rewrite Hquery. cbn [bind]. split_and!.
  - by intros ->.
  - intros Hlen. by destruct (Series result) as [|? [|? ?]]; [simpl in Hlen; lia..|].
  - by intros r -> ->.
  - intros r fields more -> ->.
    pose proof (findSpanPoint_fields_Ok (Columns r) fields 0 (mkPoint "" ∅ ∅ 0%Z)
                  ltac:(lia)) as Hfields.
    destruct (findSpanPoint_fields _ _ _ _) as [p| |] eqn:Hp; cbn [bind].
    + split; [done|]. rewrite <- Hfields. split; [by exists p|by exists p].
    + split; [done|]. rewrite <- Hfields. split; [by intros [? ?]|by intros [? ?]].
    + split; [done|]. rewrite <- Hfields. split; [by intros [? ?]|by intros [? ?]].
Qed.

(** ** Retrieval *)

Lemma Trace_loop_panic (rows : list Row) p :
  foldl (fun acc s => do st <- acc; Trace_step st s) (Panic p) rows = Panic p.
Proof. induction rows as [|r rows IH]; [done|]. simpl. apply IH. Qed.

Lemma foldl_bind_Panic {A B} (f : A → B → result A) (l : list B) p :
  foldl (fun acc s => do a <- acc; f a s) (Panic p) l = Panic p.
Proof. induction l as [|x l IH]; [done|]. simpl. apply IH. Qed.

(** X11. A row that has no column ["schemas"] -- in particular a row
    without any value -- and is otherwise well formed (its identifiers
    parse, it has a column for each field, and its fields are strings or
    [nil]) makes [newSpanFromRow] panic on a nil-pointer dereference, and
    with it [Trace] and [Traces] when it is the first row of their query:
    no error is returned. *)
Theorem newSpanFromRow_panics_without_manifest_column r traceID spanID' parentID' :
  ParseID (index_tags (RowTags r) "trace_id") = Ok traceID →
  ParseID (index_tags (RowTags r) "span_id") = Ok spanID' →
  ParseID (index_tags (RowTags r) "parent_id") = Ok parentID' →
  (length (Values r) ≤ 1)%nat →
  (length (rowFields r) ≤ length (Columns r))%nat →
  Forall stringOrNil (rowFields r) →
  schemasFieldName ∉ Columns r →
  newSpanFromRow r = Panic nil_dereference ∧
  (∀ id result rows,
     executeOneQuery (SelectTrace id) = Ok result →
     Series result = r :: rows →
     InfluxDBStore_Trace id = Panic nil_dereference) ∧
  (∀ result rows,
     executeOneQuery (SelectRootSpans tracesPerPage) = Ok result →
     Series result = r :: rows →
     InfluxDBStore_Traces = Panic nil_dereference).
Proof.
  intros Htrace Hspan Hparent Hvalues Hlen Hfields Hcolumn.
  assert (newSpanFromRow r = Panic nil_dereference) as Hpanic.
  { unfold newSpanFromRow. rewrite Htrace, Hspan, Hparent. cbn [bind].
    assert (annotationsFromRow r
            = Ok (zip_with mkAnnotation (Columns r) (fieldValue <$> rowFields r)))
      as ->.
    { unfold annotationsFromRow. fold (rowFields r). rewrite decide_False by lia.
      apply annotationsFromRow_fields_Ok; [lia|]. split_and!; [lia|done..]. }
    cbn [bind]. unfold filterSchemas.
    destruct (findSchemasAnnotation _) as [manifest|] eqn:Hfind; [|done].
    apply findSchemasAnnotation_Some in Hfind as [Hin Hkey].
    apply elem_of_lookup_zip_with in Hin as (i & key & value & -> & Hi & _).
    simpl in Hkey. subst key. destruct Hcolumn. by eapply list_elem_of_lookup_2. }
  split_and!; [done| |].
  - intros id result rows Hquery Hseries.
    unfold InfluxDBStore_Trace. rewrite Hquery. cbn [bind]. rewrite Hseries.
    cbn [foldl bind]. unfold Trace_step at 2. rewrite Hpanic. cbn [bind].
    by rewrite Trace_loop_panic.
  - intros result rows Hquery Hseries.
    unfold InfluxDBStore_Traces. rewrite Hquery. cbn [bind]. rewrite Hseries.
    cbn [foldl bind]. rewrite Hpanic. cbn [bind].
    by rewrite foldl_bind_Panic.
Qed.

(** ** Collection *)

Lemma submitted_is_Some anns k :
  (∃ v, submitted anns k = Some v) ↔ ∃ a, a ∈ anns ∧ Key a = k.
Proof.
  induction anns as [|a anns IH]; simpl.
  - split; [by intros [v ?]|]. by intros (a & ?%elem_of_nil & _).
  - destruct (submitted anns k) as [v|] eqn:E.
    + split; [|by eauto]. intros _.
      destruct (proj1 IH) as (a' & ? & ?); [by eauto|].
      exists a'. split; [by right|done].
    + destruct (String.eqb (Key a) k) eqn:Hk.
      * apply String_eqb_true in Hk. split; [|by eauto].
        intros _. exists a. split; [by left|done].
      * apply String_eqb_false in Hk. split; [by intros [v ?]|].
        intros (a' & [->|Hin]%elem_of_cons & Ha'); [done|].
        apply IH. by exists a'.
Qed.

(** X12. [Collect] as a whole. When the lookup of the span fails, the
    failure is the answer and nothing is written. Otherwise exactly one
    batch is handed to the store, whatever the stored record and the
    submission are (merging the manifests cannot fail there): it names the
    store's database and holds one point, of the measurement ["spans"],
    tagged with the three identifiers, whose fields are all strings and
    whose keys are the submitted keys and ["schemas"]; and the answer of
    [Collect] is the answer of that write. *)
Theorem Collect_writes_one_string_point id anns now :
  (∀ e, findSpanPoint id = Err e →
        InfluxDBStore_Collect id anns now = ([], Err e)) ∧
  (∀ p, findSpanPoint id = Panic p →
        InfluxDBStore_Collect id anns now = ([], Panic p)) ∧
  (∀ stored, findSpanPoint id = Ok stored →
     ∃ pt,
       InfluxDBStore_Collect id anns now
       = ([mkBatchPoints [pt] dbName],
          match con_Write (mkBatchPoints [pt] dbName) with
          | Some writeErr => Err writeErr
          | None => Ok tt
          end) ∧
       Measurement pt = spanMeasurementName ∧
       Tags pt = <["parent_id" := ID_String (id_Parent id)]>
                   (<["span_id" := ID_String (id_Span id)]>
                      (<["trace_id" := ID_String (id_Trace id)]> ∅)) ∧
       (∀ k v, Fields pt !! k = Some v → ∃ s, v = IString s) ∧
       (∀ k, is_Some (Fields pt !! k) ↔
             k = schemasFieldName ∨ ∃ a, a ∈ anns ∧ Key a = k)).
Proof using range_order_perm.
  split_and!.
  - intros e Hfind. unfold InfluxDBStore_Collect, Collect_point. by rewrite Hfind.
  - intros p Hfind. unfold InfluxDBStore_Collect, Collect_point. by rewrite Hfind.
  - intros [p|] Hfind.
    + destruct (Collect_point_existing id anns now p Hfind)
        as (pt & names & Hpt & _ & _ & Hschemas & _ & _ & _ & Hfields).
      exists pt. unfold InfluxDBStore_Collect. rewrite Hpt. split; [done|].
      pose proof (findSpanPoint_decoded _ _ Hfind) as [Hstr _].
      unfold Collect_point in Hpt. rewrite Hfind in Hpt. cbn [bind] in Hpt.
      apply bind_Ok in Hpt as (merged & _ & [= Hpt]).
      split_and!; [by rewrite <- Hpt..| |].
      * intros k v. destruct (decide (k = schemasFieldName)) as [->|Hne].
        { rewrite Hschemas. intros [= <-]. eauto. }
        rewrite (Hfields k Hne), withoutEmptyFields_lookup.
        destruct (submitted anns k) as [new|]; [|done].
        destruct (Fields p !! k) as [old|] eqn:Hold; [|intros [= <-]; eauto].
        destruct (Hstr _ _ Hold) as [s ->].
        destruct (String.eqb s ""); intros [= <-]; eauto.
      * intros k. destruct (decide (k = schemasFieldName)) as [->|Hne].
        { rewrite Hschemas. split; [by left|by eauto]. }
        rewrite (Hfields k Hne), <- submitted_is_Some.
        destruct (submitted anns k) as [new|].
        -- split; [right; by eauto|by eauto].
        -- split; [by intros [? ?]|]. by intros [?|[? ?]].
    + exists (mkPoint spanMeasurementName
                (<["parent_id" := ID_String (id_Parent id)]>
                   (<["span_id" := ID_String (id_Span id)]>
                      (<["trace_id" := ID_String (id_Trace id)]> ∅)))
                (<[schemasFieldName := IString (schemasFromAnnotations anns)]>
                   (foldl (fun (fields : pointFields) ann =>
                             <[Key ann := IString (Value ann)]> fields) ∅ anns))
                now).
      unfold InfluxDBStore_Collect, Collect_point. rewrite Hfind. cbn [bind].
      split_and!; [done..| |]; cbn [Fields].
      * intros k v. destruct (decide (k = schemasFieldName)) as [->|Hne].
        { rewrite lookup_insert_eq. intros [= <-]. eauto. }
        rewrite lookup_insert_ne, Collect_fields_lookup, lookup_empty by done.
        destruct (submitted anns k); [intros [= <-]; eauto|done].
      * intros k. destruct (decide (k = schemasFieldName)) as [->|Hne].
        { rewrite lookup_insert_eq. split; [by left|by eauto]. }
        rewrite lookup_insert_ne, Collect_fields_lookup, lookup_empty by done.
        rewrite <- submitted_is_Some.
        destruct (submitted anns k) as [new|].
        -- split; [right; by eauto|by eauto].
        -- split; [by intros [? ?]|]. by intros [?|[? ?]].
Qed.

(** X13. Collecting the same annotations again changes no field: when the
    stored record holds, for every submitted key, the value submitted, and
    the manifest of the submission, the point written has for every key
    other than ["schemas"] the submitted value and no other field, and a
    manifest that lists the names of the submission's manifest, each
    once. *)
Theorem Collect_again_keeps_fields id anns now p :
  findSpanPoint id = Ok (Some p) →
  (∀ k v, k ≠ schemasFieldName → submitted anns k = Some v →
          Fields p !! k = Some (IString v)) →
  Fields p !! schemasFieldName = Some (IString (schemasFromAnnotations anns)) →
  ∃ pt names,
    Collect_point id anns now = Ok pt ∧
    (∀ k, k ≠ schemasFieldName → Fields pt !! k = IString <$> submitted anns k) ∧
    Fields pt !! schemasFieldName = Some (IString (Join names schemasFieldSeparator)) ∧
    NoDup names ∧
    (∀ s, s ∈ names ↔ s ∈ manifestElems (schemasFromAnnotations anns)).
Proof using range_order_perm.
  intros Hfind Hstored Hmanifest.
  destruct (Collect_point_existing id anns now p Hfind)
    as (pt & names & Hpt & _ & _ & Hschemas & Hnd & Hnames & _ & Hfields).
  exists pt, names. split_and!; [done| |done..|].
  - intros k Hk. rewrite (Hfields k Hk), withoutEmptyFields_lookup.
    destruct (submitted anns k) as [new|] eqn:Hnew; [|done].
    rewrite (Hstored k new Hk Hnew). simpl.
    destruct (String.eqb new "") eqn:E; [|done].
    by apply String_eqb_true in E as ->.
  - intros s. rewrite Hnames. unfold index_fields. rewrite Hmanifest. simpl.
    split; [by intros [?|?]|by left].
Qed.

Lemma spans_root_children (spans : list Span) :
  rootSpans spans ++ childSpans spans ≡ₚ spans.
Proof.
  unfold rootSpans, childSpans. induction spans as [|span spans IH]; [done|].
  rewrite !filter_cons. destruct (IsRoot (SpanID_of span)).
  - rewrite decide_True, decide_False by done. simpl. by f_equiv.
  - rewrite decide_False, decide_True by done.
    rewrite <- Permutation_middle. by f_equiv.
Qed.

Lemma leaves_ids (spans : list Span) :
  (leaf <$> spans) ≫= ids = (fun span => id_Span (SpanID_of span)) <$> spans.
Proof.
  induction spans as [|span spans IH]; [done|].
  by rewrite !fmap_cons, bind_cons, IH.
Qed.

Lemma leaves_childEdges (spans : list Span) :
  (leaf <$> spans) ≫= childEdges
  = (fun span => (id_Parent (SpanID_of span), span)) <$> spans.
Proof.
  induction spans as [|span spans IH]; [done|].
  by rewrite !fmap_cons, bind_cons, IH.
Qed.

(** X14. A tree returned by [Trace] holds every record of the query
    answer, each once: its root is the only root record, its nodes are the
    records (as many nodes as rows), and every other record is a sub-trace
    of the node whose span identifier is its parent identifier. *)
Theorem Trace_holds_every_record id result spans t :
  executeOneQuery (SelectTrace id) = Ok result →
  decodedRows (Series result) spans →
  InfluxDBStore_Trace id = Ok t →
  ∃ root,
    rootSpans spans = [root] ∧ trace_Span t = root ∧
    ids t ≡ₚ (fun span => id_Span (SpanID_of span)) <$> spans ∧
    length (ids t) = length (Series result) ∧
    edges t ≡ₚ (fun span => (id_Parent (SpanID_of span), span)) <$> childSpans spans ∧
    ∀ span, span ∈ childSpans spans →
      ∃ n c, isNode n t ∧ spanID n = id_Parent (SpanID_of span) ∧
             c ∈ Sub n ∧ trace_Span c = span.
Proof.
  intros Hquery Hdec Ht.
  assert (Series result ≠ []) as Hne.
  { intros Hnil. unfold InfluxDBStore_Trace in Ht. rewrite Hquery in Ht.
    cbn [bind] in Ht. by rewrite Hnil in Ht. }
  rewrite (Trace_decoded _ _ _ Hquery Hne Hdec), Trace_spans_root_unset in Ht.
  destruct (rootSpans spans) as [|root [|? ?]] eqn:Hroots; [| |done].
  { cbn [bind fst snd app] in Ht.
    destruct (addChildren zeroTrace (leaf <$> spans)) as [[t' [e|]]| |] eqn:Hadd;
      [done| |done..].
    cbn in Ht. injection Ht as ->.
    destruct (addChildren_loop_final zeroTrace (leaf <$> spans)
                (length (leaf <$> spans)) zeroTrace (leaf <$> spans) t None)
      as (rest & Hasm & Hrest & _); [apply assembling_start|done|done|].
    rewrite (proj1 Hrest eq_refl) in Hasm.
    destruct spans as [|span spans']; [by apply Forall2_nil_inv_r in Hdec|].
    destruct (asm_done _ _ _ _ Hasm (leaf span)) as [?%elem_of_nil|[Hatt _]];
      [by left|done|].
    destruct (zeroTrace_not_attachable (leaf <$> span :: spans') (leaf span)).
    - intros c Hc. apply childSpans_parent with (span :: spans').
      by rewrite rootSpans_nil_childSpans.
    - done.
    - by left. }
  cbn [bind fst snd app] in Ht.
  destruct (addChildren _ (leaf <$> childSpans spans)) as [[t' [e|]]| |] eqn:Hadd;
    [done| |done..].
  cbn in Ht. injection Ht as ->.
  destruct (addChildren_loop_final (mkTrace root (Sub zeroTrace))
              (leaf <$> childSpans spans)
              (length (leaf <$> childSpans spans)) (mkTrace root (Sub zeroTrace))
              (leaf <$> childSpans spans) t None)
    as (rest & Hasm & Hrest & _); [apply assembling_start|done|done|].
  rewrite (proj1 Hrest eq_refl) in Hasm.
  pose proof (asm_ids _ _ _ _ Hasm) as Hids.
  pose proof (asm_edges _ _ _ _ Hasm) as Hedges.
  rewrite app_nil_r, leaves_ids in Hids.
  rewrite app_nil_r, leaves_childEdges in Hedges.
  cbn in Hids, Hedges.
  assert (ids t ≡ₚ (fun span => id_Span (SpanID_of span)) <$> spans) as Hall.
  { rewrite Hids. rewrite <- (spans_root_children spans) at 2.
    by rewrite Hroots. }
  exists root. split_and!; [done|by apply (asm_Span _ _ _ _ Hasm)|done| |done|].
  - rewrite Hall, length_fmap. symmetry. by eapply Forall2_length.
  - intros span Hspan.
    assert ((id_Parent (SpanID_of span), span) ∈ edges t) as He.
    { rewrite Hedges. apply list_elem_of_fmap. by exists span. }
    apply edges_isNode in He as (n & c & Hn & Hc & [= Hid HSpan]).
    by exists n, c.
Qed.

(** ** Page retrieval *)

Lemma foldl_bind_Err {A B} (f : A → B → result A) (l : list B) e :
  foldl (fun acc s => do a <- acc; f a s) (Err e) l = Err e.
Proof. induction l as [|x l IH]; [done|]. simpl. apply IH. Qed.

(** The first loop of [Traces], on rows that decode into [spans]. *)
Lemma Traces_roots_loop rows spans (cache : gmap ID Trace) :
  decodedRows rows spans →
  (NoDup (traceOf <$> spans) ∧
   Forall (fun span => cache !! traceOf span = None) spans ∧
   foldl (fun acc s =>
            do tracesCache <- acc;
            do span <- newSpanFromRow s;
            match (tracesCache : gmap ID Trace) !! id_Trace (SpanID_of span) with
            | None => Ok (<[id_Trace (SpanID_of span) := mkTrace span []]> tracesCache)
            | Some _ => Err (errors_New "duplicated root span")
            end) (Ok cache) rows
   = Ok (foldl (fun c span => <[traceOf span := leaf span]> c) cache spans)) ∨
  (¬ (NoDup (traceOf <$> spans) ∧
      Forall (fun span => cache !! traceOf span = None) spans) ∧
   foldl (fun acc s =>
            do tracesCache <- acc;
            do span <- newSpanFromRow s;
            match (tracesCache : gmap ID Trace) !! id_Trace (SpanID_of span) with
            | None => Ok (<[id_Trace (SpanID_of span) := mkTrace span []]> tracesCache)
            | Some _ => Err (errors_New "duplicated root span")
            end) (Ok cache) rows
   = Err (errors_New "duplicated root span")).
Proof.
  intros Hdec. revert cache.
  induction Hdec as [|r span rows spans Hr _ IH]; intros cache.
  { left. split_and!; [constructor|constructor|done]. }
  cbn [foldl bind]. rewrite Hr. cbn [bind].
  fold (traceOf span). destruct (cache !! traceOf span) as [t|] eqn:Hcache.
  - right. split.
    + intros [_ Hall]. apply Forall_cons in Hall as [Hhead _]. congruence.
    + apply foldl_bind_Err.
  - destruct (IH (<[traceOf span := mkTrace span []]> cache))
      as [(Hnd & Hall & ->)|[Hnot ->]].
    + left. split_and!; [| |done].
      * rewrite fmap_cons. apply NoDup_cons. split; [|done].
        intros (span' & Heq & Hin)%list_elem_of_fmap.
        rewrite Forall_forall in Hall. specialize (Hall _ Hin).
        by rewrite <- Heq, lookup_insert_eq in Hall.
      * apply Forall_cons. split; [done|].
        rewrite Forall_forall in Hall |- *. intros span' Hin.
        specialize (Hall _ Hin).
        destruct (decide (traceOf span = traceOf span')) as [Heq|Hne].
        -- by rewrite <- Heq, lookup_insert_eq in Hall.
        -- by rewrite lookup_insert_ne in Hall.
    + right. split; [|done]. intros [Hnd Hall]. apply Hnot.
      rewrite fmap_cons in Hnd. apply NoDup_cons in Hnd as [Hhead Hnd].
      apply Forall_cons in Hall as [_ Hall]. split; [done|].
      rewrite Forall_forall in Hall |- *. intros span' Hin.
      rewrite lookup_insert_ne; [by apply Hall|].
      intros Heq. apply Hhead, list_elem_of_fmap. by exists span'.
Qed.

(** The cache that the first loop builds holds one entry per root
    record. *)
Lemma Traces_roots_cache spans (cache : gmap ID Trace) :
  NoDup (traceOf <$> spans) →
  Forall (fun span => cache !! traceOf span = None) spans →
  map_to_list (foldl (fun c span => <[traceOf span := leaf span]> c) cache spans)
  ≡ₚ (rootEntry <$> spans) ++ map_to_list cache.
Proof.
  revert cache. induction spans as [|span spans IH]; intros cache Hnd Hall; [done|].
  rewrite fmap_cons in Hnd. apply NoDup_cons in Hnd as [Hhead Hnd].
  apply Forall_cons in Hall as [Hspan Hall].
  cbn [foldl]. rewrite IH; [|done|].
  - rewrite map_to_list_insert by done. rewrite fmap_cons.
    by rewrite <- Permutation_middle.
  - rewrite Forall_forall in Hall |- *. intros span' Hin.
    rewrite lookup_insert_ne; [by apply Hall|].
    intros Heq. apply Hhead, list_elem_of_fmap. by exists span'.
Qed.

(** The second loop of [Traces], on rows that decode into [spans]: the
    records are grouped by trace, in order. *)
Lemma Traces_children_loop rows spans (cache : gmap ID Trace)
    (children : gmap ID (list Trace)) :
  decodedRows rows spans →
  (∀ k t, cache !! k = Some t → traceOf (trace_Span t) = k) →
  (Forall (fun span => is_Some (cache !! traceOf span)) spans ∧
   ∃ children',
     foldl (fun acc s =>
              do children <- acc;
              do span <- newSpanFromRow s;
              match cache !! id_Trace (SpanID_of span) with
              | None => Err (errors_New "parent not found")
              | Some trace =>
                  match (children : gmap ID (list Trace)) !! id_Trace (trace_ID trace) with
                  | None => Ok (<[id_Trace (trace_ID trace) := [mkTrace span []]]> children)
                  | Some t => Ok (<[id_Trace (trace_ID trace) := t ++ [mkTrace span []]]> children)
                  end
              end) (Ok children) rows
     = Ok children' ∧
     ∀ k, default [] (children' !! k)
          = default [] (children !! k) ++ (leaf <$> spansOfTrace k spans)) ∨
  (¬ Forall (fun span => is_Some (cache !! traceOf span)) spans ∧
   foldl (fun acc s =>
            do children <- acc;
            do span <- newSpanFromRow s;
            match cache !! id_Trace (SpanID_of span) with
            | None => Err (errors_New "parent not found")
            | Some trace =>
                match (children : gmap ID (list Trace)) !! id_Trace (trace_ID trace) with
                | None => Ok (<[id_Trace (trace_ID trace) := [mkTrace span []]]> children)
                | Some t => Ok (<[id_Trace (trace_ID trace) := t ++ [mkTrace span []]]> children)
                end
            end) (Ok children) rows
   = Err (errors_New "parent not found")).
Proof.
  intros Hdec Hcache.
  match goal with |- context [foldl ?f _ _] => set (F := f) end.
  revert children.
  induction Hdec as [|r span rows spans Hr _ IH]; intros children.
  { left. split; [constructor|]. exists children. split; [done|].
    intros k. by rewrite app_nil_r. }
  cbn [foldl].
  assert (F (Ok children) r
          = match cache !! traceOf span with
            | Some _ =>
                Ok (<[traceOf span := default [] (children !! traceOf span) ++ [leaf span]]>
                      children)
            | None => Err (errors_New "parent not found")
            end) as ->.
  { unfold F. cbn [bind]. rewrite Hr. cbn [bind]. fold (traceOf span).
    destruct (cache !! traceOf span) as [trace|] eqn:Htrace; [|done].
    assert (id_Trace (trace_ID trace) = traceOf span) as -> by apply (Hcache _ _ Htrace).
    cbn zeta. by destruct (children !! traceOf span). }
  destruct (cache !! traceOf span) as [trace|] eqn:Htrace.
  2: { right. split; [|apply foldl_bind_Err].
       intros Hall. apply Forall_cons in Hall as [[? ?] _]. congruence. }
  destruct (IH (<[traceOf span := default [] (children !! traceOf span) ++ [leaf span]]>
                  children))
    as [(Hall & children' & -> & Hgroups)|[Hnot ->]].
  - left. split; [apply Forall_cons; split; [by eexists|done]|].
    exists children'. split; [done|]. intros k. rewrite Hgroups.
    unfold spansOfTrace. rewrite filter_cons.
    destruct (decide (traceOf span = k)) as [<-|Hne].
    + rewrite lookup_insert_eq. cbn [from_option id]. by rewrite fmap_cons, <- app_assoc.
    + by rewrite lookup_insert_ne.
  - right. split; [|done]. intros Hall. apply Forall_cons in Hall as [_ Hall]. done.
Qed.

(** [addChildren] on a root and its children either attaches them all, or
    returns [errMaxRetries]. *)
Lemma addChildren_cases root children :
  (∃ t, addChildren root children = Ok (t, None)) ∨
  (∃ t, addChildren root children = Ok (t, Some errMaxRetries)).
Proof.
  destruct (addChildren_outcome root children) as [(t & ? & _)|(t & ? & _)]; eauto.
Qed.

(** The third loop of [Traces]: one call of [addChildren] per cached
    root, in range order. *)
Lemma Traces_final_loop (children : gmap ID (list Trace)) (l : list (ID * Trace))
    (acc : list Trace) :
  (∃ ts,
     foldl (fun acc (kv : ID * Trace) =>
              do traces <- acc;
              do trace <- match children !! id_Trace (trace_ID kv.2) with
                          | Some traceChildren =>
                              do (trace, err) <- addChildren kv.2 traceChildren;
                              match err with
                              | Some err => Err err
                              | None => Ok trace
                              end
                          | None => Ok kv.2
                          end;
              Ok (traces ++ [trace])) (Ok acc) l
     = Ok (acc ++ ts) ∧
     Forall2 (fun kv t =>
                addChildren kv.2 (default [] (children !! id_Trace (trace_ID kv.2)))
                = Ok (t, None)) l ts) ∨
  (foldl (fun acc (kv : ID * Trace) =>
            do traces <- acc;
            do trace <- match children !! id_Trace (trace_ID kv.2) with
                        | Some traceChildren =>
                            do (trace, err) <- addChildren kv.2 traceChildren;
                            match err with
                            | Some err => Err err
                            | None => Ok trace
                            end
                        | None => Ok kv.2
                        end;
            Ok (traces ++ [trace])) (Ok acc) l
   = Err errMaxRetries ∧
   Exists (fun kv =>
             ∃ t, addChildren kv.2 (default [] (children !! id_Trace (trace_ID kv.2)))
                  = Ok (t, Some errMaxRetries)) l).
Proof.
  match goal with |- context [foldl ?f _ _] => set (F := f) end.
  revert acc. induction l as [|[k trace] l IH]; intros acc.
  { left. exists []. split; [by rewrite app_nil_r|constructor]. }
  cbn [foldl snd].
  assert (∀ t e,
            addChildren trace (default [] (children !! id_Trace (trace_ID trace)))
            = Ok (t, e) →
            F (Ok acc) (k, trace)
            = match e with
              | Some err => Err err
              | None => Ok (acc ++ [t])
              end) as Hstep.
  { intros t e Ht. unfold F. cbn [bind snd]. cbn zeta.
    destruct (children !! id_Trace (trace_ID trace)) as [tc|]; cbn [from_option id] in Ht.
    - rewrite Ht. by destruct e.
    - destruct trace. cbn in Ht. by injection Ht as <- <-. }
  destruct (addChildren_cases trace (default [] (children !! id_Trace (trace_ID trace))))
    as [[t Ht]|[t Ht]]; rewrite (Hstep _ _ Ht).
  - destruct (IH (acc ++ [t])) as [(ts & -> & Hall)|[-> Hex]].
    + left. exists (t :: ts). split; [by rewrite <- app_assoc|]. by constructor.
    + right. split; [done|]. by apply Exists_cons_tl.
  - right. split; [apply foldl_bind_Err|]. apply Exists_cons_hd. by exists t.
Qed.

(** A tree assembled from a root record and child records. *)
Lemma addChildren_leaves root (spans : list Span) t :
  addChildren (leaf root) (leaf <$> spans) = Ok (t, None) →
  trace_Span t = root ∧
  ids t ≡ₚ spanOf root :: (spanOf <$> spans) ∧
  (∀ c, c ∈ leaf <$> spans → attachable (leaf root) (leaf <$> spans) c) ∧
  ∀ span, span ∈ spans →
    ∃ n c, isNode n t ∧ spanID n = id_Parent (SpanID_of span) ∧
           c ∈ Sub n ∧ trace_Span c = span.
Proof.
  intros Ht.
  destruct (addChildren_loop_final (leaf root) (leaf <$> spans)
              (length (leaf <$> spans)) (leaf root) (leaf <$> spans) t None)
    as (rest & Hasm & Hrest & _); [apply assembling_start|done|done|].
  rewrite (proj1 Hrest eq_refl) in Hasm.
  pose proof (asm_ids _ _ _ _ Hasm) as Hids.
  pose proof (asm_edges _ _ _ _ Hasm) as Hedges.
  rewrite app_nil_r, leaves_ids in Hids.
  rewrite app_nil_r, leaves_childEdges in Hedges.
  split_and!; [by apply (asm_Span _ _ _ _ Hasm)|done| |].
  - intros c Hc.
    destruct (asm_done _ _ _ _ Hasm c Hc) as [?%elem_of_nil|[? _]]; done.
  - intros span Hspan.
    assert ((id_Parent (SpanID_of span), span) ∈ edges t) as He.
    { rewrite Hedges. apply elem_of_app. right. apply list_elem_of_fmap. by exists span. }
    apply edges_isNode in He as (n & c & Hn & Hc & [= Hid HSpan]).
    by exists n, c.
Qed.

(** [Traces] on a root page and an answer of the child query that both
    decode. *)
Lemma Traces_outcome rootsResult roots childrenResult children :
  executeOneQuery (SelectRootSpans tracesPerPage) = Ok rootsResult →
  decodedRows (Series rootsResult) roots →
  roots ≠ [] →
  (∀ where_, where_ ≡ₚ traceOf <$> roots →
             executeOneQuery (SelectChildren where_) = Ok childrenResult) →
  decodedRows (Series childrenResult) children →
  (¬ NoDup (traceOf <$> roots) ∧
   InfluxDBStore_Traces = Err (errors_New "duplicated root span")) ∨
  (NoDup (traceOf <$> roots) ∧
   ¬ Forall (fun span => traceOf span ∈ traceOf <$> roots) children ∧
   InfluxDBStore_Traces = Err (errors_New "parent not found")) ∨
  (NoDup (traceOf <$> roots) ∧
   Forall (fun span => traceOf span ∈ traceOf <$> roots) children ∧
   ∃ ranged, ranged ≡ₚ roots ∧
     ((∃ traces,
         InfluxDBStore_Traces = Ok (Some traces) ∧
         Forall2 (fun root t =>
                    addChildren (leaf root) (childrenOf root children) = Ok (t, None))
                 ranged traces) ∨
      (InfluxDBStore_Traces = Err errMaxRetries ∧
       Exists (fun root =>
                 ∃ t, addChildren (leaf root) (childrenOf root children)
                      = Ok (t, Some errMaxRetries)) ranged))).
Proof using range_order_perm.
  intros Hquery Hroots Hne Hchildren Hdec.
  unfold InfluxDBStore_Traces. cbn zeta. rewrite Hquery. cbn [bind].
  destruct (Series rootsResult) as [|r rows] eqn:Hseries.
  { apply Forall2_nil_inv_l in Hroots. done. }
  destruct (Traces_roots_loop (r :: rows) roots ∅ Hroots)
    as [(Hnd & _ & ->)|[Hnot ->]].
  2: { left. split; [|done]. intros Hnd. apply Hnot. split; [done|].
       apply Forall_forall. intros span _. apply lookup_empty. }
  right. cbn [bind].
  set (cache := foldl (fun c span => <[traceOf span := leaf span]> c) ∅ roots).
  assert (map_to_list cache ≡ₚ rootEntry <$> roots) as Hcache.
  { unfold cache. rewrite Traces_roots_cache; [|done|].
    - by rewrite map_to_list_empty, app_nil_r.
    - apply Forall_forall. intros span _. apply lookup_empty. }
  assert (∀ k t, cache !! k = Some t ↔ ∃ root, root ∈ roots ∧ k = traceOf root ∧ t = leaf root)
    as Hlookup.
  { intros k t. rewrite <- elem_of_map_to_list, Hcache, list_elem_of_fmap.
    split; intros (root & H1 & H2); exists root.
    - injection H1 as -> ->. done.
    - destruct H2 as [-> ->]. done. }
  destruct (@Permutation_map_inv _ _ rootEntry (range_order _ (map_to_list cache)) roots)
    as (ranged & Hranged & Hperm).
  { by rewrite range_order_perm. }
  change (map rootEntry ranged) with (rootEntry <$> ranged) in Hranged.
  rewrite Hranged.
  assert (map (fun kv : ID * Trace => id_Trace (trace_ID kv.2)) (rootEntry <$> ranged)
          = traceOf <$> ranged) as ->.
  { clear. induction ranged as [|root ranged IH]; [done|]. cbn. by f_equal. }
  rewrite (Hchildren (traceOf <$> ranged)) by (by rewrite Hperm).
  cbn [bind].
  destruct (Traces_children_loop (Series childrenResult) children cache ∅ Hdec)
    as [(Hall & children' & -> & Hgroups)|[Hnot ->]].
  { intros k t (root & _ & -> & ->)%Hlookup. done. }
  2: { left. split_and!; [done| |done]. intros Hall. apply Hnot.
       rewrite Forall_forall in Hall |- *. intros span Hin.
       specialize (Hall _ Hin). apply list_elem_of_fmap in Hall as (root & Heq & Hroot).
       exists (leaf root). apply Hlookup. by exists root. }
  right. split; [done|]. split.
  { rewrite Forall_forall in Hall |- *. intros span Hin.
    destruct (Hall _ Hin) as [t (root & Hroot & Heq & _)%Hlookup].
    apply list_elem_of_fmap. by exists root. }
  exists ranged. split; [done|]. cbn [bind].
  assert (∀ root, default [] (children' !! id_Trace (trace_ID (rootEntry root).2))
                  = childrenOf root children) as Hgroup.
  { intros root. rewrite Hgroups, lookup_empty. done. }
  destruct (Traces_final_loop children' (rootEntry <$> ranged) [])
    as [(traces & -> & Hall2)|[-> Hex]].
  - left. exists traces. split; [done|].
    apply Forall2_fmap_l in Hall2.
    eapply Forall2_impl; [exact Hall2|]. intros root t Ht.
    unfold compose in Ht. rewrite Hgroup in Ht. exact Ht.
  - right. split; [done|].
    apply Exists_exists in Hex as (kv & Hkv & t & Ht).
    apply list_elem_of_fmap in Hkv as (root & -> & Hroot).
    apply Exists_exists. exists root. split; [done|].
    rewrite Hgroup in Ht. by exists t.
Qed.

(** X15. The failures of [Traces] on a root page that decodes. Two root
    records of the same trace give the error "duplicated root span". With
    distinct traces, and an answer of the child query that decodes: a child
    record of a trace that has no root record on the page gives "parent not
    found"; and when every child record has its root, a child record that
    is not attachable under the root of its trace gives
    [errMaxRetries]. *)
Theorem Traces_failures rootsResult roots :
  executeOneQuery (SelectRootSpans tracesPerPage) = Ok rootsResult →
  decodedRows (Series rootsResult) roots →
  (¬ NoDup (traceOf <$> roots) →
   InfluxDBStore_Traces = Err (errors_New "duplicated root span")) ∧
  (∀ childrenResult children,
     NoDup (traceOf <$> roots) → roots ≠ [] →
     (∀ where_, where_ ≡ₚ traceOf <$> roots →
                executeOneQuery (SelectChildren where_) = Ok childrenResult) →
     decodedRows (Series childrenResult) children →
     ((∃ span, span ∈ children ∧ traceOf span ∉ traceOf <$> roots) →
      InfluxDBStore_Traces = Err (errors_New "parent not found")) ∧
     ((∀ span, span ∈ children → traceOf span ∈ traceOf <$> roots) →
      (∃ root c, root ∈ roots ∧ c ∈ childrenOf root children ∧
                 ¬ attachable (leaf root) (childrenOf root children) c) →
      InfluxDBStore_Traces = Err errMaxRetries)).
Proof using range_order_perm.
  intros Hquery Hroots. split.
  - intros Hdup. unfold InfluxDBStore_Traces. cbn zeta. rewrite Hquery. cbn [bind].
    destruct (Series rootsResult) as [|r rows] eqn:Hseries.
    { apply Forall2_nil_inv_l in Hroots as ->. destruct Hdup. constructor. }
    destruct (Traces_roots_loop (r :: rows) roots ∅ Hroots)
      as [(Hnd & _)|[_ ->]]; done.
  - intros childrenResult children Hnd Hne Hchildren Hdec.
    destruct (Traces_outcome rootsResult roots childrenResult children
                Hquery Hroots Hne Hchildren Hdec)
      as [[Hdup _]|[(_ & Hnot & HTraces)|(_ & Hall & ranged & Hperm & Hcases)]];
      [done| |].
    + split; [done|]. intros Hfound. destruct Hnot. by apply Forall_forall.
    + split.
      * intros (span & Hin & Hnone). rewrite Forall_forall in Hall.
        destruct Hnone. by apply Hall.
      * intros _ (root & c & Hroot & Hc & Hnot).
        destruct Hcases as [(traces & _ & Hall2)|[HTraces _]]; [|done].
        rewrite <- Hperm in Hroot.
        apply list_elem_of_lookup in Hroot as [i Hi].
        destruct (Forall2_lookup_l _ _ _ _ _ Hall2 Hi) as (t & _ & Ht).
        apply addChildren_leaves in Ht as (_ & _ & Hattachable & _).
        destruct Hnot. by apply Hattachable.
Qed.

(** X16. The trees of a page. When the root page and the answer of the
    child query decode, the slice that [Traces] returns has one tree per
    root record, in the order in which the cache is ranged over: the tree
    of a root record has this record at its root and, below it, the child
    records of its trace and no other, each under the node whose span
    identifier is its parent identifier. And [Traces] does return such a
    slice (never [nil]) when the root records are of distinct traces and
    every child record is attachable under the root record of its
    trace. *)
Theorem Traces_one_tree_per_root rootsResult roots childrenResult children :
  executeOneQuery (SelectRootSpans tracesPerPage) = Ok rootsResult →
  decodedRows (Series rootsResult) roots →
  (∀ where_, where_ ≡ₚ traceOf <$> roots →
             executeOneQuery (SelectChildren where_) = Ok childrenResult) →
  decodedRows (Series childrenResult) children →
  (∀ traces,
     InfluxDBStore_Traces = Ok traces →
     ∃ trees ranged,
       traces = Some trees ∧
       length trees = length (Series rootsResult) ∧
       ranged ≡ₚ roots ∧
       Forall2 (fun root t =>
                  trace_Span t = root ∧
                  ids t ≡ₚ spanOf root :: (spanOf <$> spansOfTrace (traceOf root) children) ∧
                  ∀ span, span ∈ spansOfTrace (traceOf root) children →
                    ∃ n c, isNode n t ∧ spanID n = id_Parent (SpanID_of span) ∧
                           c ∈ Sub n ∧ trace_Span c = span)
               ranged trees) ∧
  (NoDup (traceOf <$> roots) →
   (∀ span, span ∈ children → traceOf span ∈ traceOf <$> roots) →
   (∀ root c, root ∈ roots → c ∈ childrenOf root children →
              attachable (leaf root) (childrenOf root children) c) →
   ∃ trees, InfluxDBStore_Traces = Ok (Some trees)).
Proof using range_order_perm.
  intros Hquery Hroots Hchildren Hdec.
  destruct (decide (roots = [])) as [->|Hne].
  { assert (InfluxDBStore_Traces = Ok (Some [])) as HTraces.
    { unfold InfluxDBStore_Traces. cbn zeta. rewrite Hquery. cbn [bind].
      by apply Forall2_nil_inv_r in Hroots as ->. }
    split.
    - intros traces Htraces. exists [], []. rewrite HTraces in Htraces.
      injection Htraces as <-. apply Forall2_nil_inv_r in Hroots as ->.
      split_and!; [done..|constructor].
    - intros _ _ _. by exists []. }
  destruct (Traces_outcome rootsResult roots childrenResult children
              Hquery Hroots Hne Hchildren Hdec)
    as [[Hdup HTraces]|[(_ & Hnot & HTraces)|(_ & Hall & ranged & Hperm & Hcases)]].
  - split; [by rewrite HTraces|]. intros Hnd _ _. done.
  - split; [by rewrite HTraces|]. intros _ Hfound _.
    destruct Hnot. by apply Forall_forall.
  - destruct Hcases as [(trees & HTraces & Hall2)|[HTraces Hex]].
    + split; [|intros _ _ _; by exists trees].
      intros traces Htraces. rewrite HTraces in Htraces. injection Htraces as <-.
      exists trees, ranged. split_and!; [done| |done|].
      * rewrite <- (Forall2_length _ _ _ Hall2), Hperm.
        symmetry. by eapply Forall2_length.
      * eapply Forall2_impl; [exact Hall2|]. intros root t Ht.
        apply addChildren_leaves in Ht as (HSpan & Hids & _ & Hunder). done.
    + split; [by rewrite HTraces|]. intros _ _ Hattachable.
      apply Exists_exists in Hex as (root & Hroot & t & Ht).
      rewrite Hperm in Hroot.
      destruct (addChildren_outcome (leaf root) (childrenOf root children))
        as [(t' & Ht' & _)|(t' & _ & c & Hc & Hnot)]; [congruence|].
      destruct Hnot. by apply Hattachable.
Qed.

(** ** Events *)

Lemma annotationsFromEvents_loop (events : list Event) (acc anns : list Annotation) :
  foldl (fun acc e =>
           do annotations <- acc;
           do anns <- MarshalEvent e;
           Ok (annotations ++ anns)) (Ok acc) events = Ok anns ↔
  ∃ parts, Forall2 (fun e part => MarshalEvent e = Ok part) events parts ∧
           anns = acc ++ concat parts.
Proof.
  revert acc. induction events as [|e events IH]; intros acc; cbn [foldl bind].
  - split.
    + intros [= <-]. exists []. split; [constructor|]. by rewrite app_nil_r.
    + intros (parts & ->%Forall2_nil_inv_l & ->). by rewrite app_nil_r.
  - destruct (MarshalEvent e) as [part| |] eqn:He; cbn [bind].
    + rewrite IH. split.
      * intros (parts & Hparts & ->). exists (part :: parts).
        split; [by constructor|]. by rewrite <- app_assoc.
      * intros (parts & Hparts & ->).
        apply Forall2_cons_inv_l in Hparts as (part' & parts' & Hpart & Hparts & ->).
        rewrite He in Hpart. injection Hpart as <-.
        exists parts'. split; [done|]. by rewrite <- app_assoc.
    + rewrite foldl_bind_Err. split; [done|].
      intros (parts & Hparts & _).
      apply Forall2_cons_inv_l in Hparts as (? & ? & Hpart & _). congruence.
    + rewrite foldl_bind_Panic. split; [done|].
      intros (parts & Hparts & _).
      apply Forall2_cons_inv_l in Hparts as (? & ? & Hpart & _). congruence.
Qed.

Lemma annotationsFromEvents_Ok (a anns : list Annotation) :
  annotationsFromEvents a = Ok anns ↔
  ∃ events parts,
    UnmarshalEvents a = Ok events ∧
    Forall2 (fun e part => MarshalEvent e = Ok part) events parts ∧
    anns = concat parts.
Proof.
  unfold annotationsFromEvents.
  destruct (UnmarshalEvents a) as [events| |] eqn:Hevents; cbn [bind].
  - rewrite annotationsFromEvents_loop. split.
    + intros (parts & ? & ->). by exists events, parts.
    + intros (events' & parts & [= <-] & ? & ->). by exists parts.
  - split; [done|]. by intros (? & ? & ? & _).
  - split; [done|]. by intros (? & ? & ? & _).
Qed.

(** X17. [annotationsFromEvents] returns the annotations of the events
    decoded from its input, event after event; it fails with the error of
    [UnmarshalEvents], or with that of the first event that does not
    marshal. *)
Theorem annotationsFromEvents_concat (a : list Annotation) :
  (∀ anns,
     annotationsFromEvents a = Ok anns ↔
     ∃ events parts,
       UnmarshalEvents a = Ok events ∧
       Forall2 (fun e part => MarshalEvent e = Ok part) events parts ∧
       anns = concat parts) ∧
  (∀ err, UnmarshalEvents a = Err err → annotationsFromEvents a = Err err) ∧
  (∀ events before e after parts err,
     UnmarshalEvents a = Ok events →
     events = before ++ e :: after →
     Forall2 (fun e part => MarshalEvent e = Ok part) before parts →
     MarshalEvent e = Err err →
     annotationsFromEvents a = Err err).
Proof.
  split_and!; [apply annotationsFromEvents_Ok|unfold annotationsFromEvents..].
  - intros err ->. done.
  - intros events before e after parts err -> -> Hbefore He. cbn [bind].
    rewrite foldl_app.
    assert (foldl (fun acc e =>
                     do annotations <- acc;
                     do anns <- MarshalEvent e;
                     Ok (annotations ++ anns)) (Ok []) before = Ok (concat parts)) as ->.
    { apply annotationsFromEvents_loop. by exists parts. }
    cbn [foldl bind]. rewrite He. cbn [bind]. apply foldl_bind_Err.
Qed.

(** X18. What [newSpanFromRow] decodes. It returns a span exactly when the
    three identifier tags parse (an absent tag is parsed as the empty
    string), the row is well formed and has a manifest column, and the
    annotations that [filterSchemas] keeps decode into events that all
    marshal; the span then has the parsed identifiers and, as annotations,
    those of the events, event after event. *)
Theorem newSpanFromRow_decodes (r : Row) (span : Span) :
  newSpanFromRow r = Ok span ↔
  ParseID (index_tags (RowTags r) "trace_id") = Ok (id_Trace (SpanID_of span)) ∧
  ParseID (index_tags (RowTags r) "span_id") = Ok (id_Span (SpanID_of span)) ∧
  ParseID (index_tags (RowTags r) "parent_id") = Ok (id_Parent (SpanID_of span)) ∧
  (length (Values r) ≤ 1)%nat ∧
  (length (rowFields r) ≤ length (Columns r))%nat ∧
  Forall stringOrNil (rowFields r) ∧
  ∃ manifest events parts,
    findSchemasAnnotation (rowAnnotations r) = Some manifest ∧
    UnmarshalEvents (filter (keptBy manifest) (rowAnnotations r)) = Ok events ∧
    Forall2 (fun e part => MarshalEvent e = Ok part) events parts ∧
    Annotations span = concat parts.
Proof.
  assert (∀ anns, annotationsFromRow r = Ok anns ↔
                  (length (Values r) ≤ 1)%nat ∧
                  (length (rowFields r) ≤ length (Columns r))%nat ∧
                  Forall stringOrNil (rowFields r) ∧ anns = rowAnnotations r) as Hrow.
  { intros anns. unfold annotationsFromRow. fold (rowFields r).
    destruct (decide (1 < length (Values r))%nat) as [Hlen|Hlen].
    - split; [done|]. intros (? & _). lia.
    - rewrite annotationsFromRow_fields_Ok by lia. split.
      + intros (? & ? & ->). split_and!; [lia|done..].
      + intros (_ & ? & ? & ->). done. }
  assert (∀ anns kept, filterSchemas anns = Ok kept ↔
                       ∃ manifest, findSchemasAnnotation anns = Some manifest ∧
                                   kept = filter (keptBy manifest) anns) as Hfilter.
  { intros anns kept. unfold filterSchemas.
    destruct (findSchemasAnnotation anns) as [manifest|]; [|split; [done|by intros (? & ? & _)]].
    rewrite filterSchemas_loop. split.
    - intros [= <-]. by exists manifest.
    - by intros (? & [= <-] & ->). }
  unfold newSpanFromRow. split.
  - intros H.
    apply bind_Ok in H as (traceID & Htrace & H).
    apply bind_Ok in H as (spanID' & Hspan & H).
    apply bind_Ok in H as (parentID' & Hparent & H).
    apply bind_Ok in H as (annotations & (Hlen & Hcolumns & Hfields & ->)%Hrow & H).
    apply bind_Ok in H as (filtered & (manifest & Hmanifest & ->)%Hfilter & H).
    apply bind_Ok in H as (anns & (events & parts & Hevents & Hparts & ->)%annotationsFromEvents_Ok & H).
    injection H as <-. cbn.
    split_and!; [done..|]. by exists manifest, events, parts.
  - intros (Htrace & Hspan & Hparent & Hlen & Hcolumns & Hfields
            & manifest & events & parts & Hmanifest & Hevents & Hparts & Hanns).
    rewrite Htrace, Hspan, Hparent. cbn [bind].
    rewrite (proj2 (Hrow (rowAnnotations r))) by done. cbn [bind].
    rewrite (proj2 (Hfilter _ (filter (keptBy manifest) (rowAnnotations r))))
      by (by exists manifest).
    cbn [bind].
    rewrite (proj2 (annotationsFromEvents_Ok _ (concat parts)))
      by (by exists events, parts).
    cbn [bind]. destruct span as [[? ? ?] ?]. cbn in *. by subst.
Qed.

(** ** Set-up *)

Lemma andThen_inv (o : Outcome) (k : InfluxDBStore → Outcome) s' calls r :
  andThen o k = (s', calls, r) →
  (∃ s1 calls1 calls2,
     o = (s1, calls1, Ok tt) ∧ k s1 = (s', calls2, r) ∧ calls = calls1 ++ calls2) ∨
  (o = (s', calls, r) ∧ r ≠ Ok tt).
Proof.
  unfold andThen. destruct o as [[s1 calls1] [[]|e|p]].
  - destruct (k s1) as [[s2 calls2] r2] eqn:Hk. intros [= <- <- <-].
    left. by exists s1, calls1, calls2.
  - intros [= <- <- <-]. by right.
  - intros [= <- <- <-]. by right.
Qed.

Lemma createAdminUserIfNotExists_inv s server s' calls r :
  in_server s = Some server →
  createAdminUserIfNotExists s = (s', calls, r) →
  s' = s ∧
  ((∃ admin,
      Authenticate server (Username (in_adminUser s)) (Password (in_adminUser s))
      = AuthOk admin ∧
      calls = [Call_Authenticate server (Username (in_adminUser s))
                 (Password (in_adminUser s))] ∧
      r = Ok tt) ∨
   (Authenticate server (Username (in_adminUser s)) (Password (in_adminUser s))
    = AuthUserNotFound ∧
    calls = [Call_Authenticate server (Username (in_adminUser s))
               (Password (in_adminUser s));
             Call_CreateUser server (Username (in_adminUser s))
               (Password (in_adminUser s)) true] ∧
    r = match CreateUser server (Username (in_adminUser s))
                (Password (in_adminUser s)) true with
        | Some createUserErr => Err createUserErr
        | None => Ok tt
        end) ∨
   (∃ err,
      Authenticate server (Username (in_adminUser s)) (Password (in_adminUser s))
      = AuthErr err ∧
      calls = [Call_Authenticate server (Username (in_adminUser s))
                 (Password (in_adminUser s))] ∧
      r = Err err)).
Proof.
  intros Hserver. unfold createAdminUserIfNotExists. rewrite Hserver. cbn zeta.
  destruct (Authenticate _ _ _) as [admin| |err]; intros [= <- <- <-]; split; try done.
  - left. by exists admin.
  - right. by left.
  - right. right. by exists err.
Qed.

Lemma createDBIfNotExists_inv s con s' calls r :
  in_con s = Some con →
  createDBIfNotExists s = (s', calls, r) →
  s' = s ∧
  ∃ command,
    calls = [Call_Query con command] ∧
    createDBCommand s command ∧
    HasPrefix command ("CREATE DATABASE IF NOT EXISTS " +:+ in_dbName s) = true ∧
    r = (do response <- client_Query con command;
         match Response_Error response with
         | Some err => Err err
         | None => Ok tt
         end).
Proof.
  intros Hcon. unfold createDBIfNotExists. rewrite Hcon. cbn zeta.
  intros [= <- <- <-]. split; [done|]. eexists. split; [reflexivity|].
  assert (∀ a b, HasPrefix (a +:+ b) a = true) as Hprefix.
  { clear. induction a as [|c a IH]; intros b; simpl; [by destruct b|].
    by rewrite Ascii.eqb_refl. }
  assert (∀ a b c, HasPrefix a c = true → HasPrefix (a +:+ b) c = true) as Happ.
  { clear. intros a b c. revert a. induction c as [|x c IH]; intros a;
      [intros _; by destruct (a +:+ b)|].
    destruct a as [|y a]; simpl; [done|]. destruct (Ascii.eqb y x); [apply IH|done]. }
  split_and!; [| |done].
  - unfold createDBCommand. split_and!.
    + by intros ->.
    + intros Hd%String_eqb_false ->. by rewrite Hd.
    + intros Hd%String_eqb_false Hn%String_eqb_false. by rewrite Hd, Hn.
  - destruct (String.eqb (RP_Duration _) ""); cbn [negb].
    + generalize ("CREATE DATABASE IF NOT EXISTS " +:+ in_dbName s). clear.
      induction s as [|c a IH]; simpl; [done|]. by rewrite Ascii.eqb_refl.
    + destruct (String.eqb (RP_Name _) ""); cbn [negb].
      * apply Hprefix.
      * apply Happ, Hprefix.
Qed.

Lemma setUpMode_inv s con s' calls r :
  in_con s = Some con →
  (if Z.eqb (in_mode s) testMode then setUpTestMode s else setUpReleaseMode s)
  = (s', calls, r) →
  s' = mkInfluxDBStore (in_adminUser s) (in_con s)
         (if Z.eqb (in_mode s) testMode then testDBName else releaseDBName)
         (in_defaultRP s) (in_mode s) (in_server s) (in_tracesPerPage s) ∧
  calls = (if Z.eqb (in_mode s) testMode
           then [Call_Query con ("DROP DATABASE IF EXISTS " +:+ testDBName)]
           else []) ∧
  (in_mode s ≠ testMode → r = Ok tt).
Proof.
  intros Hcon. destruct (Z.eqb (in_mode s) testMode) eqn:Hmode.
  - unfold setUpTestMode. cbn [in_con]. rewrite Hcon. cbn zeta.
    intros [= <- <- <-]. split_and!; [done..|].
    intros Hne. by apply Z.eqb_eq in Hmode.
  - unfold setUpReleaseMode. by intros [= <- <- <-].
Qed.

(** X19. The store that [NewInfluxDBStore] returns, and how it got there.
    The server was created and opened, and the client connected with the
    credentials of the configuration, which the store keeps with the
    retention policy and the mode; its database is ["appdash_test"] in
    test mode and ["appdash"] in any other mode, and its page size is 10.
    The server was asked, in this order: to authenticate the admin user; to
    create it, as an administrator, when (and only when) it was not found
    -- a user found is accepted whether an administrator or not; in test
    mode, to drop the test database; and to create the database, with the
    duration of the retention policy if it has one and the name of the
    policy only if it has a duration too. *)
Theorem NewInfluxDBStore_configures config calls s :
  NewInfluxDBStore config = (calls, Ok s) →
  ∃ server url con,
    NewServer (cfg_Server config) (cfg_BuildInfo config) = Ok server ∧
    server_Open server = None ∧
    parsedURL = Ok url ∧
    NewClient url (Username (cfg_AdminUser config)) (Password (cfg_AdminUser config))
    = Ok con ∧
    s = mkInfluxDBStore (cfg_AdminUser config) (Some con)
          (if Z.eqb (cfg_Mode config) testMode then testDBName else releaseDBName)
          (cfg_DefaultRP config) (cfg_Mode config) (Some server) defaultTracesPerPage ∧
    adminUserReady server (cfg_AdminUser config) ∧
    ∃ created dropped command,
      calls = Call_Authenticate server (Username (cfg_AdminUser config))
                (Password (cfg_AdminUser config))
              :: created ++ dropped ++ [Call_Query con command] ∧
      created = match Authenticate server (Username (cfg_AdminUser config))
                        (Password (cfg_AdminUser config)) with
                | AuthUserNotFound =>
                    [Call_CreateUser server (Username (cfg_AdminUser config))
                       (Password (cfg_AdminUser config)) true]
                | _ => []
                end ∧
      dropped = (if Z.eqb (cfg_Mode config) testMode
                 then [Call_Query con ("DROP DATABASE IF EXISTS " +:+ testDBName)]
                 else []) ∧
      createDBCommand s command.
Proof.
  unfold NewInfluxDBStore.
  destruct (NewServer _ _) as [server| |] eqn:Hserver; [|done..].
  destruct (server_Open server) as [|] eqn:Hopen; [done|].
  destruct (init _ server) as [[s' calls'] r] eqn:Hinit.
  destruct r as [[]| |]; [|done..]. intros [= <- <-].
  unfold init in Hinit. cbn [in_adminUser in_con in_dbName in_defaultRP in_mode
                             in_server in_tracesPerPage] in Hinit.
  destruct parsedURL as [url| |]; [|done..].
  destruct (NewClient url _ _) as [con| |] eqn:Hcon; [|done..].
  exists server, url, con. split_and!; [done..| | |].
  all: apply andThen_inv in Hinit as [(s1 & calls1 & calls2 & Hadmin & Hinit & ->)|[_ ?]];
    [|done].
  all: apply createAdminUserIfNotExists_inv with (server := server) in Hadmin
      as [-> Hadmin]; [|done].
  all: cbn [in_adminUser] in Hadmin.
  all: apply andThen_inv in Hinit as [(s2 & calls3 & calls4 & Hmode & Hinit & ->)|[_ ?]];
    [|done].
  all: apply setUpMode_inv with (con := con) in Hmode as (-> & -> & _); [|done].
  all: cbn [in_adminUser in_con in_dbName in_defaultRP in_mode
            in_server in_tracesPerPage] in Hinit |- *.
  all: apply andThen_inv in Hinit as [(s3 & calls5 & calls6 & Hdb & Hinit & ->)|[_ ?]];
    [|done].
  all: apply createDBIfNotExists_inv with (con := con) in Hdb
      as (-> & command & -> & Hcommand & _ & _); [|done].
  all: injection Hinit as <- <-.
  - done.
  - destruct Hadmin as [(admin & Hauth & _)|[(Hauth & _ & Hcreate)|(err & _ & _ & ?)]];
      [left; by exists admin| |done].
    right. split; [done|]. by destruct (CreateUser _ _ _ _).
  - eexists (match Authenticate server (Username (cfg_AdminUser config))
                    (Password (cfg_AdminUser config)) with
            | AuthUserNotFound =>
                [Call_CreateUser server (Username (cfg_AdminUser config))
                   (Password (cfg_AdminUser config)) true]
            | _ => []
            end), _, command.
    split_and!; [|done|done|done].
    rewrite app_nil_r.
    destruct Hadmin as [(admin & -> & -> & _)|[(-> & -> & _)|(err & _ & _ & ?)]];
      [done..|done].
Qed.

(** The shape of an outcome of [init]: the calls of the admin user
    check, then the commands. *)
Lemma init_shape s server s' calls r :
  init s server = (s', calls, r) →
  ∃ con' dbn tpp' admin_calls commands,
    s' = mkInfluxDBStore (in_adminUser s) con' dbn (in_defaultRP s) (in_mode s)
           (Some server) tpp' ∧
    calls = admin_calls ++ commands ∧
    (r ≠ Ok tt → tpp' = in_tracesPerPage s) ∧
    (admin_calls = [] ∨
     admin_calls = [Call_Authenticate server (Username (in_adminUser s))
                      (Password (in_adminUser s))] ∨
     (admin_calls = [Call_Authenticate server (Username (in_adminUser s))
                       (Password (in_adminUser s));
                     Call_CreateUser server (Username (in_adminUser s))
                       (Password (in_adminUser s)) true] ∧
      Authenticate server (Username (in_adminUser s)) (Password (in_adminUser s))
      = AuthUserNotFound)) ∧
    ∀ x, x ∈ commands →
      ∃ con command,
        x = Call_Query con command ∧ con' = Some con ∧
        adminUserReady server (in_adminUser s) ∧
        dbn = (if Z.eqb (in_mode s) testMode then testDBName else releaseDBName) ∧
        (in_mode s ≠ testMode →
         HasPrefix command ("CREATE DATABASE IF NOT EXISTS " +:+ releaseDBName) = true).
Proof.
  intros Hinit. unfold init in Hinit.
  cbn [in_adminUser in_con in_dbName in_defaultRP in_mode in_server
       in_tracesPerPage] in Hinit.
  assert (∀ P : Call → Prop, ∀ x : Call, x ∈ @nil Call → P x) as Hnil
    by (intros P x ?%elem_of_nil; done).
  destruct parsedURL as [url|err|p].
  2,3: injection Hinit as <- <- <-; exists (in_con s), (in_dbName s), (in_tracesPerPage s), [], [];
       split_and!; [done|done|done|by left|apply Hnil].
  destruct (NewClient url _ _) as [con|err|p] eqn:Hcon.
  2,3: injection Hinit as <- <- <-; exists (in_con s), (in_dbName s), (in_tracesPerPage s), [], [];
       split_and!; [done|done|done|by left|apply Hnil].
  apply andThen_inv in Hinit as [(s1 & calls1 & calls2 & Hadmin & Hinit & ->)|[Hadmin Hr]].
  2: { apply createAdminUserIfNotExists_inv with (server := server) in Hadmin
         as [-> Hadmin]; [|done].
       cbn [in_adminUser] in Hadmin.
       exists (Some con), (in_dbName s), (in_tracesPerPage s), calls, [].
       split_and!; [done|by rewrite app_nil_r|done| |apply Hnil].
       destruct Hadmin as [(admin & _ & -> & _)|[(Hauth & -> & _)|(err & _ & -> & _)]].
       - right. by left.
       - right. by right.
       - right. by left. }
  apply createAdminUserIfNotExists_inv with (server := server) in Hadmin
    as [-> Hadmin]; [|done].
  cbn [in_adminUser] in Hadmin.
  assert (adminUserReady server (in_adminUser s) ∧
          (calls1 = [Call_Authenticate server (Username (in_adminUser s))
                       (Password (in_adminUser s))] ∨
           (calls1 = [Call_Authenticate server (Username (in_adminUser s))
                        (Password (in_adminUser s));
                      Call_CreateUser server (Username (in_adminUser s))
                        (Password (in_adminUser s)) true] ∧
            Authenticate server (Username (in_adminUser s)) (Password (in_adminUser s))
            = AuthUserNotFound))) as [Hready Hcalls1].
  { destruct Hadmin as [(admin & Hauth & -> & _)|[(Hauth & -> & Hcreate)|(err & _ & _ & ?)]];
      [| |done].
    - split; [left; by exists admin|by left].
    - split; [|by right]. right. split; [done|]. by destruct (CreateUser _ _ _ _). }
  clear Hadmin.
  apply andThen_inv in Hinit as [(s2 & calls3 & calls4 & Hmode & Hinit & ->)|[Hmode Hr]].
  2: { apply setUpMode_inv with (con := con) in Hmode as (-> & -> & Hrelease); [|done].
       cbn [in_adminUser in_con in_dbName in_defaultRP in_mode in_server
            in_tracesPerPage] in *.
       destruct (Z.eqb (in_mode s) testMode) eqn:Htest.
       2: { destruct Hr. apply Hrelease. intros Heq. by rewrite Heq in Htest. }
       eexists (Some con), testDBName, (in_tracesPerPage s), calls1, _.
       split_and!; [done|done|done|by right|].
       intros x Hx%list_elem_of_singleton. subst x. eexists con, _.
       split_and!; [done..|]. intros Hne. by apply Z.eqb_eq in Htest. }
  apply setUpMode_inv with (con := con) in Hmode as (-> & -> & _); [|done].
  cbn [in_adminUser in_con in_dbName in_defaultRP in_mode in_server
       in_tracesPerPage] in *.
  assert (∃ command tpp' r3,
            createDBIfNotExists
              (mkInfluxDBStore (in_adminUser s) (Some con)
                 (if Z.eqb (in_mode s) testMode then testDBName else releaseDBName)
                 (in_defaultRP s) (in_mode s) (Some server) (in_tracesPerPage s))
            = (mkInfluxDBStore (in_adminUser s) (Some con)
                 (if Z.eqb (in_mode s) testMode then testDBName else releaseDBName)
                 (in_defaultRP s) (in_mode s) (Some server) (in_tracesPerPage s),
               [Call_Query con command], r3) ∧
            HasPrefix command
              ("CREATE DATABASE IF NOT EXISTS "
               +:+ (if Z.eqb (in_mode s) testMode then testDBName else releaseDBName))
            = true ∧
            s' = mkInfluxDBStore (in_adminUser s) (Some con)
                   (if Z.eqb (in_mode s) testMode then testDBName else releaseDBName)
                   (in_defaultRP s) (in_mode s) (Some server) tpp' ∧
            calls4 = [Call_Query con command] ∧
            (r ≠ Ok tt → tpp' = in_tracesPerPage s))
    as (command & tpp' & r3 & _ & Hprefix & -> & -> & Htpp).
  { apply andThen_inv in Hinit as [(s3 & calls5 & calls6 & Hdb & Hinit & ->)|[Hdb Hr]].
    - pose proof Hdb as Hdb'.
      apply createDBIfNotExists_inv with (con := con) in Hdb
        as (-> & command & -> & _ & Hprefix & _); [|done].
      injection Hinit as <- <- <-.
      exists command, defaultTracesPerPage, (Ok tt).
      split_and!; [done|done|done|done|done].
    - pose proof Hdb as Hdb'.
      apply createDBIfNotExists_inv with (con := con) in Hdb
        as (-> & command & -> & _ & Hprefix & _); [|done].
      exists command, (in_tracesPerPage s), r. split_and!; done. }
  eexists (Some con), _, tpp', calls1, _.
  split_and!; [done|done|done|by right|].
  intros x Hx.
  assert (∃ command', x = Call_Query con command' ∧
                      (in_mode s ≠ testMode →
                       HasPrefix command'
                         ("CREATE DATABASE IF NOT EXISTS " +:+ releaseDBName) = true))
    as (command' & -> & Hcommand').
  { destruct (Z.eqb (in_mode s) testMode) eqn:Htest.
    - apply elem_of_cons in Hx as [Hx|Hx%list_elem_of_singleton]; subst x.
      + eexists. split; [done|]. intros Hne. by apply Z.eqb_eq in Htest.
      + eexists. split; [done|]. intros Hne. by apply Z.eqb_eq in Htest.
    - apply list_elem_of_singleton in Hx as ->. by exists command. }
  exists con, command'. split_and!; done.
Qed.

(** X20. What [init] does not do, whatever its outcome. It sets the
    server, and leaves the credentials, the retention policy and the mode
    as they are; the page size is changed only by a call that succeeds. A
    user is created only on the answer "user not found" of the
    authentication, with the credentials of the store and as an
    administrator. No command is sent unless the client is connected and
    the admin user check passed, and the store then names the database of
    its mode, even when the call fails afterwards. In a mode other than the
    test mode every command sent is a [CREATE DATABASE IF NOT EXISTS] of
    the database ["appdash"]: nothing is dropped. *)
Theorem init_restraint s server s' calls r :
  init s server = (s', calls, r) →
  in_server s' = Some server ∧ sameConfig s s' ∧
  (r ≠ Ok tt → in_tracesPerPage s' = in_tracesPerPage s) ∧
  (∀ srv username password admin,
     Call_CreateUser srv username password admin ∈ calls →
     admin = true ∧ srv = server ∧
     username = Username (in_adminUser s) ∧ password = Password (in_adminUser s) ∧
     Authenticate server username password = AuthUserNotFound) ∧
  (∀ con command,
     Call_Query con command ∈ calls →
     in_con s' = Some con ∧ adminUserReady server (in_adminUser s) ∧
     in_dbName s' = (if Z.eqb (in_mode s) testMode then testDBName else releaseDBName)) ∧
  (in_mode s ≠ testMode →
   ∀ con command,
     Call_Query con command ∈ calls →
     HasPrefix command "CREATE DATABASE IF NOT EXISTS appdash" = true).
Proof.
  intros (con' & dbn & tpp' & admin_calls & commands & -> & -> & Htpp & Hadmin & Hcommands)
           %init_shape.
  assert (∀ con command, Call_Query con command ∈ admin_calls ++ commands →
                         Call_Query con command ∈ commands) as Hquery.
  { intros con command [Hin|Hin]%elem_of_app; [|done].
    destruct Hadmin as [->|[->|[-> _]]].
    - by apply elem_of_nil in Hin.
    - apply list_elem_of_singleton in Hin. discriminate.
    - apply elem_of_cons in Hin as [Hin|Hin%list_elem_of_singleton]; discriminate. }
  split_and!; [done|done|done| | |].
  - intros srv username password admin [Hin|Hin]%elem_of_app.
    + destruct Hadmin as [->|[->|[-> Hauth]]].
      * by apply elem_of_nil in Hin.
      * apply list_elem_of_singleton in Hin. discriminate.
      * apply elem_of_cons in Hin as [Hin|Hin%list_elem_of_singleton]; [discriminate|].
        injection Hin as -> -> -> ->. done.
    + destruct (Hcommands _ Hin) as (? & ? & ? & _). discriminate.
  - intros con command Hin%Hquery.
    destruct (Hcommands _ Hin) as (con0 & command0 & [= -> ->] & -> & Hready & -> & _).
    done.
  - intros Hmode con command Hin%Hquery.
    destruct (Hcommands _ Hin) as (con0 & command0 & [= -> ->] & _ & _ & _ & Hprefix).
    by apply Hprefix.
Qed.

End Store.

(** * The properties on the sample stores *)

(** Ranging over a map in the order of its entries is a rearrangement. *)
Lemma sampleRange_perm (A : Type) (l : list A) : sampleRange A l ≡ₚ l.
Proof. done. Qed.

(** The lookup of the sample span finds the stored record. *)
Lemma findSpanPoint_storedRow :
  findSpanPoint oneSpanStore sampleTimeParse sampleSpanID = Ok (Some storedPoint).
Proof. vm_compute. reflexivity. Qed.

(** C8 on a record whose manifest lists "HTTPClient" only: the annotation
    of the schema "HTTPServer" is dropped, the others are kept. *)
Lemma filterSchemas_keeps_listed_schemas_witness :
  (∃ a, a ∈ clientAnnotations ∧ Key a = schemasFieldName) ∧
  filterSchemas "_schema:" clientAnnotations
  = Ok [mkAnnotation "schemas" "HTTPClient";
        mkAnnotation "_schema:HTTPClient" "";
        mkAnnotation "Server.Request.Method" ""].
Proof.
  assert (∃ a, a ∈ clientAnnotations ∧ Key a = schemasFieldName) as Hmanifest.
  { exists (mkAnnotation "schemas" "HTTPClient"). split; [by left|reflexivity]. }
  split; [exact Hmanifest|].
  destruct (filterSchemas_keeps_listed_schemas "_schema:" clientAnnotations Hmanifest)
    as (manifest & Hfind & _ & _ & Hkept & _).
  rewrite Hkept. injection Hfind as <-. vm_compute. reflexivity.
Defined.

(** C1 on the stored record: the stored "v1" wins over the submitted "v2"
    for the key "k", the new key "n" is written as submitted, and the key
    "time", stored only, is not written. *)
Lemma Collect_rewrite_old_value_wins_witness :
  findSpanPoint oneSpanStore sampleTimeParse sampleSpanID = Ok (Some storedPoint) ∧
  ∃ pt,
    Collect_point "_schema:" sampleRange oneSpanStore sampleIDString sampleTimeParse
      sampleSpanID [mkAnnotation "k" "v2"; mkAnnotation "n" "v3"] 100%Z = Ok pt ∧
    Fields pt !! "k" = Some (IString "v1") ∧
    Fields pt !! "n" = Some (IString "v3") ∧
    Fields pt !! "time" = None.
Proof.
  split; [exact findSpanPoint_storedRow|].
  destruct (Collect_rewrite_old_value_wins "_schema:" sampleRange sampleRange_perm
              oneSpanStore sampleIDString sampleTimeParse sampleSpanID
              [mkAnnotation "k" "v2"; mkAnnotation "n" "v3"] 100%Z storedPoint
              findSpanPoint_storedRow)
    as (pt & merged & Hpt & _ & _ & Hfields).
  exists pt. split; [exact Hpt|]. split_and!.
  - apply (proj1 (Hfields "k" ltac:(discriminate)) "v2" "v1");
      [reflexivity|reflexivity|discriminate].
  - apply (proj1 (proj2 (Hfields "n" ltac:(discriminate))) "v3");
      [reflexivity|left; reflexivity].
  - apply (proj1 (proj2 (proj2 (Hfields "time" ltac:(discriminate))))). reflexivity.
Defined.

(** C1 fails for the key "schemas": submitted with the value "x" and stored
    with the value "A", it is written with the merged manifest "A,B". *)
Lemma Collect_schemas_key_not_old_value :
  findSpanPoint oneSpanStore sampleTimeParse sampleSpanID = Ok (Some storedPoint) ∧
  submitted [mkAnnotation "schemas" "x"; mkAnnotation "_schema:B" ""] "schemas" = Some "x" ∧
  Fields storedPoint !! "schemas" = Some (IString "A") ∧
  ∃ pt,
    Collect_point "_schema:" sampleRange oneSpanStore sampleIDString sampleTimeParse
      sampleSpanID [mkAnnotation "schemas" "x"; mkAnnotation "_schema:B" ""] 100%Z = Ok pt ∧
    Fields pt !! "schemas" = Some (IString "A,B") ∧
    Fields pt !! "schemas" ≠ Some (IString "A").
Proof.
  split; [exact findSpanPoint_storedRow|]. split; [reflexivity|]. split; [reflexivity|].
  eexists. split; [vm_compute; reflexivity|]. split; [reflexivity|discriminate].
Qed.

(** C3 on the manifests "B,A" and "A,C", and on a submission of the schema
    "B" for the stored record, whose manifest is "A". *)
Lemma mergeSchemasField_accumulates_witness :
  (∃ names,
     mergeSchemasField sampleRange (IString "B,A") (IString "A,C")
     = Ok (Join names schemasFieldSeparator) ∧
     NoDup names ∧
     (∀ s, s ∈ names ↔ s ∈ ["B"; "A"] ∨ s ∈ ["A"; "C"]) ∧
     (names ≠ [""] → manifestElems (Join names schemasFieldSeparator) = names)) ∧
  (∃ pt names,
     Collect_point "_schema:" sampleRange oneSpanStore sampleIDString sampleTimeParse
       sampleSpanID [mkAnnotation "_schema:B" ""] 100%Z = Ok pt ∧
     Fields pt !! schemasFieldName = Some (IString (Join names schemasFieldSeparator)) ∧
     NoDup names ∧ "A" ∈ names ∧ "B" ∈ names).
Proof.
  destruct (mergeSchemasField_accumulates "_schema:" sampleRange sampleRange_perm
              oneSpanStore sampleIDString sampleTimeParse) as [Hmerge HCollect].
  split.
  - exact (Hmerge (IString "B,A") (IString "A,C") I I).
  - destruct (HCollect sampleSpanID [mkAnnotation "_schema:B" ""] 100%Z storedPoint
                findSpanPoint_storedRow)
      as (pt & names & Hpt & Hfield & Hnd & _ & Hold & Hnew & _).
    exists pt, names. split_and!; [exact Hpt|exact Hfield|exact Hnd| |].
    + apply Hold. by left.
    + apply Hnew. by left.
Defined.

(** C6 on an empty store: the manifest of a submission with the schemas
    "A" and "B" is "A,B". *)
Lemma Collect_fresh_manifest_raw_witness :
  findSpanPoint emptyStore sampleTimeParse sampleSpanID = Ok None ∧
  ∃ pt,
    Collect_point "_schema:" sampleRange emptyStore sampleIDString sampleTimeParse
      sampleSpanID [mkAnnotation "_schema:A" ""; mkAnnotation "k" "v";
                    mkAnnotation "_schema:B" ""] 100%Z = Ok pt ∧
    Fields pt !! schemasFieldName = Some (IString "A,B").
Proof.
  split; [reflexivity|].
  destruct (Collect_fresh_manifest_raw "_schema:" sampleRange emptyStore sampleIDString
              sampleTimeParse sampleSpanID
              [mkAnnotation "_schema:A" ""; mkAnnotation "k" "v";
               mkAnnotation "_schema:B" ""] 100%Z eq_refl)
    as (pt & Hpt & Hfield & _).
  exists pt. split; [exact Hpt|]. rewrite Hfield. reflexivity.
Defined.

(** C6 fails with deduplication: a submission that carries the schema "A"
    twice is written with the manifest "A,A". *)
Lemma Collect_fresh_manifest_repeats :
  findSpanPoint emptyStore sampleTimeParse sampleSpanID = Ok None ∧
  ∃ pt,
    Collect_point "_schema:" sampleRange emptyStore sampleIDString sampleTimeParse
      sampleSpanID [mkAnnotation "_schema:A" ""; mkAnnotation "_schema:A" ""] 100%Z
    = Ok pt ∧
    Fields pt !! schemasFieldName = Some (IString "A,A").
Proof.
  split; [reflexivity|]. eexists. split; [vm_compute; reflexivity|reflexivity].
Qed.

(** C7 on the stored record: the point written carries the stored time. *)
Lemma Collect_rewrite_keeps_stored_time_witness :
  findSpanPoint oneSpanStore sampleTimeParse sampleSpanID = Ok (Some storedPoint) ∧
  ∃ pt,
    Collect_point "_schema:" sampleRange oneSpanStore sampleIDString sampleTimeParse
      sampleSpanID [mkAnnotation "k" "v2"] 100%Z = Ok pt ∧
    PTime pt = 4%Z ∧
    sampleTimeParse "2016" = Ok 4%Z.
Proof.
  split; [exact findSpanPoint_storedRow|].
  destruct (Collect_rewrite_keeps_stored_time "_schema:" sampleRange sampleRange_perm
              oneSpanStore sampleIDString sampleTimeParse sampleSpanID
              [mkAnnotation "k" "v2"] 100%Z storedPoint findSpanPoint_storedRow)
    as ((pt & Hpt & Htime) & _ & Hparse).
  exists pt. split_and!; [exact Hpt|exact Htime|exact Hparse].
Defined.

(** C7 fails with the current time: the record stored at time 4 is
    rewritten at time 100 with the time 4. *)
Lemma Collect_rewrite_time_not_now :
  findSpanPoint oneSpanStore sampleTimeParse sampleSpanID = Ok (Some storedPoint) ∧
  ∃ pt,
    Collect_point "_schema:" sampleRange oneSpanStore sampleIDString sampleTimeParse
      sampleSpanID [mkAnnotation "k" "v2"] 100%Z = Ok pt ∧
    PTime pt = 4%Z ∧
    PTime pt ≠ 100%Z.
Proof.
  split; [exact findSpanPoint_storedRow|].
  eexists. split; [vm_compute; reflexivity|]. split; [reflexivity|discriminate].
Qed.

(** The children 2, 3 and 4 are attachable under the root 1. *)
Lemma sample_children_attachable c :
  c ∈ [node 2 1; node 3 1; node 4 2] →
  attachable (node 1 0) [node 2 1; node 3 1; node 4 2] c.
Proof.
  intros Hc. repeat (apply elem_of_cons in Hc as [->|Hc]).
  - apply attachable_root. by left.
  - apply attachable_root. by left.
  - apply attachable_child with (node 2 1); [by left| |by left].
    apply attachable_root. by left.
  - by apply elem_of_nil in Hc.
Qed.

(** Their span identifiers are distinct. *)
Lemma sample_ids_NoDup :
  NoDup (ids (node 1 0) ++ ([node 2 1; node 3 1; node 4 2] ≫= ids)).
Proof. apply (bool_decide_unpack _). vm_compute. exact I. Qed.

(** C5 on the children 2, 3, 4 and their rearrangement 4, 2, 3. *)
Lemma addChildren_order_independent_witness :
  [node 4 2; node 2 1; node 3 1] ≡ₚ [node 2 1; node 3 1; node 4 2] ∧
  ∃ t t',
    addChildren (node 1 0) [node 2 1; node 3 1; node 4 2] = Ok (t, None) ∧
    addChildren (node 1 0) [node 4 2; node 2 1; node 3 1] = Ok (t', None) ∧
    sameTree t t' ∧ ids t ≡ₚ ids t' ∧ edges t ≡ₚ edges t'.
Proof.
  assert ([node 4 2; node 2 1; node 3 1] ≡ₚ [node 2 1; node 3 1; node 4 2]) as Hperm.
  { exact (Permutation_cons_append [node 2 1; node 3 1] (node 4 2)). }
  split; [exact Hperm|].
  exact (addChildren_order_independent (node 1 0)
           [node 2 1; node 3 1; node 4 2] [node 4 2; node 2 1; node 3 1]
           Hperm sample_children_attachable sample_ids_NoDup).
Defined.

(** C5 fails with equality of the trees: the children 2, 3 of the root 1
    end up in the order 3, 2, and given as 3, 2 in the order 2, 3. *)
Lemma addChildren_sibling_order_differs :
  [node 3 1; node 2 1] ≡ₚ [node 2 1; node 3 1] ∧
  (∀ c, c ∈ [node 2 1; node 3 1] → attachable (node 1 0) [node 2 1; node 3 1] c) ∧
  ∃ t t',
    addChildren (node 1 0) [node 2 1; node 3 1] = Ok (t, None) ∧
    addChildren (node 1 0) [node 3 1; node 2 1] = Ok (t', None) ∧
    Sub t = [node 3 1; node 2 1] ∧
    Sub t' = [node 2 1; node 3 1] ∧
    t ≠ t'.
Proof.
  split; [apply perm_swap|]. split.
  - intros c Hc. apply attachable_root.
    repeat (apply elem_of_cons in Hc as [->|Hc]); [by left..|by apply elem_of_nil in Hc].
  - eexists _, _. split; [vm_compute; reflexivity|]. split; [vm_compute; reflexivity|].
    split; [reflexivity|]. split; [reflexivity|discriminate].
Qed.

(** The rows of the rooted trace decode. *)
Lemma rootedStore_decoded :
  decodedRows "_schema:" sampleParseID Annotation sampleUnmarshal sampleMarshal
    (Series rootedResult) [spanRecord 2 1; spanRecord 1 0].
Proof. repeat constructor. Qed.

(** C4 on the rooted trace: the tree returned has the root record at its
    root. *)
Lemma Trace_requires_one_root_witness :
  executeOneQuery rootedStore (SelectTrace 1%N) = Ok rootedResult ∧
  Series rootedResult ≠ [] ∧
  decodedRows "_schema:" sampleParseID Annotation sampleUnmarshal sampleMarshal
    (Series rootedResult) [spanRecord 2 1; spanRecord 1 0] ∧
  ∃ t,
    InfluxDBStore_Trace "_schema:" rootedStore sampleParseID Annotation
      sampleUnmarshal sampleMarshal 1%N = Ok t ∧
    trace_Span t = spanRecord 1 0.
Proof.
  assert (Series rootedResult ≠ []) as Hne by discriminate.
  split; [reflexivity|]. split; [exact Hne|]. split; [exact rootedStore_decoded|].
  destruct (Trace_requires_one_root "_schema:" rootedStore sampleParseID Annotation
              sampleUnmarshal sampleMarshal 1%N rootedResult
              [spanRecord 2 1; spanRecord 1 0] eq_refl Hne rootedStore_decoded)
    as (_ & _ & Honly & Hone).
  destruct (Hone (spanRecord 1 0) eq_refl) as [t Ht].
  { intros c Hc. apply attachable_root.
    apply list_elem_of_singleton in Hc as ->. by left. }
  exists t. split; [exact Ht|].
  destruct (Honly t Ht) as (root & Hroot & HSpan).
  rewrite HSpan. by injection Hroot as <-.
Defined.

(** C4 fails with "trace not found" when no record is a root: the trace
    whose only record has the parent 1 fails with [errMaxRetries]. *)
Lemma Trace_without_root_is_not_NotFound :
  executeOneQuery orphanStore (SelectTrace 1%N) = Ok orphanResult ∧
  decodedRows "_schema:" sampleParseID Annotation sampleUnmarshal sampleMarshal
    (Series orphanResult) [spanRecord 2 1] ∧
  rootSpans [spanRecord 2 1] = [] ∧
  InfluxDBStore_Trace "_schema:" orphanStore sampleParseID Annotation
    sampleUnmarshal sampleMarshal 1%N = Err errMaxRetries ∧
  errMaxRetries ≠ errTraceNotFound.
Proof.
  split; [reflexivity|]. split; [repeat constructor|]. split; [reflexivity|].
  split; [vm_compute; reflexivity|discriminate].
Qed.

(** C10 on an empty store. *)
Lemma Traces_no_roots_empty_witness :
  executeOneQuery emptyStore (SelectRootSpans 10) = Ok (mkQueryResult []) ∧
  InfluxDBStore_Traces "_schema:" sampleRange emptyStore 10 sampleParseID Annotation
    sampleUnmarshal sampleMarshal = Ok (Some []).
Proof.
  split; [reflexivity|].
  exact (Traces_no_roots_empty "_schema:" sampleRange emptyStore 10 sampleParseID
           Annotation sampleUnmarshal sampleMarshal (mkQueryResult []) eq_refl eq_refl).
Defined.

(** X2 on the children 2, 3 and 4 of the root 1: each is found under the
    node it names as its parent. *)
Lemma addChildren_attaches_every_child_witness :
  ∃ t,
    addChildren (node 1 0) [node 2 1; node 3 1; node 4 2] = Ok (t, None) ∧
    ids t ≡ₚ [1; 2; 3; 4]%N ∧
    ∃ n c', isNode n t ∧ spanID n = 2%N ∧ c' ∈ Sub n ∧ trace_Span c' = trace_Span (node 4 2).
Proof.
  eexists. split; [vm_compute; reflexivity|].
  destruct (addChildren_attaches_every_child (node 1 0)
              [node 2 1; node 3 1; node 4 2] _ eq_refl)
    as (_ & Hids & _ & Hunder).
  split; [exact Hids|].
  apply (Hunder (node 4 2)). by do 2 right; left.
Defined.

(** X3 on the children 2 and 5 of the root 1, where the parent 9 of 5 is
    no record: the call fails, and 2 has been attached all the same. *)
Lemma addChildren_failure_keeps_partial_tree_witness :
  ∃ t,
    addChildren (node 1 0) [node 2 1; node 5 9] = Ok (t, Some errMaxRetries) ∧
    trace_Span t = trace_Span (node 1 0) ∧
    2%N ∈ ids t ∧
    ∃ rest, rest ≠ [] ∧
            ids t ++ (rest ≫= ids) ≡ₚ ids (node 1 0) ++ ([node 2 1; node 5 9] ≫= ids).
Proof.
  eexists. split; [vm_compute; reflexivity|].
  destruct (addChildren_failure_keeps_partial_tree (node 1 0)
              [node 2 1; node 5 9] _ eq_refl)
    as (HSpan & Hattached & _ & rest & Hne & _ & Hids).
  split; [exact HSpan|]. split.
  - apply (Hattached (node 2 1)); [by left| |by left].
    apply attachable_root. by left.
  - exists rest. split; [exact Hne|exact Hids].
Defined.

(** X4 on a submission with the keys "k" and "n" and a stored record with
    the key "k": only "k" is replaced. *)
Lemma extendFields_replaces_only_witness :
  dom (extendFields sampleRange submittedFields storedFields) = dom submittedFields ∧
  extendFields sampleRange submittedFields storedFields !! "k" = Some (IString "v1") ∧
  extendFields sampleRange submittedFields storedFields !! "n" = Some (IString "v3").
Proof.
  destruct (extendFields_replaces_only sampleRange sampleRange_perm
              submittedFields storedFields) as (_ & Hdom & Hsrc & Hdst).
  split; [exact Hdom|]. split.
  - apply Hsrc; [reflexivity|by eexists].
  - rewrite Hdst; reflexivity.
Defined.

(** X5 on a stored record with a value, an empty string and a [nil]: the
    value alone is kept. *)
Lemma withoutEmptyFields_filters_witness :
  withoutEmptyFields sampleRange storedFields !! "k" = Some (IString "v1") ∧
  withoutEmptyFields sampleRange (withoutEmptyFields sampleRange storedFields)
  = withoutEmptyFields sampleRange storedFields.
Proof.
  destruct (withoutEmptyFields_filters sampleRange sampleRange_perm storedFields)
    as (_ & Hlookup & Hagain).
  split; [|exact Hagain].
  apply Hlookup. split; reflexivity.
Defined.

(** X7 on the manifests "B,A" and "A,C". *)
Lemma mergeSchemasField_algebra_witness :
  stringOrNil (IString "B,A") ∧ stringOrNil (IString "A,C") ∧
  ∃ names swapped again,
    mergeSchemasField sampleRange (IString "B,A") (IString "A,C")
    = Ok (Join names schemasFieldSeparator) ∧
    mergeSchemasField sampleRange (IString "A,C") (IString "B,A")
    = Ok (Join swapped schemasFieldSeparator) ∧
    names ≡ₚ swapped ∧
    mergeSchemasField sampleRange (IString "B,A")
      (IString (Join names schemasFieldSeparator))
    = Ok (Join again schemasFieldSeparator) ∧
    (names ≠ [""] → again ≡ₚ names).
Proof.
  split; [exact I|]. split; [exact I|].
  exact (mergeSchemasField_algebra sampleRange sampleRange_perm
           (IString "B,A") (IString "A,C") I I).
Defined.

(** X8 on the decoded record whose manifest is that of a submission of
    the schema "HTTPClient": its annotation is kept, that of "HTTPServer"
    is not. *)
Lemma filterSchemas_keeps_collected_witness :
  findSchemasAnnotation clientAnnotations = Some (mkAnnotation "schemas" "HTTPClient") ∧
  schemasFromAnnotations "_schema:" [mkAnnotation "_schema:HTTPClient" ""] = "HTTPClient" ∧
  ∃ kept,
    filterSchemas "_schema:" clientAnnotations = Ok kept ∧
    mkAnnotation "_schema:HTTPClient" "" ∈ kept.
Proof.
  split; [reflexivity|]. split; [reflexivity|].
  destruct (filterSchemas_keeps_collected "_schema:"
              [mkAnnotation "_schema:HTTPClient" ""] clientAnnotations
              (mkAnnotation "schemas" "HTTPClient") eq_refl eq_refl)
    as (kept & Hkept & Hin).
  exists kept. split; [exact Hkept|].
  apply (Hin (mkAnnotation "_schema:HTTPClient" "")).
  - by right; left.
  - reflexivity.
  - by left.
  - reflexivity.
Defined.

(** X10 on the stored record. *)
Lemma findSpanPoint_reads_first_values_witness :
  executeOneQuery oneSpanStore (SelectSpanPoint sampleSpanID)
  = Ok (mkQueryResult [storedRow]) ∧
  NoDup (Columns storedRow) ∧
  findSpanPoint oneSpanStore sampleTimeParse sampleSpanID = Ok (Some storedPoint) ∧
  Fields storedPoint !! "k" = Some (IString "v1") ∧
  Tags storedPoint = ∅.
Proof.
  assert (NoDup (Columns storedRow)) as Hnd.
  { apply (bool_decide_unpack _). vm_compute. exact I. }
  split; [reflexivity|]. split; [exact Hnd|]. split; [exact findSpanPoint_storedRow|].
  destruct (findSpanPoint_reads_first_values oneSpanStore sampleTimeParse sampleSpanID
              (mkQueryResult [storedRow]) storedRow
              [IString "2016"; IString "v1"; IString "A"] [] storedPoint
              eq_refl eq_refl eq_refl Hnd findSpanPoint_storedRow)
    as (Hfields & Htags & _).
  split; [|exact Htags].
  apply Hfields. exists 1%nat, "v1". split_and!; reflexivity.
Defined.

(** X11 on a stored row without the column "schemas". *)
Lemma newSpanFromRow_panics_without_manifest_column_witness :
  (schemasFieldName ∉ Columns bareRow) ∧
  newSpanFromRow "_schema:" sampleParseID Annotation sampleUnmarshal sampleMarshal bareRow
  = Panic nil_dereference ∧
  InfluxDBStore_Trace "_schema:" bareStore sampleParseID Annotation
    sampleUnmarshal sampleMarshal 1%N = Panic nil_dereference ∧
  InfluxDBStore_Traces "_schema:" sampleRange bareStore 10 sampleParseID Annotation
    sampleUnmarshal sampleMarshal = Panic nil_dereference.
Proof.
  assert (schemasFieldName ∉ Columns bareRow) as Hcolumn.
  { intros Hin. repeat (apply elem_of_cons in Hin as [Hin|Hin]; [discriminate|]).
    by apply elem_of_nil in Hin. }
  split; [exact Hcolumn|].
  destruct (newSpanFromRow_panics_without_manifest_column "_schema:" sampleRange
              bareStore 10 sampleParseID Annotation sampleUnmarshal sampleMarshal
              bareRow 1%N 1%N 0%N eq_refl eq_refl eq_refl)
    as (Hrow & HTrace & HTraces);
    [simpl; lia|simpl; lia|repeat constructor|exact Hcolumn|].
  split; [exact Hrow|]. split.
  - exact (HTrace 1%N bareResult [] eq_refl eq_refl).
  - exact (HTraces bareResult [] eq_refl eq_refl).
Defined.

(** X12 on the stored record and on an empty store: one point is written
    to the database "appdash". *)
Lemma Collect_writes_one_string_point_witness :
  (∃ pt,
     InfluxDBStore_Collect "_schema:" sampleRange oneSpanStore acceptWrite "appdash"
       sampleIDString sampleTimeParse sampleSpanID [mkAnnotation "k" "v2"] 100%Z
     = ([mkBatchPoints [pt] "appdash"], Ok tt) ∧
     Measurement pt = "spans" ∧
     is_Some (Fields pt !! "k") ∧ is_Some (Fields pt !! "schemas")) ∧
  (∃ pt,
     InfluxDBStore_Collect "_schema:" sampleRange emptyStore acceptWrite "appdash"
       sampleIDString sampleTimeParse sampleSpanID [mkAnnotation "k" "v2"] 100%Z
     = ([mkBatchPoints [pt] "appdash"], Ok tt)).
Proof.
  split.
  - destruct (Collect_writes_one_string_point "_schema:" sampleRange sampleRange_perm
                oneSpanStore acceptWrite "appdash" sampleIDString sampleTimeParse
                sampleSpanID [mkAnnotation "k" "v2"] 100%Z)
      as (_ & _ & Hwrite).
    destruct (Hwrite (Some storedPoint) findSpanPoint_storedRow)
      as (pt & HCollect & Hm & _ & _ & Hkeys).
    exists pt. split; [exact HCollect|]. split; [exact Hm|]. split.
    + apply Hkeys. right. exists (mkAnnotation "k" "v2"). split; [by left|reflexivity].
    + apply Hkeys. by left.
  - destruct (Collect_writes_one_string_point "_schema:" sampleRange sampleRange_perm
                emptyStore acceptWrite "appdash" sampleIDString sampleTimeParse
                sampleSpanID [mkAnnotation "k" "v2"] 100%Z)
      as (_ & _ & Hwrite).
    destruct (Hwrite None eq_refl) as (pt & HCollect & _).
    exists pt. exact HCollect.
Defined.

(** X13 on a record collected again with what it holds. *)
Lemma Collect_again_keeps_fields_witness :
  findSpanPoint collectedStore sampleTimeParse sampleSpanID = Ok (Some collectedPoint) ∧
  ∃ pt names,
    Collect_point "_schema:" sampleRange collectedStore sampleIDString sampleTimeParse
      sampleSpanID [mkAnnotation "k" "v1"; mkAnnotation "_schema:A" ""] 100%Z = Ok pt ∧
    Fields pt !! "k" = Some (IString "v1") ∧
    Fields pt !! "time" = None ∧
    Fields pt !! schemasFieldName = Some (IString (Join names schemasFieldSeparator)) ∧
    NoDup names ∧
    (∀ s, s ∈ names ↔ s ∈ ["A"]).
Proof.
  assert (findSpanPoint collectedStore sampleTimeParse sampleSpanID
          = Ok (Some collectedPoint)) as Hfind by (vm_compute; reflexivity).
  split; [exact Hfind|].
  destruct (Collect_again_keeps_fields "_schema:" sampleRange sampleRange_perm
              collectedStore sampleIDString sampleTimeParse sampleSpanID
              [mkAnnotation "k" "v1"; mkAnnotation "_schema:A" ""] 100%Z collectedPoint
              Hfind)
    as (pt & names & Hpt & Hfields & Hschemas & Hnd & Hnames).
  - intros k v Hk. cbn [submitted Key Value].
    destruct (String.eqb "_schema:A" k) eqn:E1.
    { apply String_eqb_true in E1 as <-. intros [= <-]. reflexivity. }
    destruct (String.eqb "k" k) eqn:E2; [|discriminate].
    apply String_eqb_true in E2 as <-. intros [= <-]. reflexivity.
  - reflexivity.
  - exists pt, names.
    split_and!; [exact Hpt| | |exact Hschemas|exact Hnd|exact Hnames].
    + rewrite Hfields by discriminate. reflexivity.
    + rewrite Hfields by discriminate. reflexivity.
Defined.

(** X14 on the rooted trace: the tree has the two records. *)
Lemma Trace_holds_every_record_witness :
  executeOneQuery rootedStore (SelectTrace 1%N) = Ok rootedResult ∧
  ∃ t,
    InfluxDBStore_Trace "_schema:" rootedStore sampleParseID Annotation
      sampleUnmarshal sampleMarshal 1%N = Ok t ∧
    t = mkTrace (spanRecord 1 0) [leaf (spanRecord 2 1)] ∧
    ids t ≡ₚ [2; 1]%N ∧
    length (ids t) = 2%nat.
Proof.
  assert (InfluxDBStore_Trace "_schema:" rootedStore sampleParseID Annotation
            sampleUnmarshal sampleMarshal 1%N
          = Ok (mkTrace (spanRecord 1 0) [leaf (spanRecord 2 1)])) as Ht
    by (vm_compute; reflexivity).
  split; [reflexivity|].
  exists (mkTrace (spanRecord 1 0) [leaf (spanRecord 2 1)]).
  split; [exact Ht|]. split; [reflexivity|].
  destruct (Trace_holds_every_record "_schema:" rootedStore sampleParseID Annotation
              sampleUnmarshal sampleMarshal 1%N rootedResult
              [spanRecord 2 1; spanRecord 1 0]
              (mkTrace (spanRecord 1 0) [leaf (spanRecord 2 1)])
              eq_refl rootedStore_decoded Ht)
    as (root & _ & _ & Hids & Hlen & _).
  split; [exact Hids|exact Hlen].
Defined.

(** X15 on a page with two root records of the trace 1. *)
Lemma Traces_failures_witness :
  executeOneQuery twinStore (SelectRootSpans 10) = Ok twinRoots ∧
  decodedRows "_schema:" sampleParseID Annotation sampleUnmarshal sampleMarshal
    (Series twinRoots) [pageRecord 1 1 0; pageRecord 1 2 0] ∧
  InfluxDBStore_Traces "_schema:" sampleRange twinStore 10 sampleParseID Annotation
    sampleUnmarshal sampleMarshal = Err (errors_New "duplicated root span").
Proof.
  assert (decodedRows "_schema:" sampleParseID Annotation sampleUnmarshal sampleMarshal
            (Series twinRoots) [pageRecord 1 1 0; pageRecord 1 2 0]) as Hdec
    by repeat constructor.
  split; [reflexivity|]. split; [exact Hdec|].
  apply (Traces_failures "_schema:" sampleRange sampleRange_perm twinStore 10
           sampleParseID Annotation sampleUnmarshal sampleMarshal twinRoots
           [pageRecord 1 1 0; pageRecord 1 2 0] eq_refl Hdec).
  intros Hnd. apply NoDup_cons in Hnd as [Hhead _]. apply Hhead. by left.
Defined.

(** X16 on the page of two traces: two trees, one per root record. *)
Lemma Traces_one_tree_per_root_witness :
  executeOneQuery pageStore (SelectRootSpans 10) = Ok pageRoots ∧
  ∃ trees ranged,
    InfluxDBStore_Traces "_schema:" sampleRange pageStore 10 sampleParseID Annotation
      sampleUnmarshal sampleMarshal = Ok (Some trees) ∧
    length trees = 2%nat ∧
    ranged ≡ₚ [pageRecord 1 1 0; pageRecord 2 3 0] ∧
    Forall2 (fun root t => trace_Span t = root) ranged trees.
Proof.
  split; [reflexivity|].
  destruct (Traces_one_tree_per_root "_schema:" sampleRange sampleRange_perm pageStore 10
              sampleParseID Annotation sampleUnmarshal sampleMarshal
              pageRoots [pageRecord 1 1 0; pageRecord 2 3 0]
              pageChildren [pageRecord 1 2 1; pageRecord 2 4 3])
    as [Hshape Hreturns]; [reflexivity|repeat constructor|by intros w _|repeat constructor|].
  destruct Hreturns as [trees HTraces].
  - apply (bool_decide_unpack _). vm_compute. exact I.
  - intros span Hin. repeat (apply elem_of_cons in Hin as [->|Hin]).
    + by left.
    + by right; left.
    + by apply elem_of_nil in Hin.
  - intros root c Hroot Hc. apply attachable_root.
    repeat (apply elem_of_cons in Hroot as [->|Hroot]).
    + apply list_elem_of_singleton in Hc as ->. by left.
    + apply list_elem_of_singleton in Hc as ->. by left.
    + by apply elem_of_nil in Hroot.
  - destruct (Hshape (Some trees) HTraces) as (trees' & ranged & [= <-] & Hlen & Hperm & Hall).
    exists trees, ranged. split_and!; [exact HTraces|exact Hlen|exact Hperm|].
    eapply Forall2_impl; [exact Hall|]. intros root t (HSpan & _). exact HSpan.
Defined.

(** X19 on a fresh server, in test mode and with a retention policy of one
    day: the admin user is created, the test database dropped and
    created. *)
Lemma NewInfluxDBStore_configures_witness :
  ∃ s con,
    NewInfluxDBStore (Ok (url_handle 1)) sampleNewClient sampleClientQuery
      freshAuthenticate grantCreateUser sampleNewServer sampleOpen testConfig
    = ([Call_Authenticate sampleServer "admin" "secret";
        Call_CreateUser sampleServer "admin" "secret" true;
        Call_Query sampleClient "DROP DATABASE IF EXISTS appdash_test";
        Call_Query sampleClient
          "CREATE DATABASE IF NOT EXISTS appdash_test WITH DURATION 1d NAME one_day"],
       Ok s) ∧
    s = mkInfluxDBStore (mkAdminUser "admin" "secret") (Some con) "appdash_test"
          (mkRetentionPolicy "one_day" "1d") testMode (Some sampleServer) 10%Z.
Proof.
  eexists _, _. split; [vm_compute; reflexivity|].
  destruct (NewInfluxDBStore_configures (Ok (url_handle 1)) sampleNewClient
              sampleClientQuery freshAuthenticate grantCreateUser sampleNewServer
              sampleOpen testConfig _ _ eq_refl)
    as (server & url & con & [= <-] & _ & _ & [= <-] & Hs & _).
  exact Hs.
Defined.

(** X20 on a store in release mode, on a fresh server: the only command
    sent creates the database "appdash". *)
Lemma init_restraint_witness :
  ∃ s' calls,
    init (Ok (url_handle 1)) sampleNewClient sampleClientQuery freshAuthenticate
      grantCreateUser blankStore sampleServer = (s', calls, Ok tt) ∧
    Call_Query sampleClient "CREATE DATABASE IF NOT EXISTS appdash" ∈ calls ∧
    in_dbName s' = "appdash" ∧
    in_server s' = Some sampleServer ∧
    HasPrefix "CREATE DATABASE IF NOT EXISTS appdash"
      "CREATE DATABASE IF NOT EXISTS appdash" = true.
Proof.
  eexists _, _. split; [vm_compute; reflexivity|].
  assert (Call_Query sampleClient "CREATE DATABASE IF NOT EXISTS appdash"
          ∈ [Call_Authenticate sampleServer "admin" "secret";
             Call_CreateUser sampleServer "admin" "secret" true;
             Call_Query sampleClient "CREATE DATABASE IF NOT EXISTS appdash"]) as Hin.
  { by do 2 right; left. }
  destruct (init_restraint (Ok (url_handle 1)) sampleNewClient sampleClientQuery
              freshAuthenticate grantCreateUser blankStore sampleServer _ _ _ eq_refl)
    as (Hserver & _ & _ & _ & Hquery & Hrelease).
  split; [exact Hin|].
  split; [exact (proj2 (proj2 (Hquery _ _ Hin)))|].
  split; [exact Hserver|].
  apply (Hrelease ltac:(discriminate) sampleClient). exact Hin.
Defined.

(** X21 on the stored record. *)
Lemma findSpanPoint_outcomes_witness :
  executeOneQuery oneSpanStore (SelectSpanPoint sampleSpanID)
  = Ok (mkQueryResult [storedRow]) ∧
  findSpanPoint oneSpanStore sampleTimeParse sampleSpanID ≠ Ok None ∧
  ∃ p, findSpanPoint oneSpanStore sampleTimeParse sampleSpanID = Ok (Some p).
Proof.
  split; [reflexivity|].
  destruct (findSpanPoint_outcomes oneSpanStore sampleTimeParse sampleSpanID
              (mkQueryResult [storedRow]) eq_refl) as (_ & _ & _ & Hrow).
  destruct (Hrow storedRow [IString "2016"; IString "v1"; IString "A"] []
              eq_refl eq_refl) as [Hne Hiff].
  split; [exact Hne|]. apply Hiff. split_and!.
  - simpl. lia.
  - repeat constructor.
  - intros j s _ _. eexists. reflexivity.
Defined.
